(** * DarkMatter: the Shamir secret-splitting package and the block ledger

    A shallow embedding of [shamir/shamir.go] (GF(2^8) arithmetic, [Split],
    [Combine]) and of [types/types.go] (block and result sealing of package
    types, and the key-value ledger of package database with its three
    block indices), with the properties the specification states about
    them. *)

From Stdlib Require Import ZArith Lia List Bool Ascii String.
From Stdlib.Strings Require Import Byte.
From Stdlib Require DecimalString.
From stdpp Require Import base option list countable gmap strings.

Local Open Scope Z_scope.

(** ** Outcomes of a Go call that may fail

    A call returns normally, returns a non-nil [error], or panics at run
    time (index out of range, division by zero). *)

Inductive outcome (A : Type) : Type :=
| Ok (a : A)
| Err (msg : string)
| Panic (msg : string).

Arguments Ok {A} a.
Arguments Err {A} msg.
Arguments Panic {A} msg.

Definition obind {A B : Type} (m : outcome A) (k : A -> outcome B) : outcome B :=
  match m with
  | Ok a => k a
  | Err e => Err e
  | Panic e => Panic e
  end.

Declare Scope outcome_scope.
Delimit Scope outcome_scope with outcome.
Notation "'let*' x ':=' m 'in' k" := (obind m (fun x => k))
  (at level 10, x name, m at level 100, k at level 200)
  : outcome_scope.
Local Open Scope outcome_scope.

(** Slices indexed by a Go [int]: reading or writing out of range panics. *)

Definition in_range {A : Type} (l : list A) (i : Z) : bool :=
  (0 <=? i) && (i <? Z.of_nat (length l)).

Definition index {A : Type} (l : list A) (i : Z) : outcome A :=
  if in_range l i then
    match l !! Z.to_nat i with
    | Some x => Ok x
    | None => Panic "index out of range"
    end
  else Panic "index out of range".

Definition assign {A : Type} (l : list A) (i : Z) (x : A) : outcome (list A) :=
  if in_range l i then Ok (<[Z.to_nat i := x]> l)
  else Panic "index out of range".

(** [out[i][j] = x] on a slice of slices. *)
Definition assign2 {A : Type} (out : list (list A)) (i j : Z) (x : A)
  : outcome (list (list A)) :=
  let* row := index out i in
  let* row' := assign row j x in
  assign out i row'.

(** [make([]T, n)]: [n] zero values; a negative length panics. *)
Definition make {A : Type} (zero : A) (n : Z) : outcome (list A) :=
  if n <? 0 then Panic "makeslice: len out of range"
  else Ok (replicate (Z.to_nat n) zero).

(** The indices visited by [for i := 0; i < n; i++]. *)
Definition upto (n : Z) : list Z := map Z.of_nat (seq 0 (Z.to_nat n)).

(** Conversion of a Go integer to [uint8]. *)
Definition uint8 (z : Z) : Z := z mod 256.

Module shamir.

(** Tables of discrete logarithms and powers of the generator 0xe5. *)

Definition logTable : list Z :=
  [
    0x00; 0xff; 0xc8; 0x08; 0x91; 0x10; 0xd0; 0x36;
    0x5a; 0x3e; 0xd8; 0x43; 0x99; 0x77; 0xfe; 0x18;
    0x23; 0x20; 0x07; 0x70; 0xa1; 0x6c; 0x0c; 0x7f;
    0x62; 0x8b; 0x40; 0x46; 0xc7; 0x4b; 0xe0; 0x0e;
    0xeb; 0x16; 0xe8; 0xad; 0xcf; 0xcd; 0x39; 0x53;
    0x6a; 0x27; 0x35; 0x93; 0xd4; 0x4e; 0x48; 0xc3;
    0x2b; 0x79; 0x54; 0x28; 0x09; 0x78; 0x0f; 0x21;
    0x90; 0x87; 0x14; 0x2a; 0xa9; 0x9c; 0xd6; 0x74;
    0xb4; 0x7c; 0xde; 0xed; 0xb1; 0x86; 0x76; 0xa4;
    0x98; 0xe2; 0x96; 0x8f; 0x02; 0x32; 0x1c; 0xc1;
    0x33; 0xee; 0xef; 0x81; 0xfd; 0x30; 0x5c; 0x13;
    0x9d; 0x29; 0x17; 0xc4; 0x11; 0x44; 0x8c; 0x80;
    0xf3; 0x73; 0x42; 0x1e; 0x1d; 0xb5; 0xf0; 0x12;
    0xd1; 0x5b; 0x41; 0xa2; 0xd7; 0x2c; 0xe9; 0xd5;
    0x59; 0xcb; 0x50; 0xa8; 0xdc; 0xfc; 0xf2; 0x56;
    0x72; 0xa6; 0x65; 0x2f; 0x9f; 0x9b; 0x3d; 0xba;
    0x7d; 0xc2; 0x45; 0x82; 0xa7; 0x57; 0xb6; 0xa3;
    0x7a; 0x75; 0x4f; 0xae; 0x3f; 0x37; 0x6d; 0x47;
    0x61; 0xbe; 0xab; 0xd3; 0x5f; 0xb0; 0x58; 0xaf;
    0xca; 0x5e; 0xfa; 0x85; 0xe4; 0x4d; 0x8a; 0x05;
    0xfb; 0x60; 0xb7; 0x7b; 0xb8; 0x26; 0x4a; 0x67;
    0xc6; 0x1a; 0xf8; 0x69; 0x25; 0xb3; 0xdb; 0xbd;
    0x66; 0xdd; 0xf1; 0xd2; 0xdf; 0x03; 0x8d; 0x34;
    0xd9; 0x92; 0x0d; 0x63; 0x55; 0xaa; 0x49; 0xec;
    0xbc; 0x95; 0x3c; 0x84; 0x0b; 0xf5; 0xe6; 0xe7;
    0xe5; 0xac; 0x7e; 0x6e; 0xb9; 0xf9; 0xda; 0x8e;
    0x9a; 0xc9; 0x24; 0xe1; 0x0a; 0x15; 0x6b; 0x3a;
    0xa0; 0x51; 0xf4; 0xea; 0xb2; 0x97; 0x9e; 0x5d;
    0x22; 0x88; 0x94; 0xce; 0x19; 0x01; 0x71; 0x4c;
    0xa5; 0xe3; 0xc5; 0x31; 0xbb; 0xcc; 0x1f; 0x2d;
    0x3b; 0x52; 0x6f; 0xf6; 0x2e; 0x89; 0xf7; 0xc0;
    0x68; 0x1b; 0x64; 0x04; 0x06; 0xbf; 0x83; 0x38 ].

Definition expTable : list Z :=
  [
    0x01; 0xe5; 0x4c; 0xb5; 0xfb; 0x9f; 0xfc; 0x12;
    0x03; 0x34; 0xd4; 0xc4; 0x16; 0xba; 0x1f; 0x36;
    0x05; 0x5c; 0x67; 0x57; 0x3a; 0xd5; 0x21; 0x5a;
    0x0f; 0xe4; 0xa9; 0xf9; 0x4e; 0x64; 0x63; 0xee;
    0x11; 0x37; 0xe0; 0x10; 0xd2; 0xac; 0xa5; 0x29;
    0x33; 0x59; 0x3b; 0x30; 0x6d; 0xef; 0xf4; 0x7b;
    0x55; 0xeb; 0x4d; 0x50; 0xb7; 0x2a; 0x07; 0x8d;
    0xff; 0x26; 0xd7; 0xf0; 0xc2; 0x7e; 0x09; 0x8c;
    0x1a; 0x6a; 0x62; 0x0b; 0x5d; 0x82; 0x1b; 0x8f;
    0x2e; 0xbe; 0xa6; 0x1d; 0xe7; 0x9d; 0x2d; 0x8a;
    0x72; 0xd9; 0xf1; 0x27; 0x32; 0xbc; 0x77; 0x85;
    0x96; 0x70; 0x08; 0x69; 0x56; 0xdf; 0x99; 0x94;
    0xa1; 0x90; 0x18; 0xbb; 0xfa; 0x7a; 0xb0; 0xa7;
    0xf8; 0xab; 0x28; 0xd6; 0x15; 0x8e; 0xcb; 0xf2;
    0x13; 0xe6; 0x78; 0x61; 0x3f; 0x89; 0x46; 0x0d;
    0x35; 0x31; 0x88; 0xa3; 0x41; 0x80; 0xca; 0x17;
    0x5f; 0x53; 0x83; 0xfe; 0xc3; 0x9b; 0x45; 0x39;
    0xe1; 0xf5; 0x9e; 0x19; 0x5e; 0xb6; 0xcf; 0x4b;
    0x38; 0x04; 0xb9; 0x2b; 0xe2; 0xc1; 0x4a; 0xdd;
    0x48; 0x0c; 0xd0; 0x7d; 0x3d; 0x58; 0xde; 0x7c;
    0xd8; 0x14; 0x6b; 0x87; 0x47; 0xe8; 0x79; 0x84;
    0x73; 0x3c; 0xbd; 0x92; 0xc9; 0x23; 0x8b; 0x97;
    0x95; 0x44; 0xdc; 0xad; 0x40; 0x65; 0x86; 0xa2;
    0xa4; 0xcc; 0x7f; 0xec; 0xc0; 0xaf; 0x91; 0xfd;
    0xf7; 0x4f; 0x81; 0x2f; 0x5b; 0xea; 0xa8; 0x1c;
    0x02; 0xd1; 0x98; 0x71; 0xed; 0x25; 0xe3; 0x24;
    0x06; 0x68; 0xb3; 0x93; 0x2c; 0x6f; 0x3e; 0x6c;
    0x0a; 0xb8; 0xce; 0xae; 0x74; 0xb1; 0x42; 0xb4;
    0x1e; 0xd3; 0x49; 0xe9; 0x9c; 0xc8; 0xc6; 0xc7;
    0x22; 0x6e; 0xdb; 0x20; 0xbf; 0x43; 0x51; 0x52;
    0x66; 0xb2; 0x76; 0x60; 0xda; 0xc5; 0xf3; 0xf6;
    0xaa; 0xcd; 0x9a; 0xa0; 0x75; 0x54; 0x0e; 0x01 ].

(** ShareOverhead is the byte size overhead of each share, as the source
    declares it. *)
Definition ShareOverhead : Z := 1.

(** Table lookup with a [uint8] or reduced index; both tables have 256
    entries, so the Go index expression cannot go out of range. *)
Definition tbl (t : list Z) (i : Z) : Z := nth (Z.to_nat i) t 0.

Record polynomial : Type := { coefficients : list Z }.

(** [crypto/rand] is modelled by a finite tape of the bytes still to be
    delivered: [rand.Read] on a buffer of [n] bytes takes the next [n] bytes,
    and fails when the source cannot deliver them. *)
Definition rand_Read (tape : list Z) (n : nat) : option (list Z * list Z) :=
  if (n <=? length tape)%nat then Some (take n tape, drop n tape) else None.

(** add combines two numbers in GF(2^8). *)
Definition add (a b : Z) : Z := Z.lxor a b.

(** mult multiplies two numbers in GF(2^8) with the log/exp tables. *)
Definition mult (a b : Z) : Z :=
  let log_a := tbl logTable a in
  let log_b := tbl logTable b in
  let sum := Z.rem (log_a + log_b) 255 in
  let ret := tbl expTable sum in
  let ret := if a =? 0 then 0 else ret in
  let ret := if b =? 0 then 0 else ret in
  ret.

(** div divides two numbers in GF(2^8); a zero divisor panics. *)
Definition div (a b : Z) : outcome Z :=
  if b =? 0 then Panic "divide by zero"
  else
    let logA := tbl logTable a in
    let logB := tbl logTable b in
    let diff := Z.rem (logA - logB) 255 in
    let diff := if diff <? 0 then diff + 255 else diff in
    let ret := tbl expTable diff in
    Ok (if a =? 0 then 0 else ret).

(** makePolynomial: a polynomial of the given degree with the provided
    intercept and random higher coefficients. Returns the polynomial and
    the rest of the random tape. *)
Definition makePolynomial (tape : list Z) (intercept degree : Z)
  : outcome (polynomial * list Z) :=
  let* coeffs := make 0 (uint8 (degree + 1)) in
  let* coeffs := assign coeffs 0 intercept in
  match rand_Read tape (length coeffs - 1)%nat with
  | None => Err "failed to generate polynomial"
  | Some (bytes, tape') => Ok ({| coefficients := take 1 coeffs ++ bytes |}, tape')
  end.

(** The Horner loop [for i := degree - 1; i >= 0; i--]. *)
Fixpoint horner (coeffs : list Z) (x : Z) (idxs : list Z) (out : Z) : outcome Z :=
  match idxs with
  | [] => Ok out
  | i :: rest =>
      let* coeff := index coeffs i in
      horner coeffs x rest (add (mult out x) coeff)
  end.

(** evaluate returns the value of the polynomial for the given x. *)
Definition evaluate (p : polynomial) (x : Z) : outcome Z :=
  if x =? 0 then index (coefficients p) 0
  else
    let degree := Z.of_nat (length (coefficients p)) - 1 in
    let* out := index (coefficients p) degree in
    horner (coefficients p) x (reverse (upto degree)) out.

(** The inner loop of interpolatePolynomial over [j]. *)
Fixpoint basis_loop (xSamples : list Z) (x : Z) (i : Z) (js : list Z) (basis : Z)
  : outcome Z :=
  match js with
  | [] => Ok basis
  | j :: rest =>
      if i =? j then basis_loop xSamples x i rest basis
      else
        let* xj := index xSamples j in
        let num := add x xj in
        let* xi := index xSamples i in
        let denom := add xi xj in
        let* term := div num denom in
        basis_loop xSamples x i rest (mult basis term)
  end.

(** The outer loop of interpolatePolynomial over [i]. *)
Fixpoint lagrange_loop (xSamples ySamples : list Z) (x : Z) (limit : Z)
    (idxs : list Z) (result : Z) : outcome Z :=
  match idxs with
  | [] => Ok result
  | i :: rest =>
      let* basis := basis_loop xSamples x i (upto limit) 1 in
      let* yi := index ySamples i in
      let group := mult yi basis in
      lagrange_loop xSamples ySamples x limit rest (add result group)
  end.

(** interpolatePolynomial takes N sample points and returns the value at a
    given x using a Lagrange interpolation. *)
Definition interpolatePolynomial (xSamples ySamples : list Z) (x : Z) : outcome Z :=
  let limit := Z.of_nat (length xSamples) in
  lagrange_loop xSamples ySamples x limit (upto limit) 0.

(** The first loop of Split: allocate every share and store its x coordinate
    at offset [len(secret)]. *)
Fixpoint alloc_loop (xCoordinates : list Z) (n : Z) (idxs : list Z)
    (out : list (list Z)) : outcome (list (list Z)) :=
  match idxs with
  | [] => Ok out
  | idx :: rest =>
      let* row := make 0 (n + 3) in
      let* out := assign out idx row in
      let* xc := index xCoordinates idx in
      let* out := assign2 out idx n (uint8 (uint8 xc + 1)) in
      alloc_loop xCoordinates n rest out
  end.

(** The loop [for i := 0; i < parts; i++] inside Split, for the polynomial
    [p] of the secret byte at position [idx]. *)
Fixpoint part_loop (xCoordinates : list Z) (p : polynomial) (n idx : Z)
    (idxs : list Z) (out : list (list Z)) : outcome (list (list Z)) :=
  match idxs with
  | [] => Ok out
  | i :: rest =>
      let* xc := index xCoordinates i in
      let x := uint8 (uint8 xc + 1) in
      let* y := evaluate p x in
      let* out := assign2 out i idx y in
      let* c0 := index (coefficients p) 0 in
      let* out := assign2 out i (n + 1) c0 in
      let* c1 := index (coefficients p) 1 in
      let* out := assign2 out i (n + 2) c1 in
      part_loop xCoordinates p n idx rest out
  end.

(** The loop [for idx, val := range secret] of Split; [vals] is what is left
    of the secret from position [idx] on. (The source also prints the
    coefficients to standard output, which the model leaves out.) *)
Fixpoint secret_loop (xCoordinates : list Z) (parts threshold n : Z)
    (tape : list Z) (idx : Z) (vals : list Z) (out : list (list Z))
  : outcome (list (list Z)) :=
  match vals with
  | [] => Ok out
  | val :: rest =>
      let* pt := makePolynomial tape val (uint8 (threshold - 1)) in
      let* out := part_loop xCoordinates (fst pt) n idx (upto parts) out in
      secret_loop xCoordinates parts threshold n (snd pt) (idx + 1) rest out
  end.

(** Split. The two sources of randomness are arguments: [xCoordinates] is
    the slice returned by [mathrand.Perm(255)], and [tape] the bytes that
    [crypto/rand] delivers. *)
Definition Split (xCoordinates tape : list Z) (secret : list Z)
    (parts threshold : Z) : outcome (list (list Z)) :=
  if parts <? threshold then Err "parts cannot be less than threshold"
  else if parts >? 255 then Err "parts cannot exceed 255"
  else if threshold <? 2 then Err "threshold must be at least 2"
  else if threshold >? 255 then Err "threshold cannot exceed 255"
  else if Z.of_nat (length secret) =? 0 then Err "cannot split an empty secret"
  else
    let n := Z.of_nat (length secret) in
    let* out := make [] parts in
    let* out := alloc_loop xCoordinates n (upto (Z.of_nat (length out))) out in
    secret_loop xCoordinates parts threshold n tape 0 secret out.

(** The loop of Combine that checks that all parts have the same length. *)
Fixpoint lengths_loop (firstPartLen : Z) (rest : list (list Z)) : outcome unit :=
  match rest with
  | [] => Ok tt
  | part :: rest' =>
      if negb (Z.of_nat (length part) =? firstPartLen)
      then Err "all parts must be the same length"
      else lengths_loop firstPartLen rest'
  end.

(** The loop of Combine that collects the x samples and rejects duplicates;
    [checkMap] is the Go [map[byte]bool], a missing key reads as [false]. *)
Fixpoint samples_loop (firstPartLen : Z) (parts : list (list Z)) (i : Z)
    (checkMap : gmap Z bool) (xSamples : list Z) : outcome (list Z) :=
  match parts with
  | [] => Ok xSamples
  | part :: rest =>
      let* samp := index part (firstPartLen - 3) in
      if default false (checkMap !! samp) then Err "duplicate part detected"
      else
        let checkMap := <[samp := true]> checkMap in
        let* xSamples := assign xSamples i samp in
        samples_loop firstPartLen rest (i + 1) checkMap xSamples
  end.

(** [for i, part := range parts { ySamples[i] = part[idx] }]. *)
Fixpoint ysamples_loop (idx : Z) (parts : list (list Z)) (i : Z)
    (ySamples : list Z) : outcome (list Z) :=
  match parts with
  | [] => Ok ySamples
  | part :: rest =>
      let* y := index part idx in
      let* ySamples := assign ySamples i y in
      ysamples_loop idx rest (i + 1) ySamples
  end.

(** The loop [for idx := range secret] of Combine. *)
Fixpoint reconstruct_loop (parts : list (list Z)) (xSamples : list Z)
    (idxs : list Z) (ySamples secret : list Z) : outcome (list Z) :=
  match idxs with
  | [] => Ok secret
  | idx :: rest =>
      let* ySamples := ysamples_loop idx parts 0 ySamples in
      let* val := interpolatePolynomial xSamples ySamples 0 in
      let* secret := assign secret idx val in
      reconstruct_loop parts xSamples rest ySamples secret
  end.

(** Combine is used to reverse a Split and reconstruct a secret. *)
Definition Combine (parts : list (list Z)) : outcome (list Z) :=
  if Z.of_nat (length parts) <? 2
  then Err "less than two parts cannot be used to reconstruct the secret"
  else
    let* part0 := index parts 0 in
    let firstPartLen := Z.of_nat (length part0) in
    if firstPartLen <? 2 then Err "parts must be at least two bytes"
    else
      let* _ := lengths_loop firstPartLen (drop 1 parts) in
      let* secret := make 0 (firstPartLen - 1) in
      let* xSamples := make 0 (Z.of_nat (length parts)) in
      let* ySamples := make 0 (Z.of_nat (length parts)) in
      let* xSamples := samples_loop firstPartLen parts 0 ∅ xSamples in
      reconstruct_loop parts xSamples (upto (Z.of_nat (length secret)))
        ySamples secret.

End shamir.

(** ** Package types: results, blocks and their sealing *)

(** A Go [error] value: [None] is [nil]. *)
Definition error : Type := option string.

(** What the program takes from outside the repository: the dynamic type
    behind [interface{}] with its zero value, the SHA-256 digest, and the
    seconds-of-minute of [time.Unix(sec, 0)] in the zone of the process. *)
Class Platform : Type := {
  any : Type;
  any_nil : any;
  sha256_Sum256 : list byte -> list byte;
  time_Unix_Second : Z -> Z
}.

(** [encoding/json] for a type: [json.Marshal] returns the bytes or an
    error (and then no bytes); [json.Unmarshal] fills the value it is given
    and may return an error. *)
Class JSON (A : Type) : Type := {
  json_Marshal : A -> list byte + string;
  json_Unmarshal : list byte -> A -> A * error
}.

Definition marshal_bytes (r : list byte + string) : list byte :=
  match r with inl bytes => bytes | inr _ => [] end.

Definition marshal_err (r : list byte + string) : error :=
  match r with inl _ => None | inr e => Some e end.

(** Conversion of a [uint64] to [int64]. *)
Definition int64 (z : Z) : Z :=
  let w := z mod 2 ^ 64 in if w <? 2 ^ 63 then w else w - 2 ^ 64.

(** [fmt.Sprintf("%x", b)] on a byte array: two lower-case hexadecimal
    digits per byte. *)
Definition hex_digit (n : N) : ascii :=
  nth (N.to_nat n) (list_ascii_of_string "0123456789abcdef") "0"%char.

Definition hex_byte (b : byte) : string :=
  let n := Byte.to_N b in
  String (hex_digit (n / 16)) (String (hex_digit (n mod 16)) EmptyString).

Definition fmt_x (bs : list byte) : string :=
  String.concat "" (map hex_byte bs).

(** [fmt.Sprintf("%02d", n)]: the decimal digits, padded with zeros to two
    characters, the sign first. *)
Definition decimal (n : Z) : string :=
  DecimalString.NilZero.string_of_uint (N.to_uint (Z.to_N (Z.abs n))).

Definition zero_pad (width : nat) (digits : string) : string :=
  String.concat "" (replicate (width - String.length digits) "0"%string)
    ++ digits.

Definition fmt_02d (n : Z) : string :=
  if n <? 0 then "-" ++ zero_pad 1 (decimal n) else zero_pad 2 (decimal n).

Module types.

(** ServiceHash is included in all the signs to enforce the hashes creation. *)
Definition ServiceHash : string :=
  "1d0684170dcf58ed2499d233be72b5dde48d8124cb617f1309bae85da2fe85cf".

(** BlockHashPrefix is the prefix of the block hashes of the protocol. *)
Definition BlockHashPrefix : string := "dd".

(** Result is the message with the results of a mapped node. Its fields
    carry the prefix [Result_], since FullSignedBlock has fields of the same
    names. *)
Record Result : Type := {
  Result_CrawlerName : string;
  Result_Data : list byte;
  Result_HasError : bool;
  Result_Timestamp : Z;
  Result_Ticker : string;
  Result_Hash : string
}.

Definition Result_set_Hash (h : string) (r : Result) : Result :=
  {| Result_CrawlerName := Result_CrawlerName r;
     Result_Data := Result_Data r;
     Result_HasError := Result_HasError r;
     Result_Timestamp := Result_Timestamp r;
     Result_Ticker := Result_Ticker r;
     Result_Hash := h |}.

Section Blocks.
Context `{Platform}.

(** FullSignedBlock is the block of the ledger. *)
Record FullSignedBlock : Type := {
  Hash : string;
  Height : Z;
  Timestamp : Z;
  Payload : any;
  PreviousHash : string;
  Address : string;
  PreviousAddress : string;
  Memo : string;
  Evidence : list Result
}.

Definition set_Hash (h : string) (b : FullSignedBlock) : FullSignedBlock :=
  {| Hash := h;
     Height := Height b;
     Timestamp := Timestamp b;
     Payload := Payload b;
     PreviousHash := PreviousHash b;
     Address := Address b;
     PreviousAddress := PreviousAddress b;
     Memo := Memo b;
     Evidence := Evidence b |}.

(** The zero value of the struct, as [var block types.FullSignedBlock]. *)
Definition zero_block : FullSignedBlock :=
  {| Hash := ""; Height := 0; Timestamp := 0; Payload := any_nil;
     PreviousHash := ""; Address := ""; PreviousAddress := ""; Memo := "";
     Evidence := [] |}.

(** calculateHash generates a hash using a double operation over the
    serialized content of the object. (The source also logs the
    serialization error.) *)
Definition calculateHash {A : Type} `{JSON A} (obj : A) : string * error :=
  match json_Marshal obj with
  | inr err => (""%string, Some err)
  | inl bytes =>
      let rawContent := (ServiceHash ++ ":" ++ string_of_list_byte bytes)%string in
      let doubleHash := fmt_x (sha256_Sum256 (list_byte_of_string rawContent)) in
      let doubleHash := fmt_x (sha256_Sum256 (list_byte_of_string doubleHash)) in
      (doubleHash, None)
  end.

(** CreateHash calculates the hash for a block; the receiver is a pointer,
    so the updated block is returned with the error. *)
Definition FullSignedBlock_CreateHash `{JSON FullSignedBlock}
    (block : FullSignedBlock) : FullSignedBlock * error :=
  let block := set_Hash "" block in
  let '(hash, err) := calculateHash block in
  let block := match err with None => set_Hash hash block | Some _ => block end in
  let seconds := time_Unix_Second (int64 (Timestamp block)) in
  let block :=
    set_Hash (BlockHashPrefix ++ fmt_02d seconds ++ Hash block)%string block in
  (block, err).

(** CreateHash creates a double hash for all the content of a result. *)
Definition Result_CreateHash `{JSON Result} (result : Result) : Result * error :=
  let result := Result_set_Hash "" result in
  let '(hash, err) := calculateHash result in
  let result :=
    match err with None => Result_set_Hash hash result | Some _ => result end in
  (result, err).

End Blocks.
End types.

(** ** The key-value backend

    A model of the part of Badger that the ledger uses: byte keys and byte
    values, update transactions that buffer their writes and apply them on
    commit, read-only views. *)

Module badger.

#[global] Instance byte_eq_dec : EqDecision byte := Byte.byte_eq_dec.

#[global] Instance byte_countable : Countable byte :=
  inj_countable Byte.to_N Byte.of_N Byte.of_to_N.

(** The rules of the backend that make a write or a commit fail (the size
    limits on keys and values, a conflict at commit): [None] lets it pass. *)
Class Backend : Type := {
  Set_check : list byte -> list byte -> error;
  Commit_check : gmap (list byte) (list byte) -> error
}.

(** The stored pairs. *)
Abbreviation DB := (gmap (list byte) (list byte)).

(** A transaction: the state of the database it reads from, and the writes
    it has buffered. *)
Record Txn : Type := {
  snapshot : gmap (list byte) (list byte);
  pendingWrites : gmap (list byte) (list byte)
}.

Definition NewTransaction (db : DB) : Txn :=
  {| snapshot := db; pendingWrites := ∅ |}.

(** [txn.Set]: buffers the write, unless the backend refuses it. *)
Definition Txn_Set `{Backend} (txn : Txn) (key value : list byte) : Txn * error :=
  match Set_check key value with
  | Some e => (txn, Some e)
  | None =>
      ({| snapshot := snapshot txn;
          pendingWrites := <[key := value]> (pendingWrites txn) |}, None)
  end.

(** [txn.Get] followed by [item.ValueCopy]: the buffered write if there is
    one, else the stored value, else the key-not-found error. *)
Definition Txn_Get (txn : Txn) (key : list byte) : list byte * error :=
  match pendingWrites txn !! key with
  | Some v => (v, None)
  | None =>
      match snapshot txn !! key with
      | Some v => (v, None)
      | None => ([], Some "Key not found"%string)
      end
  end.

(** [db.Update(fn)]: runs [fn] in a fresh transaction; an error of [fn]
    discards the transaction, otherwise it is committed, and a failed commit
    leaves the database as it was. [st] is the state of the variables that
    the closure captures. *)
Definition DB_Update `{Backend} {S : Type} (db : DB)
    (fn : Txn -> S -> Txn * S * error) (st : S) : DB * S * error :=
  let '(txn, st, err) := fn (NewTransaction db) st in
  match err with
  | Some e => (db, st, Some e)
  | None =>
      match Commit_check (pendingWrites txn) with
      | Some e => (db, st, Some e)
      | None => (pendingWrites txn ∪ db, st, None)
      end
  end.

(** [db.View(fn)]: runs [fn] in a read-only transaction. *)
Definition DB_View {S : Type} (db : DB) (fn : Txn -> S -> S * error) (st : S)
  : S * error :=
  fn (NewTransaction db) st.

End badger.

(** ** Package database: the ledger store *)

Module database.
Import types badger.

(** Prefixes identify each key in the datastore. *)
Definition HashKeyPrefix : byte := x01.
Definition TimestampKeyPrefix : byte := x02.
Definition HeightKeyPrefix : byte := x03.
Definition FixedKeyPrefix : byte := xff.

(** Conversion of an integer to a byte, [byte(v)]. *)
Definition byte_of_Z (z : Z) : byte :=
  match Byte.of_N (Z.to_N (z mod 256)) with
  | Some b => b
  | None => x00
  end.

(** [binary.LittleEndian.PutUint64] into a fresh buffer of 8 bytes. *)
Definition PutUint64 (v : Z) : list byte :=
  map (fun i => byte_of_Z (Z.shiftr v (8 * i))) (upto 8).

Section Store.
Context `{Platform} `{Backend} `{JSON FullSignedBlock}.

(** Store implements the KVStore interface. *)
Record Store : Type := {
  StorFileLocation : string;
  storHandler : gmap (list byte) (list byte)
}.

Definition set_storHandler (db : DB) (s : Store) : Store :=
  {| StorFileLocation := StorFileLocation s; storHandler := db |}.

(** Store a value in the database indexed by an uint64. *)
Definition storeUIntIndex (txn : Txn) (key : Z) (value : list byte)
    (prefix : byte) : Txn * error :=
  let index := PutUint64 key in
  let index := [prefix] ++ index in
  Txn_Set txn index value.

(** Read a value from the database indexed by an uint64. *)
Definition readUIntIndex (txn : Txn) (key : Z) (prefix : byte)
  : list byte * error :=
  let index := PutUint64 key in
  let index := [prefix] ++ index in
  match Txn_Get txn index with
  | (_, Some err) => ([], Some err)
  | (value, None) => (value, None)
  end.

(** Store a value in the database indexed by a string. *)
Definition storeStringIndex (txn : Txn) (key : string) (value : list byte)
    (prefix : byte) : Txn * error :=
  let index := [prefix] ++ list_byte_of_string key in
  Txn_Set txn index value.

(** Read a value from the database indexed by a string. *)
Definition readStringIndex (txn : Txn) (key : string) (prefix : byte)
  : list byte * error :=
  let index := [prefix] ++ list_byte_of_string key in
  match Txn_Get txn index with
  | (_, Some err) => ([], Some err)
  | (value, None) => (value, None)
  end.

(** Store a full block in the database, indexed by its timestamp and height.
    The error of [json.Marshal] is overwritten by the one of the update. *)
Definition StoreBlock (s : Store) (block : FullSignedBlock) : Store * error :=
  let bytes := marshal_bytes (json_Marshal block) in
  let '(db, _, err) :=
    DB_Update (storHandler s) (fun txn (_ : unit) =>
      let '(txn, txErr) := storeStringIndex txn (Hash block) bytes HashKeyPrefix in
      match txErr with
      | None =>
          let '(txn, txErr) :=
            storeUIntIndex txn (Timestamp block)
              (list_byte_of_string (Hash block)) TimestampKeyPrefix in
          match txErr with
          | Some e => (txn, tt, Some e)
          | None =>
              let '(txn, txErr) :=
                storeUIntIndex txn (Height block)
                  (list_byte_of_string (Hash block)) HeightKeyPrefix in
              match txErr with
              | Some e => (txn, tt, Some e)
              | None => (txn, tt, txErr)
              end
          end
      | Some _ => (txn, tt, txErr)
      end) tt in
  (set_storHandler db s, err).

(** Read a block from the database using its hash. *)
Definition GetBlock (s : Store) (hash : string) : FullSignedBlock * error :=
  DB_View (storHandler s) (fun txn block =>
    match readStringIndex txn hash HashKeyPrefix with
    | (_, Some err) => (block, Some err)
    | (bytes, None) => json_Unmarshal bytes block
    end) zero_block.

(** Read a block from the database using its timestamp as index. *)
Definition FindBlockByTimestamp (s : Store) (timestamp : Z)
  : FullSignedBlock * error :=
  DB_View (storHandler s) (fun txn block =>
    match readUIntIndex txn timestamp TimestampKeyPrefix with
    | (_, Some err) => (block, Some err)
    | (hashBytes, None) =>
        match readStringIndex txn (string_of_list_byte hashBytes) HashKeyPrefix with
        | (_, Some err) => (block, Some err)
        | (bytes, None) => json_Unmarshal bytes block
        end
    end) zero_block.

(** Read a block from the database using its height as index. *)
Definition FindBlockByHeight (s : Store) (height : Z)
  : FullSignedBlock * error :=
  DB_View (storHandler s) (fun txn block =>
    match readUIntIndex txn height HeightKeyPrefix with
    | (_, Some err) => (block, Some err)
    | (hashBytes, None) =>
        match readStringIndex txn (string_of_list_byte hashBytes) HashKeyPrefix with
        | (_, Some err) => (block, Some err)
        | (bytes, None) => json_Unmarshal bytes block
        end
    end) zero_block.

(** StoreValue stores an arbitrary value in the database, indexed by a
    string. *)
Definition StoreValue (s : Store) (key : string) (value : list byte)
  : Store * error :=
  let '(db, _, err) :=
    DB_Update (storHandler s) (fun txn (_ : unit) =>
      let '(txn, err) := storeStringIndex txn key value FixedKeyPrefix in
      (txn, tt, err)) tt in
  (set_storHandler db s, err).

(** GetValue returns a value stored in the database indexed by a string;
    the source reads inside an update transaction. *)
Definition GetValue (s : Store) (key : string) : Store * (list byte * error) :=
  let '(db, bytes, err) :=
    DB_Update (storHandler s) (fun txn (_ : list byte) =>
      let '(bytes, err) := readStringIndex txn key FixedKeyPrefix in
      (txn, bytes, err)) [] in
  (set_storHandler db s, (bytes, err)).

End Store.
End database.

(** ** A small platform to run the ledger on

    A stand-in digest, UTC seconds, a backend with a small key limit, and a
    binary codec for blocks and results: enough to evaluate the sealing and
    the store on concrete blocks. *)

Module demo.
Import types badger database.

Definition digest (m : list byte) : list byte :=
  replicate 32 (byte_of_Z (foldr (fun b acc => Z.of_N (Byte.to_N b) + acc) 0 m)).

#[export] Instance platform : Platform :=
  {| any := Z;
     any_nil := 0;
     sha256_Sum256 := digest;
     time_Unix_Second := fun sec => sec mod 60 |}.

(** [binary.LittleEndian.Uint64]. *)
Definition Uint64 (bs : list byte) : Z :=
  foldr (fun b acc => Z.of_N (Byte.to_N b) + 256 * acc) 0 bs.

(** Blocks are written as height, timestamp and payload, 8 bytes each,
    followed by the hash; a negative payload cannot be written. A block is
    read back into the fields that the encoding carries. *)
Definition marshal_block (b : FullSignedBlock) : list byte + string :=
  if Payload b <? 0 then inr "json: unsupported value"%string
  else inl (PutUint64 (Height b) ++ PutUint64 (Timestamp b) ++
            PutUint64 (Payload b) ++ list_byte_of_string (Hash b)).

Definition unmarshal_block (bytes : list byte) (b : FullSignedBlock)
  : FullSignedBlock * error :=
  if (length bytes <? 24)%nat then (b, Some "unexpected end of JSON input"%string)
  else
    ({| Hash := string_of_list_byte (drop 24 bytes);
        Height := Uint64 (take 8 bytes);
        Timestamp := Uint64 (take 8 (drop 8 bytes));
        Payload := Uint64 (take 8 (drop 16 bytes));
        PreviousHash := PreviousHash b;
        Address := Address b;
        PreviousAddress := PreviousAddress b;
        Memo := Memo b;
        Evidence := Evidence b |}, None).

#[export] Instance json_block : JSON FullSignedBlock :=
  {| json_Marshal := marshal_block; json_Unmarshal := unmarshal_block |}.

#[export] Instance json_result : JSON Result :=
  {| json_Marshal := fun r =>
       inl (list_byte_of_string
              (Result_CrawlerName r ++ ":" ++ Result_Ticker r ++ ":" ++
               Result_Hash r)%string);
     json_Unmarshal := fun bytes r =>
       (Result_set_Hash (string_of_list_byte bytes) r, None) |}.

(** A backend that refuses keys of more than 12 bytes. *)
#[export] Instance backend : Backend :=
  {| Set_check := fun key _ =>
       if (12 <? length key)%nat then Some "Key exceeded size limit"%string
       else None;
     Commit_check := fun _ => None |}.

Definition block1 : FullSignedBlock :=
  {| Hash := "dd07abc"; Height := 1; Timestamp := 1567; Payload := 42;
     PreviousHash := ""; Address := ""; PreviousAddress := ""; Memo := "";
     Evidence := [] |}.

Definition block2 : FullSignedBlock :=
  {| Hash := "dd08def"; Height := 2; Timestamp := 1568; Payload := 43;
     PreviousHash := ""; Address := ""; PreviousAddress := ""; Memo := "";
     Evidence := [] |}.

(** A block whose payload cannot be serialized. *)
Definition block_bad : FullSignedBlock :=
  {| Hash := "old"; Height := 3; Timestamp := 1569; Payload := -1;
     PreviousHash := ""; Address := ""; PreviousAddress := ""; Memo := "";
     Evidence := [] |}.

(** A block whose hash makes a key that the backend refuses. *)
Definition block_long : FullSignedBlock :=
  {| Hash := "dd09aaaaaaaaaaaaaaaa"; Height := 4; Timestamp := 1570;
     Payload := 44;
     PreviousHash := ""; Address := ""; PreviousAddress := ""; Memo := "";
     Evidence := [] |}.

Definition result1 : Result :=
  {| Result_CrawlerName := "binance"; Result_Data := []; Result_HasError := false;
     Result_Timestamp := 1567; Result_Ticker := "BTC"; Result_Hash := "" |}.

Definition store0 : Store :=
  {| StorFileLocation := "/tmp/ledger"; storHandler := ∅ |}.

(** A backend that refuses every write under the height prefix: in
    StoreBlock the third write fails after the first two were buffered. *)
Definition backend_without_height : Backend :=
  {| Set_check := fun key _ =>
       match key with
       | [] => Some "Key cannot be empty"%string
       | b :: _ =>
           if Byte.eqb b HeightKeyPrefix then Some "Key refused"%string else None
       end;
     Commit_check := fun _ => None |}.

End demo.

(** ** A platform with dynamically typed payloads

    The payload of a block is an [interface{}]. As in [encoding/json], a
    number is written without its Go type, and a number read into an
    [interface{}] is stored as a [float64]: the integer payload 42 and the
    float payload 42 have the same serialization, which is read back as the
    float. Numbers are the naturals below 2^64; blocks are laid out as in
    the small platform above, the payload with a leading byte that tells a
    number from [null]. *)

Module demo_json.
Import types badger database.

Inductive value : Type :=
  | Nil
  | Int (n : Z)
  | Float64 (n : Z).

#[export] Instance platform : Platform :=
  {| any := value;
     any_nil := Nil;
     sha256_Sum256 := demo.digest;
     time_Unix_Second := fun sec => sec mod 60 |}.

Definition marshal_value (v : value) : list byte :=
  match v with
  | Nil => x00 :: PutUint64 0
  | Int n => x01 :: PutUint64 n
  | Float64 n => x01 :: PutUint64 n
  end.

Definition unmarshal_value (bytes : list byte) : value :=
  match bytes with
  | x01 :: digits => Float64 (demo.Uint64 digits)
  | _ => Nil
  end.

Definition marshal_block (b : FullSignedBlock) : list byte + string :=
  inl (PutUint64 (Height b) ++ PutUint64 (Timestamp b) ++
       marshal_value (Payload b) ++ list_byte_of_string (Hash b)).

Definition unmarshal_block (bytes : list byte) (b : FullSignedBlock)
  : FullSignedBlock * error :=
  if (length bytes <? 25)%nat then (b, Some "unexpected end of JSON input"%string)
  else
    ({| Hash := string_of_list_byte (drop 25 bytes);
        Height := demo.Uint64 (take 8 bytes);
        Timestamp := demo.Uint64 (take 8 (drop 8 bytes));
        Payload := unmarshal_value (take 9 (drop 16 bytes));
        PreviousHash := PreviousHash b;
        Address := Address b;
        PreviousAddress := PreviousAddress b;
        Memo := Memo b;
        Evidence := Evidence b |}, None).

#[export] Instance json_block : JSON FullSignedBlock :=
  {| json_Marshal := marshal_block; json_Unmarshal := unmarshal_block |}.

(** The key limit of Badger, and no other rule. *)
#[export] Instance backend : Backend :=
  {| Set_check := fun key _ =>
       if 65000 <? Z.of_nat (length key)
       then Some "Key exceeded size limit"%string
       else None;
     Commit_check := fun _ => None |}.

(** Two blocks that differ in the Go type of their payload only. *)
Definition block_int : FullSignedBlock :=
  {| Hash := ""; Height := 1; Timestamp := 1567; Payload := Int 42;
     PreviousHash := ""; Address := ""; PreviousAddress := ""; Memo := "";
     Evidence := [] |}.

Definition block_float : FullSignedBlock :=
  {| Hash := ""; Height := 1; Timestamp := 1567; Payload := Float64 42;
     PreviousHash := ""; Address := ""; PreviousAddress := ""; Memo := "";
     Evidence := [] |}.

Definition store0 : Store :=
  {| StorFileLocation := "/tmp/ledger"; storHandler := ∅ |}.

End demo_json.

(** ** Vocabulary of the properties *)

Section ShamirVocabulary.

(** The shares under construction: [rows] slices of [width] bytes each. *)
Definition shape (rows width : nat) (out : list (list Z)) : Prop :=
  length out = rows /\ forall r row, out !! r = Some row -> length row = width.

(** The inputs that Split accepts. *)
Definition valid_split_input (secret : list Z) (parts threshold : Z) : Prop :=
  2 <= threshold <= parts /\ parts <= 255 /\ secret <> [].

End ShamirVocabulary.

Section LedgerVocabulary.
Import types badger database.
Context `{Platform} `{Backend} `{JSON FullSignedBlock}.

(** The values of a [uint64]. *)
Definition is_uint64 (z : Z) : Prop := 0 <= z < 2 ^ 64.

(** The three keys under which a block is written. *)
Definition hash_key (hash : string) : list byte :=
  HashKeyPrefix :: list_byte_of_string hash.
Definition timestamp_key (timestamp : Z) : list byte :=
  TimestampKeyPrefix :: PutUint64 timestamp.
Definition height_key (height : Z) : list byte :=
  HeightKeyPrefix :: PutUint64 height.

Definition not_found : error := Some "Key not found"%string.

(** The two steps of a lookup through an index: the index entry gives the
    hash, the primary entry of this hash gives the block. *)
Definition through_index (db : gmap (list byte) (list byte)) (key : list byte)
  : FullSignedBlock * error :=
  match db !! key with
  | None => (zero_block, not_found)
  | Some hashBytes =>
      match db !! hash_key (string_of_list_byte hashBytes) with
      | None => (zero_block, not_found)
      | Some bytes => json_Unmarshal bytes zero_block
      end
  end.

(** The three writes of StoreBlock, in the order of the source. *)
Definition block_writes (block : FullSignedBlock)
  : list (list byte * list byte) :=
  [ (hash_key (Hash block), marshal_bytes (json_Marshal block));
    (timestamp_key (Timestamp block), list_byte_of_string (Hash block));
    (height_key (Height block), list_byte_of_string (Hash block)) ].

(** Storing a sequence of blocks, one StoreBlock after the other, whatever
    each call returns. *)
Definition StoreBlocks (s : Store) (blocks : list FullSignedBlock) : Store :=
  foldl (fun s block => fst (StoreBlock s block)) s blocks.

(** The three entries of a block are in the database. *)
Definition indexed (db : gmap (list byte) (list byte)) (block : FullSignedBlock)
  : Prop :=
  db !! hash_key (Hash block) = Some (marshal_bytes (json_Marshal block)) /\
  db !! timestamp_key (Timestamp block) = Some (list_byte_of_string (Hash block)) /\
  db !! height_key (Height block) = Some (list_byte_of_string (Hash block)).

(** A later block that shares neither hash, timestamp nor height. *)
Definition apart (block other : FullSignedBlock) : Prop :=
  is_uint64 (Timestamp other) /\ is_uint64 (Height other) /\
  Hash other <> Hash block /\
  Timestamp other <> Timestamp block /\
  Height other <> Height block.

(** The double hash in the words of the specification: the hex-encoded
    digest of the hex-encoded digest of the marker, a colon and the
    serialized object. *)
Definition double_hash (marker : string) (serialized : list byte) : string :=
  let salted := (marker ++ ":" ++ string_of_list_byte serialized)%string in
  let first := fmt_x (sha256_Sum256 (list_byte_of_string salted)) in
  fmt_x (sha256_Sum256 (list_byte_of_string first)).

(** The decimal digit of a number below ten. *)
Definition digit (n : Z) : ascii := ascii_of_nat (48 + Z.to_nat n).

Definition two_digits (n : Z) : string :=
  String (digit (n / 10)) (String (digit (n mod 10)) EmptyString).

End LedgerVocabulary.

(** ** Vocabulary of the further properties *)

Section StoreVocabulary.
Import types badger database.

(** The key of a value stored with StoreValue. *)
Definition fixed_key (key : string) : list byte :=
  FixedKeyPrefix :: list_byte_of_string key.

End StoreVocabulary.

Section ShamirClosedForms.
Import shamir.

(** The value of a polynomial, as the Horner loop of [evaluate] computes it
    from the highest coefficient down. *)
Fixpoint horner_value (cs : list Z) (x : Z) : Z :=
  match cs with
  | [] => 0
  | c :: rest =>
      match rest with
      | [] => c
      | _ :: _ => add (mult (horner_value rest x) x) c
      end
  end.

Definition poly_value (cs : list Z) (x : Z) : Z :=
  if x =? 0 then nth 0 cs 0 else horner_value cs x.

(** The x coordinate of the share of index [i]. *)
Definition x_coordinate (xCoordinates : list Z) (i : Z) : Z :=
  uint8 (uint8 (nth (Z.to_nat i) xCoordinates 0) + 1).

(** The coefficients of the polynomial of the secret byte [val] at position
    [k]: the byte, then the next [threshold - 1] bytes of the random tape. *)
Definition byte_polynomial (tape : list Z) (threshold : Z) (k : nat) (val : Z)
  : list Z :=
  val :: take (Z.to_nat (threshold - 1))
           (drop (k * Z.to_nat (threshold - 1)) tape).

(** The share of index [i]: the values of the polynomials of the secret
    bytes at its x coordinate, the x coordinate, and the first two
    coefficients of the last polynomial. *)
Definition expected_share (xCoordinates tape secret : list Z) (threshold : Z)
    (i : Z) : list Z :=
  imap (fun k val =>
          poly_value (byte_polynomial tape threshold k val)
            (x_coordinate xCoordinates i)) secret
  ++ [ x_coordinate xCoordinates i;
       default 0 (last secret);
       nth ((length secret - 1) * Z.to_nat (threshold - 1)) tape 0 ].

(** What the loop over the secret does to one row. *)
Definition upd_row (n idx : nat) (y c0 c1 : Z) (row : list Z) : list Z :=
  <[(n + 2)%nat := c1]> (<[(n + 1)%nat := c0]> (<[idx := y]> row)).

Fixpoint fill_row (x : Z) (d n : nat) (tape : list Z) (idx : nat)
    (vals : list Z) (row : list Z) : list Z :=
  match vals with
  | [] => row
  | val :: rest =>
      let cs := val :: take d tape in
      fill_row x d n (drop d tape) (S idx) rest
        (upd_row n idx (poly_value cs x) val (nth 0 tape 0) row)
  end.

(** The power of [x] with exponent [n], and the sum of the monomials
    [c_i * x^i] of the coefficients [cs], lowest first, with the operations
    of the source. *)
Fixpoint gpow (x : Z) (n : nat) : Z :=
  match n with
  | O => 1
  | S n => mult x (gpow x n)
  end.

Definition monomial_sum (cs : list Z) (x : Z) : Z :=
  foldr add 0 (imap (fun i c => mult c (gpow x i)) cs).

End ShamirClosedForms.

Section CombineClosedForms.
Import shamir.

(** The quotient that [div] returns, and zero where it panics. *)
Definition quotient (a b : Z) : Z :=
  match div a b with
  | Ok q => q
  | _ => 0
  end.

(** The Lagrange basis of the sample [xi] at [x]: the product, over the
    other samples [xj], of (x + xj) / (xi + xj). *)
Definition basis_value (xs : list Z) (x xi : Z) : Z :=
  foldl (fun basis xj =>
           if xj =? xi then basis
           else mult basis (quotient (add x xj) (add xi xj))) 1 xs.

(** The sums that the outer loop of [interpolatePolynomial] builds. *)
Definition lagrange_sum (xs : list Z) (x : Z) (samples : list (Z * Z))
    (result : Z) : Z :=
  foldl (fun result s => add result (mult (snd s) (basis_value xs x (fst s))))
    result samples.

Definition lagrange_value (xs ys : list Z) (x : Z) : Z :=
  lagrange_sum xs x (zip xs ys) 0.

(** The x coordinates that Combine reads from parts of length [len], and
    the bytes of the parts at one position. *)
Definition tags (len : nat) (parts : list (list Z)) : list Z :=
  map (fun part => nth (len - 3) part 0) parts.

Definition column (idx : nat) (parts : list (list Z)) : list Z :=
  map (fun part => nth idx part 0) parts.

(** What Combine returns for parts of length [len] with different tags. *)
Definition combined (len : nat) (parts : list (list Z)) : list Z :=
  map (fun idx => lagrange_value (tags len parts) (column idx parts) 0)
    (seq 0 (len - 1)).

End CombineClosedForms.

Section GaloisVocabulary.
Import shamir.

(** The values of a [uint8]. *)
Definition is_byte (z : Z) : Prop := 0 <= z < 256.

(** The power of the generator with exponent [i], and the exponent of a
    non-zero byte, from the two tables. *)
Definition gexp (i : Z) : Z := tbl expTable i.
Definition glog (a : Z) : Z := tbl logTable a mod 255.

(** Checks over all bytes and over all pairs of bytes. *)
Definition all_bytes (P : Z -> bool) : bool := forallb P (upto 256).
Definition all_byte_pairs (P : Z -> Z -> bool) : bool :=
  forallb (fun a => forallb (P a) (upto 256)) (upto 256).

Definition byteb (z : Z) : bool := (0 <=? z) && (z <? 256).

End GaloisVocabulary.

(** The field GF(2^8) on the type of bytes: the operations of the source,
    between the conversions from and to the integers of the model. *)
Section FieldVocabulary.
Import shamir.

Definition to_Z (a : byte) : Z := Z.of_N (Byte.to_N a).

Definition of_Z (z : Z) : byte :=
  match Byte.of_N (Z.to_N (z mod 256)) with
  | Some b => b
  | None => x00
  end.

Definition fadd (a b : byte) : byte := of_Z (add (to_Z a) (to_Z b)).
Definition fmul (a b : byte) : byte := of_Z (mult (to_Z a) (to_Z b)).
Definition fdiv (a b : byte) : byte := of_Z (quotient (to_Z a) (to_Z b)).
Definition finv (a : byte) : byte := of_Z (quotient 1 (to_Z a)).
Definition fopp (a : byte) : byte := a.
Definition fsub (a b : byte) : byte := fadd a (fopp b).

(** The value of the polynomial with coefficients [cs], lowest first. *)
Definition evalF (cs : list byte) (x : byte) : byte :=
  foldr (fun c acc => fadd c (fmul x acc)) x00 cs.

(** For a point [x] among the points [T]: the product of the other points,
    and the product of the differences to the other points. *)
Definition numF (T : list byte) (x : byte) : byte :=
  foldr (fun y acc => if decide (y = x) then acc else fmul y acc) x01 T.

Definition denF (T : list byte) (x : byte) : byte :=
  foldr (fun y acc => if decide (y = x) then acc else fmul (fadd x y) acc) x01 T.

(** The divided difference of [f] on the points [T], summed over the
    points [U]; and the Lagrange sum at zero. *)
Definition Dsum (T U : list byte) (f : byte -> byte) : byte :=
  foldr (fun x acc => fadd (fdiv (f x) (denF T x)) acc) x00 U.

Definition Lsum (T U : list byte) (f : byte -> byte) : byte :=
  foldr (fun x acc => fadd (fmul (f x) (fdiv (numF T x) (denF T x))) acc) x00 U.

(** The running product of the inner loop of the interpolation at zero. *)
Definition basisF (T : list byte) (xi : byte) (basis : byte) : byte :=
  foldl (fun basis xj =>
           if decide (xj = xi) then basis
           else fmul basis (fdiv (fadd x00 xj) (fadd xi xj))) basis T.

End FieldVocabulary.

(** * Properties *)

(** ** The model on small inputs *)

Section Examples.
Import shamir types database.

Example mult_3_7 : mult 3 7 = 9.
Proof. reflexivity. Qed.

Example mult_by_zero : mult 0 200 = 0 /\ mult 200 0 = 0.
Proof. split; reflexivity. Qed.

Example div_9_3 : div 9 3 = Ok 7.
Proof. reflexivity. Qed.

Example div_by_zero : div 9 0 = Panic "divide by zero".
Proof. reflexivity. Qed.

Example evaluate_line : evaluate {| coefficients := [42; 7] |} 2 = Ok 36.
Proof. reflexivity. Qed.

Example interpolate_line : interpolatePolynomial [1; 2] [45; 36] 0 = Ok 42.
Proof. reflexivity. Qed.

Example Split_without_random_bytes :
  Split (upto 255) [7] [42; 17] 3 2 = Err "failed to generate polynomial".
Proof. reflexivity. Qed.

Example Combine_short_parts : Combine [[1; 2]; [3; 4]] = Panic "index out of range".
Proof. reflexivity. Qed.

Example Combine_duplicate_parts :
  Combine [[45; 1; 42; 7]; [45; 1; 42; 7]] = Err "duplicate part detected".
Proof. reflexivity. Qed.

Example fmt_02d_examples :
  fmt_02d 0 = "00"%string /\ fmt_02d 5 = "05"%string /\ fmt_02d 59 = "59"%string.
Proof. repeat split; reflexivity. Qed.

Example fmt_x_example : fmt_x [x00; xff; x1a] = "00ff1a"%string.
Proof. reflexivity. Qed.

Example PutUint64_1567 :
  PutUint64 1567 = [x1f; x06; x00; x00; x00; x00; x00; x00].
Proof. reflexivity. Qed.

Example int64_wraps : int64 (2 ^ 64 - 1) = -1.
Proof. reflexivity. Qed.

End Examples.

(** ** Slices *)

Section Slices.
Context {A : Type}.
Implicit Types (l : list A).

Lemma in_range_true l i :
  in_range l i = true <-> 0 <= i < Z.of_nat (length l).
Proof. unfold in_range. rewrite andb_true_iff, Z.leb_le, Z.ltb_lt. tauto. Qed.

Lemma in_range_nat l i :
  0 <= i < Z.of_nat (length l) -> (Z.to_nat i < length l)%nat.
Proof. lia. Qed.

Lemma index_Ok l i x :
  index l i = Ok x <-> 0 <= i < Z.of_nat (length l) /\ l !! Z.to_nat i = Some x.
Proof.
  unfold index. destruct (in_range l i) eqn:E.
  - apply in_range_true in E. destruct (l !! Z.to_nat i) eqn:L.
    + split; [intros [= ->]; auto | intros [_ [= ->]]; auto].
    + split; [discriminate | intros [_ ?]; discriminate].
  - split; [discriminate |].
    intros [Hr _]. apply in_range_true in Hr. congruence.
Qed.

Lemma index_in_range l i :
  0 <= i < Z.of_nat (length l) -> exists x, index l i = Ok x.
Proof.
  intros Hr. destruct (lookup_lt_is_Some_2 l (Z.to_nat i)) as [x Hx]; [lia |].
  exists x. apply index_Ok. auto.
Qed.

Lemma assign_Ok l i x l' :
  assign l i x = Ok l' <->
  0 <= i < Z.of_nat (length l) /\ l' = <[Z.to_nat i := x]> l.
Proof.
  unfold assign. destruct (in_range l i) eqn:E.
  - apply in_range_true in E. split; [intros [= <-]; auto | intros [_ ->]; auto].
  - split; [discriminate |].
    intros [Hr _]. apply in_range_true in Hr. congruence.
Qed.

Lemma assign_in_range l i x :
  0 <= i < Z.of_nat (length l) -> assign l i x = Ok (<[Z.to_nat i := x]> l).
Proof. intros Hr. apply assign_Ok. auto. Qed.

Lemma make_Ok (zero : A) n : 0 <= n -> make zero n = Ok (replicate (Z.to_nat n) zero).
Proof. intros Hn. unfold make. destruct (n <? 0) eqn:E; [lia | done]. Qed.

End Slices.

Lemma assign2_in_range {A : Type} (out : list (list A)) i j x row :
  0 <= i -> out !! Z.to_nat i = Some row ->
  0 <= j < Z.of_nat (length row) ->
  assign2 out i j x = Ok (<[Z.to_nat i := <[Z.to_nat j := x]> row]> out).
Proof.
  intros Hi Hrow Hj. unfold assign2.
  assert (Hlt : (Z.to_nat i < length out)%nat) by (eapply lookup_lt_Some; eauto).
  assert (Hidx : index out i = Ok row) by (apply index_Ok; split; [lia | done]).
  rewrite Hidx. simpl. rewrite (assign_in_range row j x Hj). simpl.
  apply assign_in_range. lia.
Qed.

Lemma elem_of_upto n i : i ∈ upto n <-> 0 <= i < n.
Proof.
  unfold upto. rewrite list_elem_of_fmap. split.
  - intros (k & -> & Hk). apply elem_of_seq in Hk. lia.
  - intros Hi. exists (Z.to_nat i). split; [lia |]. apply elem_of_seq. lia.
Qed.

Lemma length_upto n : length (upto n) = Z.to_nat n.
Proof. unfold upto. by rewrite length_map, length_seq. Qed.

(** ** Shamir: evaluation and polynomial construction *)

Section ShamirBasics.
Import shamir.

Lemma horner_total coeffs x idxs out :
  (forall i, i ∈ idxs -> 0 <= i < Z.of_nat (length coeffs)) ->
  exists y, horner coeffs x idxs out = Ok y.
Proof.
  revert out. induction idxs as [|i rest IH]; intros out Hin; simpl.
  - eauto.
  - destruct (index_in_range coeffs i) as [c Hc].
    { apply Hin. left. }
    rewrite Hc. simpl. apply IH. intros j Hj. apply Hin. by right.
Qed.

Lemma evaluate_total p x :
  coefficients p <> [] -> exists y, evaluate p x = Ok y.
Proof.
  intros Hne. unfold evaluate.
  assert (Hlen : (0 < length (coefficients p))%nat).
  { destruct (coefficients p); [done | simpl; lia]. }
  destruct (x =? 0).
  - apply index_in_range. lia.
  - destruct (index_in_range (coefficients p) (Z.of_nat (length (coefficients p)) - 1))
      as [c Hc]; [lia |].
    rewrite Hc. simpl. apply horner_total.
    intros i Hi. apply elem_of_reverse, elem_of_upto in Hi. lia.
Qed.

Lemma makePolynomial_Ok tape intercept degree :
  0 <= degree <= 254 ->
  (Z.to_nat degree <= length tape)%nat ->
  makePolynomial tape intercept degree =
    Ok ({| coefficients := intercept :: take (Z.to_nat degree) tape |},
        drop (Z.to_nat degree) tape).
Proof.
  intros Hd Htape. unfold makePolynomial, uint8.
  rewrite Z.mod_small by lia. rewrite make_Ok by lia. simpl.
  replace (Z.to_nat (degree + 1)) with (S (Z.to_nat degree)) by lia.
  rewrite assign_in_range by (simpl; lia). simpl.
  rewrite length_replicate, Nat.sub_0_r. unfold rand_Read.
  destruct (Nat.leb_spec (Z.to_nat degree) (length tape)) as [_|]; [| lia].
  done.
Qed.

Lemma makePolynomial_short tape intercept degree :
  0 <= degree <= 254 ->
  (length tape < Z.to_nat degree)%nat ->
  makePolynomial tape intercept degree = Err "failed to generate polynomial".
Proof.
  intros Hd Htape. unfold makePolynomial, uint8.
  rewrite Z.mod_small by lia. rewrite make_Ok by lia. simpl.
  replace (Z.to_nat (degree + 1)) with (S (Z.to_nat degree)) by lia.
  rewrite assign_in_range by (simpl; lia). simpl.
  rewrite length_replicate, Nat.sub_0_r. unfold rand_Read.
  destruct (Nat.leb_spec (Z.to_nat degree) (length tape)); [lia | done].
Qed.

End ShamirBasics.

(** ** Shamir: the loops of Split *)

Section SplitLoops.
Import shamir.

Lemma shape_insert rows width out r row :
  shape rows width out -> length row = width ->
  shape rows width (<[r := row]> out).
Proof.
  intros [Hl Hw] Hrow. split; [by rewrite length_insert |].
  intros r' row' Hr'. destruct (decide (r = r')) as [<- | Hne].
  - destruct (decide (r < length out)%nat) as [Hlt | Hge].
    + rewrite list_lookup_insert_eq in Hr' by done. congruence.
    + rewrite list_insert_ge in Hr' by lia. eauto.
  - rewrite list_lookup_insert_ne in Hr' by done. eauto.
Qed.

(** One pass of the loop over the parts: the row of part [i] receives the
    value of the polynomial at its x coordinate, and two coefficients. *)
Lemma part_loop_cons xC p n idx i rest out row c0 c1 cs :
  coefficients p = c0 :: c1 :: cs ->
  0 <= i < Z.of_nat (length xC) ->
  out !! Z.to_nat i = Some row ->
  0 <= idx < n -> Z.of_nat (length row) = n + 3 ->
  exists y,
    part_loop xC p n idx (i :: rest) out =
    part_loop xC p n idx rest
      (<[Z.to_nat i :=
           <[Z.to_nat (n + 2) := c1]>
             (<[Z.to_nat (n + 1) := c0]> (<[Z.to_nat idx := y]> row))]> out).
Proof.
  intros Hp Hi Hrow Hidx Hlen. simpl.
  destruct (index_in_range xC i Hi) as [xc Hxc]. rewrite Hxc. simpl.
  destruct (evaluate_total p (uint8 (uint8 xc + 1))) as [y Hy].
  { rewrite Hp. done. }
  rewrite Hy. simpl. exists y.
  assert (Hlt : (Z.to_nat i < length out)%nat) by (eapply lookup_lt_Some; eauto).
  rewrite (assign2_in_range out i idx y row); [ | lia | done | lia ]. simpl.
  assert (H0 : index (coefficients p) 0 = Ok c0).
  { rewrite Hp. apply index_Ok. simpl. split; [lia | done]. }
  assert (H1 : index (coefficients p) 1 = Ok c1).
  { rewrite Hp. apply index_Ok. simpl. split; [lia | done]. }
  rewrite H0. simpl.
  erewrite assign2_in_range;
    [ | lia | by apply list_lookup_insert_eq | rewrite length_insert; lia ].
  simpl. rewrite H1. simpl.
  erewrite assign2_in_range;
    [ | lia | by apply list_lookup_insert_eq; rewrite length_insert
      | rewrite !length_insert; lia ].
  simpl. by rewrite !list_insert_insert_eq.
Qed.

Lemma part_loop_spec xC p n idx rows c0 c1 cs idxs :
  coefficients p = c0 :: c1 :: cs ->
  0 <= idx < n ->
  (forall i, i ∈ idxs -> 0 <= i < Z.of_nat (length xC) /\ i < Z.of_nat rows) ->
  forall out, shape rows (Z.to_nat (n + 3)) out ->
  exists out',
    part_loop xC p n idx idxs out = Ok out' /\
    shape rows (Z.to_nat (n + 3)) out' /\
    (forall i, i ∈ idxs -> exists row,
       out' !! Z.to_nat i = Some row /\
       row !! Z.to_nat (n + 1) = Some c0 /\
       row !! Z.to_nat (n + 2) = Some c1) /\
    (forall r, (forall i, i ∈ idxs -> Z.to_nat i <> r) -> out' !! r = out !! r).
Proof.
  intros Hp Hidx. induction idxs as [|i rest IH]; intros Hin out Hshape.
  - exists out. simpl. split_and!; auto. intros i Hi. by apply elem_of_nil in Hi.
  - destruct (Hin i) as [Hi Hrows]; [left |].
    destruct Hshape as [Hl Hw].
    destruct (lookup_lt_is_Some_2 out (Z.to_nat i)) as [row Hrow]; [lia |].
    pose proof (Hw _ _ Hrow) as Hlen.
    destruct (part_loop_cons xC p n idx i rest out row c0 c1 cs)
      as [y Hstep]; auto; [lia |].
    rewrite Hstep. clear Hstep.
    set (row' := <[Z.to_nat (n + 2) := c1]> _).
    assert (Hlen' : length row' = Z.to_nat (n + 3)).
    { unfold row'. by rewrite !length_insert. }
    destruct (IH (fun j Hj => Hin j (list_elem_of_further _ _ _ Hj))
                 (<[Z.to_nat i := row']> out))
      as (out' & Hrun & Hshape' & Hset & Hkeep).
    { by apply shape_insert. }
    exists out'. split_and!; auto.
    + intros j Hj. apply elem_of_cons in Hj as [-> | Hj]; [| by apply Hset].
      destruct (decide (i ∈ rest)) as [Hi' | Hi']; [by apply Hset |].
      exists row'. split_and!.
      * rewrite Hkeep.
        -- apply list_lookup_insert_eq. lia.
        -- intros k Hk Heq. apply Hi'.
           assert (k = i); [| by subst].
           destruct (Hin k) as [? _]; [by right | lia].
      * unfold row'. rewrite list_lookup_insert_ne by lia.
        apply list_lookup_insert_eq. rewrite length_insert. lia.
      * unfold row'. apply list_lookup_insert_eq. rewrite !length_insert. lia.
    + intros r Hr. rewrite Hkeep.
      * apply list_lookup_insert_ne. apply Hr. left.
      * intros k Hk. apply Hr. by right.
Qed.

Lemma alloc_loop_spec xC n rows idxs :
  0 <= n ->
  (forall i, i ∈ idxs -> 0 <= i < Z.of_nat (length xC) /\ i < Z.of_nat rows) ->
  forall out, length out = rows ->
  exists out',
    alloc_loop xC n idxs out = Ok out' /\
    length out' = rows /\
    (forall i, i ∈ idxs -> exists row,
       out' !! Z.to_nat i = Some row /\ length row = Z.to_nat (n + 3)) /\
    (forall r, (forall i, i ∈ idxs -> Z.to_nat i <> r) -> out' !! r = out !! r).
Proof.
  intros Hn. induction idxs as [|i rest IH]; intros Hin out Hl.
  - exists out. simpl. split_and!; auto. intros i Hi. by apply elem_of_nil in Hi.
  - destruct (Hin i) as [Hi Hrows]; [left |]. simpl.
    rewrite make_Ok by lia. simpl.
    rewrite assign_in_range by lia. simpl.
    destruct (index_in_range xC i Hi) as [xc Hxc]. rewrite Hxc. simpl.
    erewrite assign2_in_range;
      [ | lia | apply list_lookup_insert_eq; lia | rewrite length_replicate; lia ].
    simpl. rewrite list_insert_insert_eq.
    set (row' := <[Z.to_nat n := _]> _).
    assert (Hlen' : length row' = Z.to_nat (n + 3)).
    { unfold row'. by rewrite length_insert, length_replicate. }
    destruct (IH (fun j Hj => Hin j (list_elem_of_further _ _ _ Hj))
                 (<[Z.to_nat i := row']> out))
      as (out' & Hrun & Hl' & Hset & Hkeep).
    { by rewrite length_insert. }
    exists out'. split_and!; auto.
    + intros j Hj. apply elem_of_cons in Hj as [-> | Hj]; [| by apply Hset].
      destruct (decide (i ∈ rest)) as [Hi' | Hi']; [by apply Hset |].
      exists row'. split; [| done]. rewrite Hkeep.
      * apply list_lookup_insert_eq. lia.
      * intros k Hk Heq. apply Hi'.
        assert (k = i); [| by subst].
        destruct (Hin k) as [? _]; [by right | lia].
    + intros r Hr. rewrite Hkeep.
      * apply list_lookup_insert_ne. apply Hr. left.
      * intros k Hk. apply Hr. by right.
Qed.

(** The loop over the secret, with enough random bytes on the tape: it ends
    normally, and the last pass decides the two bytes after the x
    coordinate of every share. *)
Lemma secret_loop_spec xC parts threshold n vals :
  Z.of_nat (length xC) >= parts -> 0 <= parts ->
  2 <= threshold <= 255 ->
  forall tape idx out,
  shape (Z.to_nat parts) (Z.to_nat (n + 3)) out ->
  0 <= idx -> idx + Z.of_nat (length vals) = n ->
  (length vals * Z.to_nat (threshold - 1) <= length tape)%nat ->
  exists out',
    secret_loop xC parts threshold n tape idx vals out = Ok out' /\
    shape (Z.to_nat parts) (Z.to_nat (n + 3)) out' /\
    (vals <> [] -> forall i, 0 <= i < parts -> exists row,
       out' !! Z.to_nat i = Some row /\
       row !! Z.to_nat (n + 1) = last vals /\
       row !! Z.to_nat (n + 2) =
         tape !! ((length vals - 1) * Z.to_nat (threshold - 1))%nat).
Proof.
  intros HxC Hparts Ht. induction vals as [|val rest IH];
    intros tape idx out Hshape Hidx Hn Htape.
  - exists out. simpl. split_and!; auto. done.
  - simpl in Hn, Htape. simpl.
    assert (Hu : uint8 (threshold - 1) = threshold - 1).
    { unfold uint8. apply Z.mod_small. lia. }
    rewrite Hu, makePolynomial_Ok by lia. simpl.
    destruct (take (Z.to_nat (threshold - 1)) tape) as [|c1 cs] eqn:Htake.
    { apply (f_equal length) in Htake. rewrite length_take in Htake.
      simpl in Htake. lia. }
    assert (Hc1 : tape !! 0%nat = Some c1).
    { rewrite <- (lookup_take_lt tape (Z.to_nat (threshold - 1)) 0) by lia.
      by rewrite Htake. }
    destruct (part_loop_spec xC
                {| coefficients := val :: c1 :: cs |} n idx (Z.to_nat parts)
                val c1 cs (upto parts)) with (out := out)
      as (out1 & Hrun1 & Hshape1 & Hset1 & _); auto; [lia | |].
    { intros i Hi. apply elem_of_upto in Hi. lia. }
    rewrite Hrun1. simpl.
    destruct (IH (drop (Z.to_nat (threshold - 1)) tape) (idx + 1) out1)
      as (out' & Hrun & Hshape' & Hlast); auto; [lia | lia | |].
    { rewrite length_drop. nia. }
    exists out'. split_and!; auto.
    intros _ i Hi. destruct rest as [|val' rest'].
    + simpl in Hrun. injection Hrun as <-.
      destruct (Hset1 i) as (row & Hrow & H1 & H2); [by apply elem_of_upto |].
      exists row. split_and!; [done | by rewrite H1 | by rewrite H2].
    + destruct (Hlast ltac:(done) i Hi) as (row & Hrow & H1 & H2).
      exists row. split_and!; auto.
      rewrite H2, lookup_drop. f_equal. simpl. lia.
Qed.

(** With too few random bytes the loop returns the error of the source. *)
Lemma secret_loop_short xC parts threshold n vals :
  Z.of_nat (length xC) >= parts -> 0 <= parts ->
  2 <= threshold <= 255 ->
  forall tape idx out,
  shape (Z.to_nat parts) (Z.to_nat (n + 3)) out ->
  0 <= idx -> idx + Z.of_nat (length vals) = n ->
  (length tape < length vals * Z.to_nat (threshold - 1))%nat ->
  secret_loop xC parts threshold n tape idx vals out =
    Err "failed to generate polynomial".
Proof.
  intros HxC Hparts Ht. induction vals as [|val rest IH];
    intros tape idx out Hshape Hidx Hn Htape.
  - simpl in Htape. lia.
  - simpl in Hn, Htape. simpl.
    assert (Hu : uint8 (threshold - 1) = threshold - 1).
    { unfold uint8. apply Z.mod_small. lia. }
    rewrite Hu.
    destruct (decide (length tape < Z.to_nat (threshold - 1))%nat) as [Hs | Hs].
    { by rewrite makePolynomial_short by lia. }
    rewrite makePolynomial_Ok by lia. simpl.
    destruct (take (Z.to_nat (threshold - 1)) tape) as [|c1 cs] eqn:Htake.
    { apply (f_equal length) in Htake. rewrite length_take in Htake.
      simpl in Htake. lia. }
    destruct (part_loop_spec xC
                {| coefficients := val :: c1 :: cs |} n idx (Z.to_nat parts)
                val c1 cs (upto parts)) with (out := out)
      as (out1 & Hrun1 & Hshape1 & _); auto; [lia | |].
    { intros i Hi. apply elem_of_upto in Hi. lia. }
    rewrite Hrun1. simpl. apply IH; auto; [lia | lia |].
    rewrite length_drop. nia.
Qed.

End SplitLoops.

(** ** Shamir: Split *)

Section SplitFacts.
Import shamir.

Lemma Split_invalid xC tape secret parts threshold :
  parts < threshold \/ parts > 255 \/ threshold < 2 \/ threshold > 255 \/
    secret = [] ->
  exists msg, Split xC tape secret parts threshold = Err msg.
Proof.
  intros Hbad. unfold Split.
  destruct (Z.ltb_spec parts threshold); [eauto |].
  destruct (Z.gtb_spec parts 255); [eauto |].
  destruct (Z.ltb_spec threshold 2); [eauto |].
  destruct (Z.gtb_spec threshold 255); [eauto |].
  destruct (Z.eqb_spec (Z.of_nat (length secret)) 0) as [|Hne]; [eauto |].
  exfalso. destruct Hbad as [? | [? | [? | [? | ->]]]]; try lia. by apply Hne.
Qed.

(** On accepted inputs Split allocates the shares and runs the loop over
    the secret. *)
Lemma Split_valid xC tape secret parts threshold :
  valid_split_input secret parts threshold ->
  parts <= Z.of_nat (length xC) ->
  exists out0,
    shape (Z.to_nat parts) (Z.to_nat (Z.of_nat (length secret) + 3)) out0 /\
    Split xC tape secret parts threshold =
      secret_loop xC parts threshold (Z.of_nat (length secret)) tape 0 secret out0.
Proof.
  intros (Ht & Hp & Hs) HxC. unfold Split.
  destruct (Z.ltb_spec parts threshold); [lia |].
  destruct (Z.gtb_spec parts 255); [lia |].
  destruct (Z.ltb_spec threshold 2); [lia |].
  destruct (Z.gtb_spec threshold 255); [lia |].
  destruct (Z.eqb_spec (Z.of_nat (length secret)) 0) as [Hz|Hne].
  { destruct secret; [done | simpl in Hz; lia]. }
  rewrite make_Ok by lia. simpl. rewrite length_replicate.
  destruct (alloc_loop_spec xC (Z.of_nat (length secret)) (Z.to_nat parts)
              (upto (Z.of_nat (Z.to_nat parts)))) with
      (out := replicate (Z.to_nat parts) ([] : list Z))
    as (out0 & Hrun & Hl & Hset & _).
  - lia.
  - intros i Hi. apply elem_of_upto in Hi. lia.
  - by rewrite length_replicate.
  - rewrite Hrun. simpl. exists out0. split; [| done]. split; [done |].
    intros r row Hr.
    assert (Hlt : (r < Z.to_nat parts)%nat).
    { rewrite <- Hl. eapply lookup_lt_Some; eauto. }
    destruct (Hset (Z.of_nat r)) as (row' & Hrow' & Hlen).
    { apply elem_of_upto. lia. }
    rewrite Nat2Z.id in Hrow'. congruence.
Qed.

(** What a successful Split tells: the input was accepted, the random tape
    was long enough, and the shares have the shape and the two trailing
    bytes that the last pass of the loop over the secret leaves. *)
Lemma Split_Ok_inv xC tape secret parts threshold shares :
  length xC = 255%nat ->
  Split xC tape secret parts threshold = Ok shares ->
  valid_split_input secret parts threshold /\
  (length secret * Z.to_nat (threshold - 1) <= length tape)%nat /\
  shape (Z.to_nat parts) (Z.to_nat (Z.of_nat (length secret) + 3)) shares /\
  (forall i, 0 <= i < parts -> exists row,
     shares !! Z.to_nat i = Some row /\
     row !! Z.to_nat (Z.of_nat (length secret) + 1) = last secret /\
     row !! Z.to_nat (Z.of_nat (length secret) + 2) =
       tape !! ((length secret - 1) * Z.to_nat (threshold - 1))%nat).
Proof.
  intros HxC Hok.
  assert (Hvalid : valid_split_input secret parts threshold).
  { unfold valid_split_input.
    destruct (decide (parts < threshold \/ parts > 255 \/ threshold < 2 \/
                      threshold > 255 \/ secret = [])) as [Hbad | Hgood].
    - destruct (Split_invalid xC tape secret parts threshold Hbad) as [msg Hm].
      congruence.
    - split_and!; try lia. intros ->. apply Hgood. auto 10. }
  split; [done |].
  destruct (Split_valid xC tape secret parts threshold Hvalid) as (out0 & Hshape & Heq).
  { destruct Hvalid as (? & ? & ?). lia. }
  destruct Hvalid as (Ht & Hp & Hs).
  rewrite Heq in Hok.
  destruct (decide (length secret * Z.to_nat (threshold - 1) <= length tape)%nat)
    as [Hlong | Hshort].
  - destruct (secret_loop_spec xC parts threshold (Z.of_nat (length secret)) secret)
      with (tape := tape) (idx := 0) (out := out0)
      as (out' & Hrun & Hshape' & Hlast); auto; try lia.
    rewrite Hrun in Hok. injection Hok as <-. auto.
  - rewrite secret_loop_short in Hok; auto; try lia. discriminate.
Qed.

(** On an accepted input, with the permutation of the 255 x coordinates and
    enough random bytes, Split returns [parts] shares. *)
Lemma Split_succeeds xC tape secret parts threshold :
  valid_split_input secret parts threshold ->
  length xC = 255%nat ->
  (length secret * Z.to_nat (threshold - 1) <= length tape)%nat ->
  exists shares,
    Split xC tape secret parts threshold = Ok shares /\
    Z.of_nat (length shares) = parts.
Proof.
  intros Hvalid HxC Htape.
  destruct (Split_valid xC tape secret parts threshold Hvalid) as (out0 & Hshape & Heq).
  { destruct Hvalid as (? & ? & ?). lia. }
  destruct Hvalid as (Ht & Hp & Hs).
  destruct (secret_loop_spec xC parts threshold (Z.of_nat (length secret)) secret)
    with (tape := tape) (idx := 0) (out := out0)
    as (out' & Hrun & [Hl Hw] & _); auto; try lia.
  exists out'. rewrite Heq. split; [done | lia].
Qed.

(** Every share of a successful Split is three bytes longer than the
    secret. *)
Lemma Split_share_length xC tape secret parts threshold shares :
  length xC = 255%nat ->
  Split xC tape secret parts threshold = Ok shares ->
  Z.of_nat (length shares) = parts /\
  forall share, share ∈ shares ->
    Z.of_nat (length share) = Z.of_nat (length secret) + 3.
Proof.
  intros HxC Hok.
  destruct (Split_Ok_inv _ _ _ _ _ _ HxC Hok) as ((Ht & Hp & Hs) & _ & [Hl Hw] & _).
  split; [lia |].
  intros share Hin. apply list_elem_of_lookup in Hin as [r Hr].
  rewrite (Hw _ _ Hr). lia.
Qed.

End SplitFacts.

(** ** Shamir: Combine *)

Section CombineFacts.
Import shamir.

Lemma obind_Ok {A B : Type} (m : outcome A) (k : A -> outcome B) b :
  obind m k = Ok b -> exists a, m = Ok a /\ k a = Ok b.
Proof. destruct m; simpl; [eauto | discriminate | discriminate]. Qed.

Lemma reconstruct_loop_length parts xSamples idxs :
  forall ySamples secret s,
  reconstruct_loop parts xSamples idxs ySamples secret = Ok s ->
  length s = length secret.
Proof.
  induction idxs as [|idx rest IH]; intros ySamples secret s Hrun; simpl in Hrun.
  - by injection Hrun as <-.
  - apply obind_Ok in Hrun as (ys & _ & Hrun).
    apply obind_Ok in Hrun as (val & _ & Hrun).
    apply obind_Ok in Hrun as (secret' & Hassign & Hrun).
    apply assign_Ok in Hassign as [_ ->].
    apply IH in Hrun. by rewrite Hrun, length_insert.
Qed.

(** The secret that Combine returns is one byte shorter than the first
    part, whatever the parts are. *)
Lemma Combine_length parts s :
  Combine parts = Ok s ->
  exists part0,
    parts !! 0%nat = Some part0 /\
    Z.of_nat (length s) = Z.of_nat (length part0) - 1.
Proof.
  unfold Combine. intros Hrun.
  destruct (Z.of_nat (length parts) <? 2); [discriminate |].
  apply obind_Ok in Hrun as (part0 & Hpart0 & Hrun).
  apply index_Ok in Hpart0 as [_ Hpart0]. exists part0. split; [done |].
  destruct (Z.ltb_spec (Z.of_nat (length part0)) 2); [discriminate |].
  apply obind_Ok in Hrun as (_ & _ & Hrun).
  rewrite make_Ok in Hrun by lia. simpl in Hrun.
  rewrite make_Ok in Hrun by lia. simpl in Hrun.
  apply obind_Ok in Hrun as (xSamples & _ & Hrun).
  apply reconstruct_loop_length in Hrun.
  rewrite Hrun, length_replicate. lia.
Qed.

(** Combine applied to the shares of a Split never returns the secret: what
    it returns is two bytes longer. *)
Lemma Combine_Split_length xC tape secret parts threshold shares s :
  length xC = 255%nat ->
  Split xC tape secret parts threshold = Ok shares ->
  Combine shares = Ok s ->
  Z.of_nat (length s) = Z.of_nat (length secret) + 2.
Proof.
  intros HxC Hsplit Hcombine.
  destruct (Split_share_length _ _ _ _ _ _ HxC Hsplit) as [_ Hlen].
  destruct (Combine_length _ _ Hcombine) as (part0 & Hpart0 & Hs).
  rewrite Hs, (Hlen part0); [lia |].
  apply list_elem_of_lookup. eauto.
Qed.

End CombineFacts.

(** ** Shamir: the claims about Split and Combine *)

Section ShamirClaims.
Import shamir.

(** C7. Split returns an error exactly when the input violates the
    constraints (parts < threshold, parts > 255, threshold < 2,
    threshold > 255, or an empty secret); on every input with
    2 <= threshold <= parts <= 255 and a non-empty secret it returns [parts]
    shares and no error, provided the random source delivers the bytes of
    the coefficients. *)
Theorem Split_errors_exactly_on_invalid_input
    (xCoordinates tape secret : list Z) (parts threshold : Z) :
  length xCoordinates = 255%nat ->
  (length secret * Z.to_nat (threshold - 1) <= length tape)%nat ->
  ((exists msg, Split xCoordinates tape secret parts threshold = Err msg) <->
   (parts < threshold \/ parts > 255 \/ threshold < 2 \/ threshold > 255 \/
    secret = [])) /\
  (2 <= threshold <= parts -> parts <= 255 -> secret <> [] ->
   exists shares,
     Split xCoordinates tape secret parts threshold = Ok shares /\
     Z.of_nat (length shares) = parts).
Proof.
  intros HxC Htape. split.
  - split; [| apply Split_invalid].
    intros [msg Herr].
    destruct (decide (parts < threshold \/ parts > 255 \/ threshold < 2 \/
                      threshold > 255 \/ secret = [])) as [Hbad | Hgood]; [done |].
    assert (Hvalid : valid_split_input secret parts threshold).
    { unfold valid_split_input. split_and!; try lia.
      intros ->. apply Hgood. auto 10. }
    destruct (Split_succeeds xCoordinates tape secret parts threshold)
      as (shares & Hok & _); auto.
    congruence.
  - intros Ht Hp Hs. apply Split_succeeds; auto.
    unfold valid_split_input. auto.
Qed.

Lemma Split_errors_exactly_on_invalid_input_witness :
  exists shares,
    Split (upto 255) [7; 9; 11; 200] [42; 17] 3 2 = Ok shares /\
    Z.of_nat (length shares) = 3.
Proof.
  apply (proj2 (Split_errors_exactly_on_invalid_input (upto 255)
                  [7; 9; 11; 200] [42; 17] 3 2 eq_refl ltac:(simpl; lia)));
    [lia | lia | done].
Defined.

(** C5. After every successful Split, every share holds at offset
    len(secret)+1 the intercept of the polynomial of the last secret byte,
    which is the last byte of the secret, and at offset len(secret)+2 the
    second coefficient of that polynomial; the two bytes are the same in
    all shares, so one share alone gives away the last byte of the secret. *)
Theorem Split_shares_carry_last_polynomial
    (xCoordinates tape secret : list Z) (parts threshold : Z)
    (shares : list (list Z)) :
  length xCoordinates = 255%nat ->
  Split xCoordinates tape secret parts threshold = Ok shares ->
  exists (b c1 : Z) (p : polynomial) (tape' : list Z),
    last secret = Some b /\
    makePolynomial
      (drop ((length secret - 1) * Z.to_nat (threshold - 1)) tape)
      b (uint8 (threshold - 1)) = Ok (p, tape') /\
    coefficients p !! 0%nat = Some b /\
    coefficients p !! 1%nat = Some c1 /\
    forall share, share ∈ shares ->
      share !! (length secret + 1)%nat = Some b /\
      share !! (length secret + 2)%nat = Some c1.
Proof.
  intros HxC Hok.
  destruct (Split_Ok_inv _ _ _ _ _ _ HxC Hok)
    as ((Ht & Hp & Hs) & Htape & [Hl Hw] & Hrows).
  set (d := Z.to_nat (threshold - 1)) in *.
  set (k := ((length secret - 1) * d)%nat) in *.
  assert (Hn : (0 < length secret)%nat).
  { destruct secret; [done | simpl; lia]. }
  assert (Hd : (1 <= d)%nat) by (unfold d; lia).
  destruct (last secret) as [b|] eqn:Hb.
  2: { apply last_None in Hb. done. }
  destruct (lookup_lt_is_Some_2 tape k) as [c1 Hc1].
  { unfold k. nia. }
  assert (Hu : uint8 (threshold - 1) = threshold - 1).
  { unfold uint8. apply Z.mod_small. lia. }
  exists b, c1, {| coefficients := b :: take d (drop k tape) |}, (drop d (drop k tape)).
  split_and!.
  - done.
  - rewrite Hu. apply makePolynomial_Ok; [lia |].
    rewrite length_drop. fold d. unfold k. nia.
  - done.
  - simpl. rewrite lookup_take_lt by lia. rewrite lookup_drop.
    by rewrite Nat.add_0_r.
  - intros share Hin. apply list_elem_of_lookup in Hin as [r Hr].
    assert (Hlt : (r < Z.to_nat parts)%nat).
    { rewrite <- Hl. eapply lookup_lt_Some; eauto. }
    destruct (Hrows (Z.of_nat r)) as (row & Hrow & H1 & H2); [lia |].
    rewrite Nat2Z.id in Hrow. assert (row = share) as -> by congruence.
    replace (length secret + 1)%nat with (Z.to_nat (Z.of_nat (length secret) + 1)) by lia.
    replace (length secret + 2)%nat with (Z.to_nat (Z.of_nat (length secret) + 2)) by lia.
    rewrite H1, H2. by rewrite Hc1.
Qed.

Lemma Split_shares_carry_last_polynomial_witness :
  exists (b c1 : Z) (p : polynomial) (tape' : list Z),
    last [42; 17] = Some b /\
    makePolynomial (drop ((2 - 1) * Z.to_nat (2 - 1)) [7; 9; 11; 200])
      b (uint8 (2 - 1)) = Ok (p, tape') /\
    coefficients p !! 0%nat = Some b /\
    coefficients p !! 1%nat = Some c1 /\
    forall share,
      share ∈ [[45; 24; 1; 17; 9]; [36; 3; 2; 17; 9]; [35; 10; 3; 17; 9]] ->
      share !! (2 + 1)%nat = Some b /\ share !! (2 + 2)%nat = Some c1.
Proof.
  apply (Split_shares_carry_last_polynomial (upto 255) [7; 9; 11; 200]
           [42; 17] 3 2).
  - reflexivity.
  - vm_compute. reflexivity.
Defined.

(** C6, at a concrete input. The source declares ShareOverhead = 1 and
    documents shares one byte longer than the secret; the shares that Split
    returns for a secret of two bytes have five bytes, three more than the
    secret. *)
Theorem Split_share_overhead_is_three :
  Split (upto 255) [7; 9; 11; 200] [42; 17] 3 2 =
    Ok [[45; 24; 1; 17; 9]; [36; 3; 2; 17; 9]; [35; 10; 3; 17; 9]] /\
  Forall (fun share : list Z =>
            Z.of_nat (length share) = Z.of_nat (length [42; 17]) + 3 /\
            Z.of_nat (length share) <>
              Z.of_nat (length [42; 17]) + ShareOverhead)
    [[45; 24; 1; 17; 9]; [36; 3; 2; 17; 9]; [35; 10; 3; 17; 9]].
Proof.
  split; [vm_compute; reflexivity |].
  repeat constructor; unfold ShareOverhead; simpl; lia.
Qed.

(** C4, at a concrete input. Combine applied to all the shares of a Split,
    and to two of the three shares with threshold 2, returns the secret
    followed by two more bytes, not the secret. *)
Theorem Combine_Split_appends_two_bytes :
  exists shares,
    Split (upto 255) [7; 9; 11; 200] [42; 17] 3 2 = Ok shares /\
    Combine shares = Ok [42; 17; 0; 17] /\
    Combine (drop 1 shares) = Ok [42; 17; 0; 17] /\
    Combine shares <> Ok [42; 17].
Proof.
  eexists. split; [vm_compute; reflexivity |].
  split; [vm_compute; reflexivity |].
  split; [vm_compute; reflexivity |].
  vm_compute. discriminate.
Qed.

End ShamirClaims.

(** ** Ledger: the keys of the indices *)

Section Keys.
Import types badger database.

Lemma byte_of_Z_to_N z : Z.of_N (Byte.to_N (byte_of_Z z)) = z mod 256.
Proof.
  unfold byte_of_Z.
  assert (Hlt : 0 <= z mod 256 < 256) by (apply Z.mod_pos_bound; lia).
  destruct (Byte.of_N (Z.to_N (z mod 256))) as [b|] eqn:Hb.
  - apply Byte.to_of_N in Hb. rewrite Hb. lia.
  - apply Byte.of_N_None_iff in Hb. lia.
Qed.

Lemma PutUint64_length v : length (PutUint64 v) = 8%nat.
Proof. reflexivity. Qed.

(** The byte at position [i] is the [i]-th base-256 digit: the least
    significant byte comes first. *)
Lemma PutUint64_lookup v i :
  0 <= i < 8 ->
  exists b, PutUint64 v !! Z.to_nat i = Some b /\
            Z.of_N (Byte.to_N b) = (v / 256 ^ i) mod 256.
Proof.
  intros Hi. exists (byte_of_Z (Z.shiftr v (8 * i))). split.
  - unfold PutUint64, upto. rewrite list_lookup_fmap, list_lookup_fmap.
    rewrite lookup_seq_lt by (simpl; lia). simpl. do 3 f_equal. lia.
  - rewrite byte_of_Z_to_N, Z.shiftr_div_pow2 by lia.
    replace (2 ^ (8 * i)) with (256 ^ i); [done |].
    rewrite Z.pow_mul_r by lia. done.
Qed.

Lemma PutUint64_inj a b :
  is_uint64 a -> is_uint64 b -> PutUint64 a = PutUint64 b -> a = b.
Proof.
  unfold is_uint64. intros Ha Hb Heq.
  assert (Hd : forall i, 0 <= i < 8 ->
                 (a / 256 ^ i) mod 256 = (b / 256 ^ i) mod 256).
  { intros i Hi.
    destruct (PutUint64_lookup a i Hi) as (x & Hx & <-).
    destruct (PutUint64_lookup b i Hi) as (y & Hy & <-).
    rewrite Heq in Hx. congruence. }
  pose proof (Hd 0 ltac:(lia)) as H0. pose proof (Hd 1 ltac:(lia)) as H1.
  pose proof (Hd 2 ltac:(lia)) as H2. pose proof (Hd 3 ltac:(lia)) as H3.
  pose proof (Hd 4 ltac:(lia)) as H4. pose proof (Hd 5 ltac:(lia)) as H5.
  pose proof (Hd 6 ltac:(lia)) as H6. pose proof (Hd 7 ltac:(lia)) as H7.
  clear Hd Heq.
  change (2 ^ 64) with 18446744073709551616 in *.
  change (256 ^ 0) with 1 in *. change (256 ^ 1) with 256 in *.
  change (256 ^ 2) with 65536 in *. change (256 ^ 3) with 16777216 in *.
  change (256 ^ 4) with 4294967296 in *.
  change (256 ^ 5) with 1099511627776 in *.
  change (256 ^ 6) with 281474976710656 in *.
  change (256 ^ 7) with 72057594037927936 in *.
  Z.div_mod_to_equations. lia.
Qed.

Lemma list_byte_of_string_inj s1 s2 :
  list_byte_of_string s1 = list_byte_of_string s2 -> s1 = s2.
Proof.
  intros Heq. rewrite <- (string_of_list_byte_of_string s1),
    <- (string_of_list_byte_of_string s2). by rewrite Heq.
Qed.

End Keys.

(** ** Ledger: what the store operations compute *)

Section LedgerFacts.
Import types badger database.
Context `{Platform} `{Backend} `{JSON FullSignedBlock}.

Lemma Txn_Get_fresh (db : gmap (list byte) (list byte)) key :
  Txn_Get (NewTransaction db) key =
    match db !! key with
    | Some v => (v, None)
    | None => ([], not_found)
    end.
Proof. unfold Txn_Get. simpl. by rewrite lookup_empty. Qed.

Lemma GetBlock_unfold s hash :
  GetBlock s hash =
    match storHandler s !! hash_key hash with
    | Some bytes => json_Unmarshal bytes zero_block
    | None => (zero_block, not_found)
    end.
Proof.
  unfold GetBlock, DB_View, readStringIndex. rewrite Txn_Get_fresh.
  unfold hash_key. simpl. by destruct (storHandler s !! _).
Qed.

Lemma FindBlockByTimestamp_unfold s timestamp :
  FindBlockByTimestamp s timestamp =
    through_index (storHandler s) (timestamp_key timestamp).
Proof.
  unfold FindBlockByTimestamp, DB_View, readUIntIndex, readStringIndex, through_index.
  rewrite !Txn_Get_fresh. unfold timestamp_key, hash_key. simpl.
  destruct (storHandler s !! _) as [hb|]; [| done].
  rewrite Txn_Get_fresh. by destruct (storHandler s !! _).
Qed.

Lemma FindBlockByHeight_unfold s height :
  FindBlockByHeight s height =
    through_index (storHandler s) (height_key height).
Proof.
  unfold FindBlockByHeight, DB_View, readUIntIndex, readStringIndex, through_index.
  rewrite !Txn_Get_fresh. unfold height_key, hash_key. simpl.
  destruct (storHandler s !! _) as [hb|]; [| done].
  rewrite Txn_Get_fresh. by destruct (storHandler s !! _).
Qed.

Lemma set_storHandler_same s : set_storHandler (storHandler s) s = s.
Proof. by destruct s. Qed.

(** StoreBlock either fails and leaves the store as it was, or writes the
    three entries. *)
Lemma StoreBlock_cases s block :
  (exists e, StoreBlock s block = (s, Some e) /\
     ((exists k v, (k, v) ∈ block_writes block /\ Set_check k v = Some e) \/
      exists pending, Commit_check pending = Some e)) \/
  ((forall k v, (k, v) ∈ block_writes block -> Set_check k v = None) /\
   StoreBlock s block =
     (set_storHandler
        (<[height_key (Height block) := list_byte_of_string (Hash block)]>
           (<[timestamp_key (Timestamp block) := list_byte_of_string (Hash block)]>
              (<[hash_key (Hash block) := marshal_bytes (json_Marshal block)]>
                 (storHandler s)))) s, None)).
Proof.
  unfold StoreBlock, DB_Update, storeStringIndex, storeUIntIndex, Txn_Set.
  simpl. fold (hash_key (Hash block)) (timestamp_key (Timestamp block))
    (height_key (Height block)).
  destruct (Set_check (hash_key (Hash block)) _) as [e|] eqn:E1.
  { left. exists e. rewrite set_storHandler_same. split; [done |].
    left. eexists _, _. split; [| exact E1]. unfold block_writes. set_solver. }
  simpl. destruct (Set_check (timestamp_key (Timestamp block)) _) as [e|] eqn:E2.
  { left. exists e. rewrite set_storHandler_same. split; [done |].
    left. eexists _, _. split; [| exact E2]. unfold block_writes. set_solver. }
  simpl. destruct (Set_check (height_key (Height block)) _) as [e|] eqn:E3.
  { left. exists e. rewrite set_storHandler_same. split; [done |].
    left. eexists _, _. split; [| exact E3]. unfold block_writes. set_solver. }
  simpl. destruct (Commit_check _) as [e|] eqn:E4.
  { left. exists e. rewrite set_storHandler_same. split; [done |]. right. eauto. }
  right. split.
  - intros k v Hin. unfold block_writes in Hin.
    repeat (apply elem_of_cons in Hin as [[= -> ->] | Hin]; [done |]).
    by apply elem_of_nil in Hin.
  - do 2 f_equal. rewrite <- !insert_union_l. by rewrite (left_id ∅ (∪)).
Qed.

Lemma StoreBlock_error_unchanged s block s' e :
  StoreBlock s block = (s', Some e) -> s' = s.
Proof.
  destruct (StoreBlock_cases s block) as [(e' & -> & _) | (_ & ->)];
    [by intros [= -> _] | discriminate].
Qed.

End LedgerFacts.

(** ** Sealing: the hash of results and blocks *)

Section Sealing.
Import types.
Context `{Platform} `{JSON FullSignedBlock} `{JSON Result}.

Lemma fmt_02d_two_digits n : 0 <= n < 60 -> fmt_02d n = two_digits n.
Proof.
  intros Hn.
  assert (Hall : forallb (fun k => String.eqb (fmt_02d k) (two_digits k)) (upto 60)
                 = true) by (vm_compute; reflexivity).
  rewrite forallb_forall in Hall. apply String.eqb_eq, Hall.
  apply list_elem_of_In, elem_of_upto. lia.
Qed.

Lemma fmt_x_cons b bs :
  fmt_x (b :: bs) = (hex_byte b ++ fmt_x bs)%string.
Proof. unfold fmt_x. destruct bs; reflexivity. Qed.

Lemma fmt_x_length bs : String.length (fmt_x bs) = (2 * length bs)%nat.
Proof.
  induction bs as [|b rest IH]; [done |].
  rewrite fmt_x_cons. unfold hex_byte.
  change (S (S (String.length (fmt_x rest))) = (2 * length (b :: rest))%nat).
  rewrite IH. simpl. lia.
Qed.

Lemma set_Hash_set_Hash h h' (b : FullSignedBlock) :
  set_Hash h (set_Hash h' b) = set_Hash h b.
Proof. reflexivity. Qed.

Lemma Result_set_Hash_set_Hash h h' (r : Result) :
  Result_set_Hash h (Result_set_Hash h' r) = Result_set_Hash h r.
Proof. reflexivity. Qed.

(** C2. Sealing with CreateHash sets the hash to the double hash of the
    service marker, a colon and the serialization of the object with its
    hash cleared; the hash of a block is this base hash after the prefix
    "dd" and the two zero-padded digits of the seconds of its timestamp. *)
Theorem CreateHash_sets_double_hash :
  (forall (result : Result) (bytes : list byte),
     json_Marshal (Result_set_Hash "" result) = inl bytes ->
     Result_CreateHash result =
       (Result_set_Hash (double_hash ServiceHash bytes) result, None)) /\
  (forall (block : FullSignedBlock) (bytes : list byte),
     json_Marshal (set_Hash "" block) = inl bytes ->
     let seconds := time_Unix_Second (int64 (Timestamp block)) in
     FullSignedBlock_CreateHash block =
       (set_Hash ("dd" ++ fmt_02d seconds ++ double_hash ServiceHash bytes) block,
        None) /\
     (0 <= seconds < 60 -> fmt_02d seconds = two_digits seconds)) /\
  (forall bytes : list byte,
     (forall m, length (sha256_Sum256 m) = 32%nat) ->
     String.length (double_hash ServiceHash bytes) = 64%nat).
Proof.
  split_and!.
  - intros result bytes Hm.
    unfold Result_CreateHash, calculateHash. rewrite Hm. reflexivity.
  - intros block bytes Hm seconds. split.
    + unfold FullSignedBlock_CreateHash, calculateHash. rewrite Hm. reflexivity.
    + apply fmt_02d_two_digits.
  - intros bytes Hlen. unfold double_hash. rewrite fmt_x_length, Hlen. done.
Qed.

(** C10. When the serialization inside CreateHash of a block fails,
    CreateHash returns the error and still overwrites the hash: with the
    prefix "dd" and the two digits of the seconds, and no base hash. *)
Theorem CreateHash_error_overwrites_hash
    (block : FullSignedBlock) (e : string) :
  json_Marshal (set_Hash "" block) = inr e ->
  let seconds := time_Unix_Second (int64 (Timestamp block)) in
  FullSignedBlock_CreateHash block =
    (set_Hash ("dd" ++ fmt_02d seconds ++ "") block, Some e) /\
  Hash (fst (FullSignedBlock_CreateHash block)) <> ""%string /\
  (0 <= seconds < 60 ->
   Hash (fst (FullSignedBlock_CreateHash block)) = ("dd" ++ two_digits seconds)%string).
Proof.
  intros Hm seconds.
  assert (Hrun : FullSignedBlock_CreateHash block =
                 (set_Hash ("dd" ++ fmt_02d seconds ++ "") block, Some e)).
  { unfold FullSignedBlock_CreateHash, calculateHash. rewrite Hm. reflexivity. }
  rewrite Hrun. split_and!; [done | done |].
  intros Hs. simpl. rewrite fmt_02d_two_digits by done. reflexivity.
Qed.

End Sealing.

Section SealingWitnesses.
Import types demo.

Lemma CreateHash_sets_double_hash_witness :
  Result_CreateHash result1 =
    (Result_set_Hash
       "e0e0e0e0e0e0e0e0e0e0e0e0e0e0e0e0e0e0e0e0e0e0e0e0e0e0e0e0e0e0e0e0" result1,
     None) /\
  FullSignedBlock_CreateHash block1 =
    (set_Hash
       "dd07a0a0a0a0a0a0a0a0a0a0a0a0a0a0a0a0a0a0a0a0a0a0a0a0a0a0a0a0a0a0a0a0"
       block1, None) /\
  fmt_02d 7 = "07"%string.
Proof.
  destruct (@CreateHash_sets_double_hash platform json_block json_result)
    as (Hresult & Hblock & _).
  split_and!.
  - exact (Hresult result1 _ eq_refl).
  - exact (proj1 (Hblock block1 _ eq_refl)).
  - apply (proj2 (Hblock block1 _ eq_refl)). change (0 <= 7 < 60). lia.
Defined.

Lemma CreateHash_error_overwrites_hash_witness :
  FullSignedBlock_CreateHash block_bad =
    (set_Hash "dd09" block_bad, Some "json: unsupported value"%string) /\
  Hash (fst (FullSignedBlock_CreateHash block_bad)) <> ""%string.
Proof.
  destruct (@CreateHash_error_overwrites_hash platform json_block block_bad
              "json: unsupported value" eq_refl) as (Hrun & Hne & _).
  split; [exact Hrun | exact Hne].
Defined.

End SealingWitnesses.

(** ** Ledger: the claims about the store *)

Section LedgerClaims.
Import types badger database.
Context `{Platform} `{Backend} `{JSON FullSignedBlock}.

Lemma hash_key_inj h1 h2 : hash_key h1 = hash_key h2 -> h1 = h2.
Proof. intros [= Heq]. by apply list_byte_of_string_inj. Qed.

Lemma timestamp_key_inj t1 t2 :
  is_uint64 t1 -> is_uint64 t2 -> timestamp_key t1 = timestamp_key t2 -> t1 = t2.
Proof.
  intros H1' H2' Heq. apply PutUint64_inj; [done | done |].
  exact (f_equal (drop 1) Heq).
Qed.

Lemma height_key_inj h1 h2 :
  is_uint64 h1 -> is_uint64 h2 -> height_key h1 = height_key h2 -> h1 = h2.
Proof.
  intros H1' H2' Heq. apply PutUint64_inj; [done | done |].
  exact (f_equal (drop 1) Heq).
Qed.

(** Keys of different indices differ in their first byte. *)
Ltac key_ne := unfold hash_key, timestamp_key, height_key; discriminate.

Lemma StoreBlock_indexed s block s' :
  StoreBlock s block = (s', None) -> indexed (storHandler s') block.
Proof.
  intros Hok.
  destruct (StoreBlock_cases s block) as [(e & He & _) | (_ & Hrun)]; [congruence |].
  rewrite Hrun in Hok. injection Hok as <-. unfold indexed. simpl. split_and!.
  - rewrite lookup_insert_ne by key_ne. rewrite lookup_insert_ne by key_ne.
    apply lookup_insert_eq.
  - rewrite lookup_insert_ne by key_ne. apply lookup_insert_eq.
  - apply lookup_insert_eq.
Qed.

Lemma StoreBlock_keeps_indexed s block other :
  is_uint64 (Timestamp block) -> is_uint64 (Height block) ->
  apart block other ->
  indexed (storHandler s) block ->
  indexed (storHandler (fst (StoreBlock s other))) block.
Proof.
  intros Hts Hh (Hts' & Hh' & Hne1 & Hne2 & Hne3) (I1 & I2 & I3).
  destruct (StoreBlock_cases s other) as [(e & -> & _) | (_ & ->)]; [done |].
  unfold indexed. simpl. split_and!.
  - rewrite !lookup_insert_ne; [done | | key_ne | key_ne].
    intros Heq. by apply hash_key_inj in Heq.
  - rewrite !lookup_insert_ne; [done | key_ne | | key_ne].
    intros Heq. by apply timestamp_key_inj in Heq.
  - rewrite !lookup_insert_ne; [done | key_ne | key_ne |].
    intros Heq. by apply height_key_inj in Heq.
Qed.

Lemma StoreBlocks_keep_indexed block later :
  is_uint64 (Timestamp block) -> is_uint64 (Height block) ->
  Forall (apart block) later ->
  forall s, indexed (storHandler s) block ->
  indexed (storHandler (StoreBlocks s later)) block.
Proof.
  intros Hts Hh. induction 1 as [|other rest Hother _ IH]; intros s Hs; [done |].
  simpl. apply IH. by apply StoreBlock_keeps_indexed.
Qed.

(** C1, as amended. For a block that json.Unmarshal gives back from its
    serialization: after StoreBlock has stored the block, and whatever
    blocks of other hash, timestamp and height are stored after it, the
    lookups by the hash, by the timestamp and by the height of the block
    each return the block. *)
Theorem StoreBlock_roundtrip
    (s s1 : Store) (block : FullSignedBlock) (later : list FullSignedBlock) :
  is_uint64 (Timestamp block) -> is_uint64 (Height block) ->
  json_Unmarshal (marshal_bytes (json_Marshal block)) zero_block = (block, None) ->
  StoreBlock s block = (s1, None) ->
  Forall (apart block) later ->
  let s2 := StoreBlocks s1 later in
  GetBlock s2 (Hash block) = (block, None) /\
  FindBlockByTimestamp s2 (Timestamp block) = (block, None) /\
  FindBlockByHeight s2 (Height block) = (block, None).
Proof.
  intros Hts Hh Hjson Hstore Hlater s2.
  assert (Hidx : indexed (storHandler s2) block).
  { apply StoreBlocks_keep_indexed; auto. by eapply StoreBlock_indexed. }
  destruct Hidx as (I1 & I2 & I3). split_and!.
  - by rewrite GetBlock_unfold, I1.
  - rewrite FindBlockByTimestamp_unfold. unfold through_index.
    by rewrite I2, string_of_list_byte_of_string, I1.
  - rewrite FindBlockByHeight_unfold. unfold through_index.
    by rewrite I3, string_of_list_byte_of_string, I1.
Qed.

(** C3. StoreBlock writes its three entries in one transaction, all or
    nothing. When no write and no commit is refused it returns no error, and
    whenever it returns no error the store holds the three entries of the
    block (hash to serialized block, timestamp to hash, height to hash) and
    is otherwise as before. When one of the three writes is refused it
    returns an error, and whenever it returns an error the store is as it
    was before, so that a key of the block that was absent is still not
    found. *)
Theorem StoreBlock_all_or_nothing (s : Store) (block : FullSignedBlock) :
  ((forall k v, (k, v) ∈ block_writes block -> Set_check k v = None) ->
   (forall pending, Commit_check pending = None) ->
   snd (StoreBlock s block) = None) /\
  (forall s', StoreBlock s block = (s', None) ->
     storHandler s' !! hash_key (Hash block) =
       Some (marshal_bytes (json_Marshal block)) /\
     storHandler s' !! timestamp_key (Timestamp block) =
       Some (list_byte_of_string (Hash block)) /\
     storHandler s' !! height_key (Height block) =
       Some (list_byte_of_string (Hash block)) /\
     (forall key, key ∉ (block_writes block).*1 ->
        storHandler s' !! key = storHandler s !! key)) /\
  ((exists k v, (k, v) ∈ block_writes block /\ Set_check k v <> None) ->
   exists e, snd (StoreBlock s block) = Some e) /\
  (forall s' e, StoreBlock s block = (s', Some e) ->
     s' = s /\
     (storHandler s !! hash_key (Hash block) = None ->
      GetBlock s' (Hash block) = (zero_block, not_found)) /\
     (storHandler s !! timestamp_key (Timestamp block) = None ->
      FindBlockByTimestamp s' (Timestamp block) = (zero_block, not_found)) /\
     (storHandler s !! height_key (Height block) = None ->
      FindBlockByHeight s' (Height block) = (zero_block, not_found))).
Proof.
  split_and!.
  - intros Hset Hcommit.
    destruct (StoreBlock_cases s block)
      as [(e & _ & [(k & v & Hin & Hk) | [p Hp]]) | (_ & ->)]; [| | done].
    + by rewrite (Hset k v Hin) in Hk.
    + by rewrite Hcommit in Hp.
  - intros s' Hok.
    destruct (StoreBlock_indexed _ _ _ Hok) as (I1 & I2 & I3).
    split_and!; [done | done | done |].
    intros key Hkey.
    destruct (StoreBlock_cases s block) as [(e & He & _) | (_ & Hrun)]; [congruence |].
    rewrite Hrun in Hok. injection Hok as <-. simpl.
    unfold block_writes in Hkey. simpl in Hkey.
    rewrite !not_elem_of_cons in Hkey. destruct Hkey as (K1 & K2 & K3 & _).
    by rewrite !lookup_insert_ne by done.
  - intros (k & v & Hin & Hfail).
    destruct (StoreBlock_cases s block) as [(e & -> & _) | (Hpass & _)]; [eauto |].
    by rewrite (Hpass k v Hin) in Hfail.
  - intros s' e Herr. apply StoreBlock_error_unchanged in Herr as ->. split_and!.
    + done.
    + intros Hnone. by rewrite GetBlock_unfold, Hnone.
    + intros Hnone. rewrite FindBlockByTimestamp_unfold. unfold through_index.
      by rewrite Hnone.
    + intros Hnone. rewrite FindBlockByHeight_unfold. unfold through_index.
      by rewrite Hnone.
Qed.

(** C9. Each lookup goes through its index to the hash and from the hash to
    the primary entry, and returns a non-nil error whenever the index entry
    or the primary entry is absent. *)
Theorem lookups_fail_on_absent_entry (s : Store) :
  let db := storHandler s in
  (forall hash,
     db !! hash_key hash = None -> snd (GetBlock s hash) <> None) /\
  (forall hash bytes,
     db !! hash_key hash = Some bytes ->
     GetBlock s hash = json_Unmarshal bytes zero_block) /\
  (forall timestamp,
     db !! timestamp_key timestamp = None ->
     snd (FindBlockByTimestamp s timestamp) <> None) /\
  (forall timestamp hashBytes,
     db !! timestamp_key timestamp = Some hashBytes ->
     db !! hash_key (string_of_list_byte hashBytes) = None ->
     snd (FindBlockByTimestamp s timestamp) <> None) /\
  (forall timestamp hashBytes bytes,
     db !! timestamp_key timestamp = Some hashBytes ->
     db !! hash_key (string_of_list_byte hashBytes) = Some bytes ->
     FindBlockByTimestamp s timestamp = json_Unmarshal bytes zero_block) /\
  (forall height,
     db !! height_key height = None ->
     snd (FindBlockByHeight s height) <> None) /\
  (forall height hashBytes,
     db !! height_key height = Some hashBytes ->
     db !! hash_key (string_of_list_byte hashBytes) = None ->
     snd (FindBlockByHeight s height) <> None) /\
  (forall height hashBytes bytes,
     db !! height_key height = Some hashBytes ->
     db !! hash_key (string_of_list_byte hashBytes) = Some bytes ->
     FindBlockByHeight s height = json_Unmarshal bytes zero_block).
Proof.
  intros db. unfold db. split_and!.
  - intros hash Hnone. by rewrite GetBlock_unfold, Hnone.
  - intros hash bytes Hsome. by rewrite GetBlock_unfold, Hsome.
  - intros ts Hnone. rewrite FindBlockByTimestamp_unfold. unfold through_index.
    by rewrite Hnone.
  - intros ts hb Hsome Hnone. rewrite FindBlockByTimestamp_unfold.
    unfold through_index. by rewrite Hsome, Hnone.
  - intros ts hb bytes Hsome Hbytes. rewrite FindBlockByTimestamp_unfold.
    unfold through_index. by rewrite Hsome, Hbytes.
  - intros h Hnone. rewrite FindBlockByHeight_unfold. unfold through_index.
    by rewrite Hnone.
  - intros h hb Hsome Hnone. rewrite FindBlockByHeight_unfold.
    unfold through_index. by rewrite Hsome, Hnone.
  - intros h hb bytes Hsome Hbytes. rewrite FindBlockByHeight_unfold.
    unfold through_index. by rewrite Hsome, Hbytes.
Qed.

(** C8. storeUIntIndex and readUIntIndex build the same key, the prefix
    byte followed by the 8 bytes of the number, least significant first
    (the string indices: the prefix byte and the bytes of the string);
    a write under a key is read back under it; and keys with different
    prefix bytes differ, the four prefixes being pairwise different. *)
Theorem index_keys_consistent_and_disjoint :
  (forall txn key value prefix,
     storeUIntIndex txn key value prefix =
       Txn_Set txn (prefix :: PutUint64 key) value) /\
  (forall txn key prefix,
     readUIntIndex txn key prefix =
       match Txn_Get txn (prefix :: PutUint64 key) with
       | (_, Some err) => ([], Some err)
       | (value, None) => (value, None)
       end) /\
  (forall txn txn' key value prefix,
     storeUIntIndex txn key value prefix = (txn', None) ->
     readUIntIndex txn' key prefix = (value, None)) /\
  (forall txn (key : string) value prefix,
     storeStringIndex txn key value prefix =
       Txn_Set txn (prefix :: list_byte_of_string key) value) /\
  (forall txn (key : string) prefix,
     readStringIndex txn key prefix =
       match Txn_Get txn (prefix :: list_byte_of_string key) with
       | (_, Some err) => ([], Some err)
       | (value, None) => (value, None)
       end) /\
  (forall key prefix, length (prefix :: PutUint64 key) = 9%nat) /\
  (forall key i, 0 <= i < 8 ->
     exists b, PutUint64 key !! Z.to_nat i = Some b /\
               Z.of_N (Byte.to_N b) = (key / 256 ^ i) mod 256) /\
  (forall a b, is_uint64 a -> is_uint64 b -> PutUint64 a = PutUint64 b -> a = b) /\
  (forall (p1 p2 : byte) (body1 body2 : list byte),
     p1 <> p2 -> p1 :: body1 <> p2 :: body2) /\
  NoDup [HashKeyPrefix; TimestampKeyPrefix; HeightKeyPrefix; FixedKeyPrefix].
Proof.
  split_and!.
  - reflexivity.
  - reflexivity.
  - intros txn txn' key value prefix Hset.
    unfold storeUIntIndex, readUIntIndex, Txn_Set in *.
    destruct (Set_check _ _); [discriminate |]. injection Hset as <-.
    unfold Txn_Get. simpl. by rewrite lookup_insert_eq.
  - reflexivity.
  - reflexivity.
  - reflexivity.
  - apply PutUint64_lookup.
  - apply PutUint64_inj.
  - intros p1 p2 body1 body2 Hne Heq. apply Hne. congruence.
  - unfold HashKeyPrefix, TimestampKeyPrefix, HeightKeyPrefix, FixedKeyPrefix.
    repeat (apply NoDup_cons; split;
            [rewrite ?elem_of_cons, elem_of_nil; intuition discriminate |]).
    apply NoDup_nil_2.
Qed.

End LedgerClaims.

Section LedgerWitnesses.
Import types badger database demo.

Lemma StoreBlock_roundtrip_witness :
  let s2 := StoreBlocks (fst (StoreBlock store0 block1)) [block2] in
  GetBlock s2 (Hash block1) = (block1, None) /\
  FindBlockByTimestamp s2 (Timestamp block1) = (block1, None) /\
  FindBlockByHeight s2 (Height block1) = (block1, None).
Proof.
  apply (@StoreBlock_roundtrip platform backend json_block store0
           (fst (StoreBlock store0 block1)) block1 [block2]).
  - unfold is_uint64. simpl. lia.
  - unfold is_uint64. simpl. lia.
  - vm_compute. reflexivity.
  - rewrite (surjective_pairing (StoreBlock store0 block1)) at 1.
    f_equal; vm_compute; reflexivity.
  - constructor; [| constructor].
    unfold apart, is_uint64. simpl. repeat split; try lia; discriminate.
Defined.

Lemma StoreBlock_all_or_nothing_witness :
  (snd (StoreBlock store0 block1) = None /\
   forall s', StoreBlock store0 block1 = (s', None) ->
     storHandler s' !! hash_key (Hash block1) =
       Some (marshal_bytes (json_Marshal block1)) /\
     storHandler s' !! timestamp_key (Timestamp block1) =
       Some (list_byte_of_string (Hash block1)) /\
     storHandler s' !! height_key (Height block1) =
       Some (list_byte_of_string (Hash block1))) /\
  ((exists e,
      snd (@StoreBlock platform backend_without_height json_block store0 block1)
        = Some e) /\
   forall s' e,
     @StoreBlock platform backend_without_height json_block store0 block1
       = (s', Some e) ->
     s' = store0 /\
     GetBlock s' (Hash block1) = (zero_block, not_found) /\
     FindBlockByTimestamp s' (Timestamp block1) = (zero_block, not_found) /\
     FindBlockByHeight s' (Height block1) = (zero_block, not_found)).
Proof.
  destruct (@StoreBlock_all_or_nothing platform backend json_block store0 block1)
    as (Hpass & Hall & _ & _).
  destruct (@StoreBlock_all_or_nothing platform backend_without_height json_block
              store0 block1) as (_ & _ & Hfail & Hnothing).
  split; split.
  - apply Hpass; [| reflexivity].
    intros k v Hin. unfold block_writes in Hin.
    repeat (apply elem_of_cons in Hin as [[= -> ->] | Hin]; [vm_compute; reflexivity |]).
    by apply elem_of_nil in Hin.
  - intros s' Hok. destruct (Hall s' Hok) as (I1 & I2 & I3 & _). by split_and!.
  - apply Hfail.
    exists (height_key (Height block1)), (list_byte_of_string (Hash block1)).
    split; [| vm_compute; discriminate].
    unfold block_writes. rewrite !elem_of_cons. right; right; left. reflexivity.
  - intros s' e Herr. destruct (Hnothing s' e Herr) as (Hs & Hget & Hts & Hh).
    split_and!; [exact Hs | apply Hget | apply Hts | apply Hh]; reflexivity.
Defined.

Lemma lookups_fail_on_absent_entry_witness :
  snd (GetBlock store0 "dd07abc") <> None /\
  snd (FindBlockByTimestamp store0 1567) <> None /\
  snd (FindBlockByHeight store0 1) <> None.
Proof.
  destruct (@lookups_fail_on_absent_entry platform json_block store0)
    as (Hhash & _ & Hts & _ & _ & Hh & _).
  split_and!.
  - apply Hhash. reflexivity.
  - apply Hts. reflexivity.
  - apply Hh. reflexivity.
Defined.

Lemma index_keys_consistent_and_disjoint_witness :
  readUIntIndex
    (fst (storeUIntIndex (NewTransaction ∅) 1567 [x64; x64] TimestampKeyPrefix))
    1567 TimestampKeyPrefix = ([x64; x64], None) /\
  TimestampKeyPrefix :: PutUint64 1567 <> HeightKeyPrefix :: PutUint64 1567.
Proof.
  destruct (@index_keys_consistent_and_disjoint backend)
    as (_ & _ & Hrw & _ & _ & _ & _ & _ & Hprefix & _).
  split.
  - apply (Hrw (NewTransaction ∅)). reflexivity.
  - apply Hprefix. discriminate.
Defined.

End LedgerWitnesses.

(** ** Ledger: a payload that the serialization does not give back *)

Section PayloadTypes.
Import types badger database demo_json.

(** With a payload of a Go integer type the sealed block is stored without
    error, and each of the three lookups returns, without error, a block
    that is not the stored one: its payload is the float64 of the same
    number. *)
Lemma StoreBlock_roundtrip_loses_int_payload :
  let sealed := fst (FullSignedBlock_CreateHash block_int) in
  let s1 := fst (StoreBlock store0 sealed) in
  snd (FullSignedBlock_CreateHash block_int) = None /\
  Payload sealed = Int 42 /\
  snd (StoreBlock store0 sealed) = None /\
  GetBlock s1 (Hash sealed) <> (sealed, None) /\
  FindBlockByTimestamp s1 (Timestamp sealed) <> (sealed, None) /\
  FindBlockByHeight s1 (Height sealed) <> (sealed, None) /\
  Payload (fst (GetBlock s1 (Hash sealed))) = Float64 42 /\
  Payload (fst (FindBlockByTimestamp s1 (Timestamp sealed))) = Float64 42 /\
  Payload (fst (FindBlockByHeight s1 (Height sealed))) = Float64 42.
Proof.
  intros sealed s1.
  assert (Hsealed : Payload sealed = Int 42) by (vm_compute; reflexivity).
  assert (Hget : Payload (fst (GetBlock s1 (Hash sealed))) = Float64 42)
    by (vm_compute; reflexivity).
  assert (Hts : Payload (fst (FindBlockByTimestamp s1 (Timestamp sealed)))
                = Float64 42) by (vm_compute; reflexivity).
  assert (Hh : Payload (fst (FindBlockByHeight s1 (Height sealed))) = Float64 42)
    by (vm_compute; reflexivity).
  split_and!.
  - vm_compute. reflexivity.
  - exact Hsealed.
  - vm_compute. reflexivity.
  - intros Heq. rewrite Heq in Hget.
    change (Payload sealed = Float64 42) in Hget. congruence.
  - intros Heq. rewrite Heq in Hts.
    change (Payload sealed = Float64 42) in Hts. congruence.
  - intros Heq. rewrite Heq in Hh.
    change (Payload sealed = Float64 42) in Hh. congruence.
  - exact Hget.
  - exact Hts.
  - exact Hh.
Qed.

Lemma FullSignedBlock_by_fields (a b : FullSignedBlock) :
  Hash a = Hash b -> Height a = Height b -> Timestamp a = Timestamp b ->
  Payload a = Payload b -> PreviousHash a = PreviousHash b ->
  Address a = Address b -> PreviousAddress a = PreviousAddress b ->
  Memo a = Memo b -> Evidence a = Evidence b -> a = b.
Proof. destruct a, b. simpl. intros. congruence. Qed.

(** The same block with the payload as a float64 is returned as it was
    stored. *)
Example StoreBlock_roundtrip_keeps_float_payload :
  let sealed := fst (FullSignedBlock_CreateHash block_float) in
  let s1 := fst (StoreBlock store0 sealed) in
  GetBlock s1 (Hash sealed) = (sealed, None) /\
  FindBlockByTimestamp s1 (Timestamp sealed) = (sealed, None) /\
  FindBlockByHeight s1 (Height sealed) = (sealed, None).
Proof.
  intros sealed s1.
  split_and!;
    (apply injective_projections;
     [apply FullSignedBlock_by_fields |]; vm_compute; reflexivity).
Qed.

End PayloadTypes.

(** * Further properties *)

(** ** Ledger: the generic values, and how the operations compose *)

(** Keys of different kinds differ in their first byte. *)
Ltac keys_differ :=
  unfold fixed_key, hash_key, timestamp_key, height_key; discriminate.

Section LedgerExtras.
Import types badger database.
Context `{Platform} `{Backend} `{JSON FullSignedBlock}.

Lemma StoreValue_cases s key value :
  (exists e, StoreValue s key value = (s, Some e)) \/
  StoreValue s key value =
    (set_storHandler (<[fixed_key key := value]> (storHandler s)) s, None).
Proof.
  unfold StoreValue, DB_Update, storeStringIndex, Txn_Set. simpl.
  fold (fixed_key key).
  destruct (Set_check (fixed_key key) value) as [e|].
  { left. exists e. by rewrite set_storHandler_same. }
  simpl. destruct (Commit_check _) as [e|].
  { left. exists e. by rewrite set_storHandler_same. }
  right. do 2 f_equal. rewrite <- insert_union_l. by rewrite (left_id ∅ (∪)).
Qed.

Lemma GetValue_unfold s key :
  GetValue s key =
    (s, match storHandler s !! fixed_key key with
        | None => ([], not_found)
        | Some value =>
            match Commit_check ∅ with
            | Some e => (value, Some e)
            | None => (value, None)
            end
        end).
Proof.
  unfold GetValue, DB_Update, readStringIndex. rewrite Txn_Get_fresh.
  unfold fixed_key. simpl.
  destruct (storHandler s !! (FixedKeyPrefix :: list_byte_of_string key)) as [value|].
  - simpl. destruct (Commit_check ∅).
    + by rewrite set_storHandler_same.
    + by rewrite (left_id ∅ (∪)), set_storHandler_same.
  - simpl. by rewrite set_storHandler_same.
Qed.

(** X1. A value written by a successful StoreValue is what GetValue returns
    for its key, for a backend whose commit of a transaction without writes
    passes; values under other keys are as before. *)
Theorem StoreValue_GetValue_roundtrip
    (s s' : Store) (key : string) (value : list byte) :
  StoreValue s key value = (s', None) ->
  Commit_check ∅ = None ->
  GetValue s' key = (s', (value, None)) /\
  (forall other, other <> key -> snd (GetValue s' other) = snd (GetValue s other)).
Proof.
  intros Hstore Hcommit.
  destruct (StoreValue_cases s key value) as [[e He] | Hrun]; [congruence |].
  rewrite Hrun in Hstore. injection Hstore as <-. split.
  - rewrite GetValue_unfold. simpl. by rewrite lookup_insert_eq, Hcommit.
  - intros other Hne. rewrite !GetValue_unfold. simpl.
    rewrite lookup_insert_ne; [done |].
    intros [= Heq]. by apply list_byte_of_string_inj in Heq.
Qed.

(** X2. GetValue never changes the store, although the source reads inside
    an update transaction; for a key that is absent it returns no bytes and
    the key-not-found error. *)
Theorem GetValue_reads_only (s : Store) (key : string) :
  fst (GetValue s key) = s /\
  (storHandler s !! fixed_key key = None ->
   snd (GetValue s key) = ([], not_found)).
Proof.
  rewrite GetValue_unfold. split; [done |]. intros Hnone. simpl. by rewrite Hnone.
Qed.

(** X3. The generic values and the blocks never meet: whatever StoreValue
    returns, the three block lookups give what they gave before; whatever
    StoreBlock returns, GetValue gives what it gave before. *)
Theorem values_and_blocks_are_separate (s : Store) :
  (forall key value,
     let s' := fst (StoreValue s key value) in
     (forall hash, GetBlock s' hash = GetBlock s hash) /\
     (forall timestamp,
        FindBlockByTimestamp s' timestamp = FindBlockByTimestamp s timestamp) /\
     (forall height, FindBlockByHeight s' height = FindBlockByHeight s height)) /\
  (forall block key,
     snd (GetValue (fst (StoreBlock s block)) key) = snd (GetValue s key)).
Proof.
  split.
  - intros key value s'. unfold s'.
    destruct (StoreValue_cases s key value) as [[e ->] | ->]; [done |].
    simpl. split_and!.
    + intros hash. rewrite !GetBlock_unfold. simpl.
      by rewrite lookup_insert_ne by keys_differ.
    + intros ts. rewrite !FindBlockByTimestamp_unfold. unfold through_index. simpl.
      rewrite lookup_insert_ne by keys_differ.
      destruct (storHandler s !! timestamp_key ts) as [hb|]; [| done].
      by rewrite lookup_insert_ne by keys_differ.
    + intros h. rewrite !FindBlockByHeight_unfold. unfold through_index. simpl.
      rewrite lookup_insert_ne by keys_differ.
      destruct (storHandler s !! height_key h) as [hb|]; [| done].
      by rewrite lookup_insert_ne by keys_differ.
  - intros block key. rewrite !GetValue_unfold.
    destruct (StoreBlock_cases s block) as [(e & -> & _) | (_ & ->)]; [done |].
    simpl.
    by rewrite !lookup_insert_ne by keys_differ.
Qed.

(** When no write and no commit is refused, StoreBlock writes. *)
Lemma StoreBlock_passes s block :
  (forall k v, (k, v) ∈ block_writes block -> Set_check k v = None) ->
  (forall pending, Commit_check pending = None) ->
  StoreBlock s block =
    (set_storHandler
       (<[height_key (Height block) := list_byte_of_string (Hash block)]>
          (<[timestamp_key (Timestamp block) := list_byte_of_string (Hash block)]>
             (<[hash_key (Hash block) := marshal_bytes (json_Marshal block)]>
                (storHandler s)))) s, None).
Proof.
  intros Hset Hcommit.
  destruct (StoreBlock_cases s block)
    as [(e & _ & [(k & v & Hin & Hk) | [p Hp]]) | (_ & Hrun)]; [| | done].
  - by rewrite (Hset k v Hin) in Hk.
  - by rewrite Hcommit in Hp.
Qed.

(** X4. StoreBlock drops the error of json.Marshal: for a block that cannot
    be serialized, on a backend that refuses none of its three writes and
    no commit, StoreBlock returns no error and writes an empty primary
    entry, so that the lookup by the hash of the block is the decoding of no
    bytes at all. *)
Theorem StoreBlock_drops_marshal_error
    (s : Store) (block : FullSignedBlock) (e : string) :
  json_Marshal block = inr e ->
  (forall k v, (k, v) ∈ block_writes block -> Set_check k v = None) ->
  (forall pending, Commit_check pending = None) ->
  snd (StoreBlock s block) = None /\
  storHandler (fst (StoreBlock s block)) !! hash_key (Hash block) = Some [] /\
  GetBlock (fst (StoreBlock s block)) (Hash block) = json_Unmarshal [] zero_block.
Proof.
  intros Hm Hset Hcommit.
  rewrite (StoreBlock_passes s block) by auto. simpl.
  assert (Hlook : <[height_key (Height block) := list_byte_of_string (Hash block)]>
            (<[timestamp_key (Timestamp block) := list_byte_of_string (Hash block)]>
               (<[hash_key (Hash block) := marshal_bytes (json_Marshal block)]>
                  (storHandler s))) !! hash_key (Hash block) = Some []).
  { rewrite !lookup_insert_ne by keys_differ. rewrite lookup_insert_eq. by rewrite Hm. }
  split_and!; [done | done |].
  rewrite GetBlock_unfold. simpl. by rewrite Hlook.
Qed.

(** X5. The index entries of a block are never removed. When a second block
    with the hash of a first one, but another timestamp and height, is
    stored after it, the lookups by the timestamp and by the height of the
    first block return what the lookup by the hash returns: the record of
    the second block. *)
Theorem StoreBlock_keeps_stale_index
    (s s1 s2 : Store) (first second : FullSignedBlock) :
  is_uint64 (Timestamp first) -> is_uint64 (Height first) ->
  is_uint64 (Timestamp second) -> is_uint64 (Height second) ->
  Hash second = Hash first ->
  Timestamp second <> Timestamp first ->
  Height second <> Height first ->
  StoreBlock s first = (s1, None) ->
  StoreBlock s1 second = (s2, None) ->
  let record := json_Unmarshal (marshal_bytes (json_Marshal second)) zero_block in
  GetBlock s2 (Hash first) = record /\
  FindBlockByTimestamp s2 (Timestamp first) = record /\
  FindBlockByHeight s2 (Height first) = record.
Proof.
  intros Ht1 Hh1 Ht2 Hh2 Hhash Hts Hheight Hs1 Hs2 record.
  apply StoreBlock_indexed in Hs1 as (_ & I2 & I3).
  destruct (StoreBlock_cases s1 second) as [(e & He & _) | (_ & Hrun)]; [congruence |].
  rewrite Hrun in Hs2. injection Hs2 as <-.
  assert (Hprim : <[height_key (Height second) := list_byte_of_string (Hash second)]>
            (<[timestamp_key (Timestamp second) := list_byte_of_string (Hash second)]>
               (<[hash_key (Hash second) := marshal_bytes (json_Marshal second)]>
                  (storHandler s1))) !! hash_key (Hash first)
          = Some (marshal_bytes (json_Marshal second))).
  { rewrite !lookup_insert_ne by keys_differ. rewrite Hhash. apply lookup_insert_eq. }
  split_and!.
  - rewrite GetBlock_unfold. simpl. by rewrite Hprim.
  - rewrite FindBlockByTimestamp_unfold. unfold through_index. simpl.
    rewrite lookup_insert_ne by keys_differ.
    rewrite lookup_insert_ne.
    2: { intros Heq. by apply timestamp_key_inj in Heq. }
    rewrite lookup_insert_ne by keys_differ.
    rewrite I2, string_of_list_byte_of_string. by rewrite Hprim.
  - rewrite FindBlockByHeight_unfold. unfold through_index. simpl.
    rewrite lookup_insert_ne.
    2: { intros Heq. by apply height_key_inj in Heq. }
    rewrite !lookup_insert_ne by keys_differ.
    rewrite I3, string_of_list_byte_of_string. by rewrite Hprim.
Qed.

(** X6. Storing a block a second time changes nothing: the second
    StoreBlock succeeds as the first did and leaves the store of the first. *)
Theorem StoreBlock_twice (s s1 : Store) (block : FullSignedBlock) :
  StoreBlock s block = (s1, None) ->
  StoreBlock s1 block = (s1, None).
Proof.
  intros Hs1.
  pose proof (StoreBlock_indexed _ _ _ Hs1) as (I1 & I2 & I3).
  destruct (StoreBlock_cases s block) as [(e & He & _) | (Hpass & Hrun)]; [congruence |].
  assert (Hcommit : Commit_check
            (<[height_key (Height block) := list_byte_of_string (Hash block)]>
               (<[timestamp_key (Timestamp block) := list_byte_of_string (Hash block)]>
                  (<[hash_key (Hash block) := marshal_bytes (json_Marshal block)]> ∅)))
          = None).
  { revert Hs1. unfold StoreBlock, DB_Update, storeStringIndex, storeUIntIndex, Txn_Set.
    simpl. fold (hash_key (Hash block)) (timestamp_key (Timestamp block))
      (height_key (Height block)).
    rewrite !Hpass by (unfold block_writes; set_solver). simpl.
    destruct (Commit_check _); [intros [=] | done]. }
  unfold StoreBlock, DB_Update, storeStringIndex, storeUIntIndex, Txn_Set.
  simpl. fold (hash_key (Hash block)) (timestamp_key (Timestamp block))
    (height_key (Height block)).
  rewrite !Hpass by (unfold block_writes; set_solver). simpl.
  rewrite Hcommit. f_equal.
  rewrite <- !insert_union_l, (left_id ∅ (∪)).
  rewrite (insert_id (storHandler s1) (hash_key (Hash block))) by done.
  rewrite (insert_id (storHandler s1) (timestamp_key (Timestamp block))) by done.
  rewrite (insert_id (storHandler s1) (height_key (Height block))) by done.
  apply set_storHandler_same.
Qed.

End LedgerExtras.

(** ** Sealing: what CreateHash keeps and forgets *)

Section SealingExtras.
Import types.
Context `{Platform} `{JSON FullSignedBlock} `{JSON Result}.

(** X7. The hash that CreateHash gives a block does not depend on the hash
    the block had: sealing a block again, or with any other value in its
    hash field, gives the same block and the same error; and CreateHash
    changes no field but the hash. The same holds for results. *)
Theorem CreateHash_is_reproducible :
  (forall (h : string) (block : FullSignedBlock),
     FullSignedBlock_CreateHash (set_Hash h block) =
     FullSignedBlock_CreateHash block) /\
  (forall block : FullSignedBlock,
     FullSignedBlock_CreateHash (fst (FullSignedBlock_CreateHash block)) =
     FullSignedBlock_CreateHash block /\
     set_Hash "" (fst (FullSignedBlock_CreateHash block)) = set_Hash "" block) /\
  (forall (h : string) (result : Result),
     Result_CreateHash (Result_set_Hash h result) = Result_CreateHash result) /\
  (forall result : Result,
     Result_CreateHash (fst (Result_CreateHash result)) = Result_CreateHash result /\
     Result_set_Hash "" (fst (Result_CreateHash result)) = Result_set_Hash "" result).
Proof.
  split_and!.
  - reflexivity.
  - intros block.
    assert (Hfst : exists h, fst (FullSignedBlock_CreateHash block) = set_Hash h block).
    { unfold FullSignedBlock_CreateHash.
      destruct (calculateHash (set_Hash "" block)) as [hash [e|]]; simpl; eauto. }
    destruct Hfst as [h ->]. split; reflexivity.
  - reflexivity.
  - intros result.
    assert (Hfst : exists h, fst (Result_CreateHash result) = Result_set_Hash h result).
    { unfold Result_CreateHash.
      destruct (calculateHash (Result_set_Hash "" result)) as [hash [e|]]; simpl; eauto. }
    destruct Hfst as [h ->]. split; reflexivity.
Qed.

End SealingExtras.

(** ** Shamir: what Split computes *)

Section SplitClosedForm.
Import shamir.

Lemma index_nth {A : Type} (l : list A) i d :
  0 <= i < Z.of_nat (length l) -> index l i = Ok (nth (Z.to_nat i) l d).
Proof.
  intros Hi. apply index_Ok. split; [done |].
  destruct (lookup_lt_is_Some_2 l (Z.to_nat i)) as [x Hx]; [lia |].
  by rewrite nth_lookup, Hx.
Qed.

Lemma upto_succ n : 0 <= n -> upto (n + 1) = upto n ++ [n].
Proof.
  intros Hn. unfold upto.
  replace (Z.to_nat (n + 1)) with (S (Z.to_nat n)) by lia.
  rewrite seq_S, map_app. simpl. by rewrite Z2Nat.id.
Qed.

Lemma NoDup_upto n : NoDup (upto n).
Proof.
  unfold upto. apply NoDup_fmap_2; [| apply NoDup_seq].
  intros a b Hab. lia.
Qed.

Lemma horner_run cs x (k : nat) :
  (k < length cs)%nat ->
  horner cs x (reverse (upto (Z.of_nat k))) (horner_value (drop k cs) x) =
    Ok (horner_value cs x).
Proof.
  induction k as [|k IH]; intros Hk.
  - done.
  - replace (Z.of_nat (S k)) with (Z.of_nat k + 1) by lia.
    rewrite upto_succ by lia. rewrite reverse_app. simpl.
    destruct (lookup_lt_is_Some_2 cs k) as [c Hc]; [lia |].
    assert (Hidx : index cs (Z.of_nat k) = Ok c).
    { apply index_Ok. rewrite Nat2Z.id. split; [lia | done]. }
    rewrite Hidx. simpl.
    rewrite <- IH by lia. f_equal.
    rewrite (drop_S cs c k Hc). simpl.
    destruct (drop (S k) cs) eqn:Hd; [| done].
    apply (f_equal length) in Hd. rewrite length_drop in Hd. simpl in Hd. lia.
Qed.

(** [evaluate] returns the Horner value of the coefficients. *)
Lemma evaluate_value cs x :
  cs <> [] -> evaluate {| coefficients := cs |} x = Ok (poly_value cs x).
Proof.
  intros Hne. unfold evaluate, poly_value. simpl.
  assert (Hlen : (0 < length cs)%nat) by (destruct cs; [done | simpl; lia]).
  destruct (x =? 0).
  - apply index_nth. lia.
  - rewrite (index_nth cs _ 0) by lia. simpl.
    replace (Z.of_nat (length cs) - 1) with (Z.of_nat (length cs - 1)) by lia.
    rewrite Nat2Z.id. rewrite <- (horner_run cs x (length cs - 1)) by lia.
    f_equal. rewrite nth_lookup.
    destruct (lookup_lt_is_Some_2 cs (length cs - 1)) as [c Hc]; [lia |].
    rewrite Hc. simpl. rewrite (drop_S cs c _ Hc).
    replace (S (length cs - 1)) with (length cs) by lia.
    by rewrite drop_all.
Qed.

Lemma alloc_loop_rows xC n rows idxs :
  0 <= n -> NoDup idxs ->
  (forall i, i ∈ idxs -> 0 <= i < Z.of_nat (length xC) /\ i < Z.of_nat rows) ->
  forall out, length out = rows ->
  exists out',
    alloc_loop xC n idxs out = Ok out' /\
    length out' = rows /\
    forall r, (r < rows)%nat ->
      out' !! r =
        if decide (Z.of_nat r ∈ idxs)
        then Some (<[Z.to_nat n := x_coordinate xC (Z.of_nat r)]>
                     (replicate (Z.to_nat (n + 3)) 0))
        else out !! r.
Proof.
  intros Hn. induction idxs as [|i rest IH]; intros Hnd Hin out Hl.
  - exists out. split_and!; [done | done |]. intros r Hr.
    by rewrite decide_False by apply not_elem_of_nil.
  - apply NoDup_cons in Hnd as [Hi' Hnd].
    destruct (Hin i) as [Hi Hrows]; [left |]. simpl.
    rewrite make_Ok by lia. simpl.
    rewrite assign_in_range by lia. simpl.
    rewrite (index_nth xC i 0) by done. simpl.
    erewrite assign2_in_range;
      [ | lia | apply list_lookup_insert_eq; lia | rewrite length_replicate; lia ].
    simpl. rewrite list_insert_insert_eq.
    fold (x_coordinate xC i).
    destruct (IH Hnd (fun j Hj => Hin j (list_elem_of_further _ _ _ Hj))
                 (<[Z.to_nat i := <[Z.to_nat n := x_coordinate xC i]>
                                    (replicate (Z.to_nat (n + 3)) 0)]> out))
      as (out' & Hrun & Hl' & Hrows').
    { by rewrite length_insert. }
    exists out'. split_and!; auto.
    intros r Hr. rewrite (Hrows' r Hr).
    destruct (decide (Z.of_nat r = i)) as [<- | Hne].
    + rewrite Nat2Z.id. rewrite decide_False by done.
      rewrite decide_True by left.
      apply list_lookup_insert_eq. lia.
    + destruct (decide (Z.of_nat r ∈ rest)) as [Hr' | Hr'].
      * rewrite decide_True by (by right). done.
      * rewrite decide_False.
        -- apply list_lookup_insert_ne. lia.
        -- intros Hc. apply elem_of_cons in Hc as [? | ?]; done.
Qed.

Lemma part_loop_rows xC n0 idx0 rows c0 c1 cs idxs :
  (idx0 < n0)%nat -> NoDup idxs ->
  (forall i, i ∈ idxs -> 0 <= i < Z.of_nat (length xC) /\ i < Z.of_nat rows) ->
  forall out, shape rows (n0 + 3) out ->
  exists out',
    part_loop xC {| coefficients := c0 :: c1 :: cs |} (Z.of_nat n0)
      (Z.of_nat idx0) idxs out = Ok out' /\
    shape rows (n0 + 3) out' /\
    forall r row, out !! r = Some row ->
      out' !! r =
        Some (if decide (Z.of_nat r ∈ idxs)
              then upd_row n0 idx0
                     (poly_value (c0 :: c1 :: cs) (x_coordinate xC (Z.of_nat r)))
                     c0 c1 row
              else row).
Proof.
  intros Hidx. induction idxs as [|i rest IH]; intros Hnd Hin out Hshape.
  - exists out. split_and!; [done | done |]. intros r row Hr.
    by rewrite decide_False by apply not_elem_of_nil.
  - apply NoDup_cons in Hnd as [Hi' Hnd].
    destruct (Hin i) as [Hi Hrows]; [left |].
    pose proof Hshape as [Hl Hw].
    destruct (lookup_lt_is_Some_2 out (Z.to_nat i)) as [rowi Hrowi]; [lia |].
    pose proof (Hw _ _ Hrowi) as Hlen.
    set (y := poly_value (c0 :: c1 :: cs) (x_coordinate xC i)).
    assert (Hstep :
      part_loop xC {| coefficients := c0 :: c1 :: cs |} (Z.of_nat n0)
        (Z.of_nat idx0) (i :: rest) out =
      part_loop xC {| coefficients := c0 :: c1 :: cs |} (Z.of_nat n0)
        (Z.of_nat idx0) rest (<[Z.to_nat i := upd_row n0 idx0 y c0 c1 rowi]> out)).
    { assert (Hlt : (Z.to_nat i < length out)%nat) by lia.
      simpl. rewrite (index_nth xC i 0) by done. simpl.
      fold (x_coordinate xC i). rewrite evaluate_value by done. simpl. fold y.
      rewrite (assign2_in_range out i (Z.of_nat idx0) y rowi); [ | lia | done | lia ].
      simpl.
      assert (H0 : index (c0 :: c1 :: cs) 0 = Ok c0).
      { apply index_Ok. simpl. split; [lia | done]. }
      assert (H1 : index (c0 :: c1 :: cs) 1 = Ok c1).
      { apply index_Ok. simpl. split; [lia | done]. }
      rewrite ?H0. simpl.
      erewrite assign2_in_range;
        [ | lia | by apply list_lookup_insert_eq | rewrite length_insert; lia ].
      simpl. rewrite ?H1. simpl.
      erewrite assign2_in_range;
        [ | lia | by apply list_lookup_insert_eq; rewrite length_insert
          | rewrite !length_insert; lia ].
      simpl. rewrite !list_insert_insert_eq. unfold upd_row.
      rewrite Nat2Z.id.
      replace (Z.to_nat (Z.of_nat n0 + 1)) with (n0 + 1)%nat by lia.
      by replace (Z.to_nat (Z.of_nat n0 + 2)) with (n0 + 2)%nat by lia. }
    rewrite Hstep. clear Hstep.
    destruct (IH Hnd (fun j Hj => Hin j (list_elem_of_further _ _ _ Hj))
                 (<[Z.to_nat i := upd_row n0 idx0 y c0 c1 rowi]> out))
      as (out' & Hrun & Hshape' & Hrows').
    { apply shape_insert; [done |]. unfold upd_row. by rewrite !length_insert. }
    exists out'. split_and!; auto.
    intros r row Hr.
    destruct (decide (Z.of_nat r = i)) as [<- | Hne].
    + rewrite Nat2Z.id in *. assert (rowi = row) as -> by congruence.
      rewrite (Hrows' r (upd_row n0 idx0 y c0 c1 row)).
      * rewrite decide_False by done. by rewrite decide_True by left.
      * apply list_lookup_insert_eq. lia.
    + rewrite (Hrows' r row).
      * destruct (decide (Z.of_nat r ∈ rest)) as [Hr' | Hr'].
        -- by rewrite decide_True by (by right).
        -- rewrite decide_False; [done |].
           intros Hc. apply elem_of_cons in Hc as [? | ?]; done.
      * rewrite list_lookup_insert_ne by lia. done.
Qed.

Lemma secret_loop_rows xC parts threshold n0 vals :
  Z.of_nat (length xC) >= parts -> 0 <= parts ->
  2 <= threshold <= 255 ->
  forall tape idx0 out,
  shape (Z.to_nat parts) (n0 + 3) out ->
  (idx0 + length vals = n0)%nat ->
  (length vals * Z.to_nat (threshold - 1) <= length tape)%nat ->
  exists out',
    secret_loop xC parts threshold (Z.of_nat n0) tape (Z.of_nat idx0) vals out
      = Ok out' /\
    shape (Z.to_nat parts) (n0 + 3) out' /\
    forall r row, out !! r = Some row ->
      out' !! r =
        Some (fill_row (x_coordinate xC (Z.of_nat r))
                (Z.to_nat (threshold - 1)) n0 tape idx0 vals row).
Proof.
  intros HxC Hparts Ht. induction vals as [|val rest IH];
    intros tape idx0 out Hshape Hn Htape.
  - exists out. split_and!; done.
  - simpl in Hn, Htape. simpl.
    assert (Hu : uint8 (threshold - 1) = threshold - 1).
    { unfold uint8. apply Z.mod_small. lia. }
    assert (Hd : (Z.to_nat (threshold - 1) <= length tape)%nat) by nia.
    rewrite Hu.
    rewrite (makePolynomial_Ok tape val (threshold - 1) ltac:(lia) Hd).
    simpl.
    destruct (take (Z.to_nat (threshold - 1)) tape) as [|c1 cs] eqn:Htake.
    { apply (f_equal length) in Htake. rewrite length_take in Htake.
      simpl in Htake. lia. }
    assert (Hc1 : nth 0 tape 0 = c1).
    { rewrite nth_lookup.
      rewrite <- (lookup_take_lt tape (Z.to_nat (threshold - 1)) 0) by lia.
      by rewrite Htake. }
    destruct (part_loop_rows xC n0 idx0 (Z.to_nat parts) val c1 cs (upto parts))
      with (out := out) as (out1 & Hrun1 & Hshape1 & Hrows1); auto; [lia | | |].
    { apply NoDup_upto. }
    { intros i Hi. apply elem_of_upto in Hi. lia. }
    rewrite Hrun1. simpl.
    replace (Z.of_nat idx0 + 1) with (Z.of_nat (S idx0)) by lia.
    destruct (IH (drop (Z.to_nat (threshold - 1)) tape) (S idx0) out1)
      as (out' & Hrun & Hshape' & Hrows'); auto; [lia | |].
    { rewrite length_drop. nia. }
    exists out'. split_and!; auto.
    intros r row Hr.
    assert (Hlt : (r < Z.to_nat parts)%nat).
    { destruct Hshape as [<- _]. eapply lookup_lt_Some; eauto. }
    rewrite (Hrows' r _ (Hrows1 r row Hr)).
    rewrite decide_True by (apply elem_of_upto; lia).
    by rewrite Hc1.
Qed.

Lemma upd_row_lookup n idx y c0 c1 row :
  length row = (n + 3)%nat -> (idx < n)%nat ->
  length (upd_row n idx y c0 c1 row) = (n + 3)%nat /\
  upd_row n idx y c0 c1 row !! idx = Some y /\
  upd_row n idx y c0 c1 row !! (n + 1)%nat = Some c0 /\
  upd_row n idx y c0 c1 row !! (n + 2)%nat = Some c1 /\
  (forall j, j <> idx -> j <> (n + 1)%nat -> j <> (n + 2)%nat ->
     upd_row n idx y c0 c1 row !! j = row !! j).
Proof.
  intros Hlen Hidx. unfold upd_row. split_and!.
  - by rewrite !length_insert.
  - rewrite !list_lookup_insert_ne by lia. apply list_lookup_insert_eq. lia.
  - rewrite list_lookup_insert_ne by lia. apply list_lookup_insert_eq.
    rewrite length_insert. lia.
  - apply list_lookup_insert_eq. rewrite !length_insert. lia.
  - intros j H1 H2 H3. by rewrite !list_lookup_insert_ne by lia.
Qed.

(** The cells of a row after the loop over the secret. *)
Lemma fill_row_lookup x d n vals :
  forall tape idx row,
  length row = (n + 3)%nat -> (idx + length vals = n)%nat ->
  length (fill_row x d n tape idx vals row) = (n + 3)%nat /\
  (forall j, (j < idx)%nat -> fill_row x d n tape idx vals row !! j = row !! j) /\
  (forall k val, vals !! k = Some val ->
     fill_row x d n tape idx vals row !! (idx + k)%nat =
       Some (poly_value (val :: take d (drop (k * d) tape)) x)) /\
  fill_row x d n tape idx vals row !! n = row !! n /\
  (vals <> [] ->
   fill_row x d n tape idx vals row !! (n + 1)%nat = last vals /\
   fill_row x d n tape idx vals row !! (n + 2)%nat =
     Some (nth ((length vals - 1) * d) tape 0)).
Proof.
  induction vals as [|v rest IH]; intros tape idx row Hlen Hn.
  - simpl. split_and!; try done.
  - simpl in Hn. simpl fill_row.
    set (y := poly_value (v :: take d tape) x).
    set (c1 := nth 0 tape 0).
    destruct (upd_row_lookup n idx y v c1 row Hlen ltac:(lia))
      as (Hl1 & Hy & Hv & Hc & Hother).
    destruct (IH (drop d tape) (S idx) (upd_row n idx y v c1 row) Hl1 ltac:(lia))
      as (Hl & Hlow & Hvals & Hx & Hlast).
    split_and!.
    + done.
    + intros j Hj. rewrite Hlow by lia. apply Hother; lia.
    + intros [|k] val Hk.
      * injection Hk as <-. rewrite Nat.add_0_r, Hlow by lia. by rewrite Hy.
      * simpl in Hk. replace (idx + S k)%nat with (S idx + k)%nat by lia.
        rewrite (Hvals k val Hk), drop_drop.
        by replace (S k * d)%nat with (d + k * d)%nat by lia.
    + rewrite Hx. apply Hother; lia.
    + intros _. destruct rest as [|v' rest'].
      * simpl. by rewrite Hv, Hc.
      * destruct (Hlast ltac:(done)) as [H1 H2]. split; [by rewrite H1 |].
        rewrite H2. f_equal. rewrite !nth_lookup, lookup_drop. do 2 f_equal.
        simpl. lia.
Qed.

Lemma fill_row_expected xC tape secret threshold i :
  secret <> [] ->
  fill_row (x_coordinate xC i) (Z.to_nat (threshold - 1)) (length secret) tape 0
    secret
    (<[length secret := x_coordinate xC i]> (replicate (length secret + 3) 0))
  = expected_share xC tape secret threshold i.
Proof.
  intros Hne.
  set (row := <[length secret := _]> _).
  assert (Hrow : length row = (length secret + 3)%nat).
  { unfold row. by rewrite length_insert, length_replicate. }
  destruct (fill_row_lookup (x_coordinate xC i) (Z.to_nat (threshold - 1))
              (length secret) secret tape 0 row Hrow eq_refl)
    as (Hl & _ & Hvals & Hx & Hlast).
  destruct (Hlast Hne) as [H1 H2].
  destruct (last secret) as [b|] eqn:Hb; [| by apply last_None in Hb].
  apply list_eq. intros j. unfold expected_share.
  destruct (decide (j < length secret)%nat) as [Hj | Hj].
  - rewrite lookup_app_l by (by rewrite length_imap).
    rewrite list_lookup_imap.
    destruct (lookup_lt_is_Some_2 secret j Hj) as [val Hval].
    rewrite Hval. simpl. pose proof (Hvals j val Hval) as Hcell.
    change (0 + j)%nat with j in Hcell. by rewrite Hcell.
  - rewrite lookup_app_r by (rewrite length_imap; lia). rewrite length_imap.
    destruct (j - length secret)%nat as [|[|[|k]]] eqn:Hk; simpl.
    + replace j with (length secret) by lia. rewrite Hx. unfold row.
      apply list_lookup_insert_eq. rewrite length_replicate. lia.
    + replace j with (length secret + 1)%nat by lia. by rewrite H1, Hb.
    + replace j with (length secret + 2)%nat by lia. by rewrite H2.
    + apply lookup_ge_None. lia.
Qed.

(** Split, on an accepted input with enough random bytes, returns for each
    part the share that [expected_share] describes. *)
Lemma Split_rows xC tape secret parts threshold :
  valid_split_input secret parts threshold ->
  length xC = 255%nat ->
  (length secret * Z.to_nat (threshold - 1) <= length tape)%nat ->
  Split xC tape secret parts threshold =
    Ok (map (expected_share xC tape secret threshold) (upto parts)).
Proof.
  intros (Ht & Hp & Hs) HxC Htape. unfold Split.
  destruct (Z.ltb_spec parts threshold); [lia |].
  destruct (Z.gtb_spec parts 255); [lia |].
  destruct (Z.ltb_spec threshold 2); [lia |].
  destruct (Z.gtb_spec threshold 255); [lia |].
  destruct (Z.eqb_spec (Z.of_nat (length secret)) 0) as [Hz|Hne].
  { destruct secret; [done | simpl in Hz; lia]. }
  rewrite make_Ok by lia. simpl. rewrite length_replicate.
  destruct (alloc_loop_rows xC (Z.of_nat (length secret)) (Z.to_nat parts)
              (upto (Z.of_nat (Z.to_nat parts)))) with
      (out := replicate (Z.to_nat parts) ([] : list Z))
    as (out0 & Hrun0 & Hl0 & Hrows0).
  { lia. }
  { apply NoDup_upto. }
  { intros i Hi. apply elem_of_upto in Hi. lia. }
  { by rewrite length_replicate. }
  rewrite Hrun0. simpl.
  assert (Hshape0 : shape (Z.to_nat parts) (length secret + 3) out0).
  { split; [done |]. intros r row Hr.
    assert (Hlt : (r < Z.to_nat parts)%nat).
    { rewrite <- Hl0. eapply lookup_lt_Some; eauto. }
    rewrite (Hrows0 r Hlt) in Hr.
    rewrite decide_True in Hr by (apply elem_of_upto; lia).
    injection Hr as <-. rewrite length_insert, length_replicate. lia. }
  destruct (secret_loop_rows xC parts threshold (length secret) secret)
    with (tape := tape) (idx0 := 0%nat) (out := out0)
    as (out' & Hrun & [Hl Hw] & Hrows); auto; try lia.
  change (Z.of_nat 0) with 0 in Hrun. rewrite Hrun. f_equal.
  apply list_eq. intros r. rewrite list_lookup_fmap.
  destruct (decide (r < Z.to_nat parts)%nat) as [Hr | Hr].
  - assert (Hup : upto parts !! r = Some (Z.of_nat r)).
    { unfold upto. rewrite list_lookup_fmap, lookup_seq_lt by done. done. }
    rewrite Hup. simpl.
    pose proof (Hrows0 r Hr) as Hrow0.
    rewrite decide_True in Hrow0 by (apply elem_of_upto; lia).
    rewrite (Hrows r _ Hrow0). f_equal.
    rewrite Nat2Z.id.
    replace (Z.to_nat (Z.of_nat (length secret) + 3)) with (length secret + 3)%nat
      by lia.
    by apply fill_row_expected.
  - rewrite (lookup_ge_None_2 out') by lia.
    rewrite (lookup_ge_None_2 (upto parts)) by (rewrite length_upto; lia). done.
Qed.

End SplitClosedForm.

(** ** Shamir: what Combine computes *)

Section CombineClosedForm.
Import shamir.

Lemma lxor_eq_0 a b : Z.lxor a b = 0 <-> a = b.
Proof. apply Z.lxor_eq_0_iff. Qed.

Lemma div_quotient a b : b <> 0 -> div a b = Ok (quotient a b).
Proof.
  intros Hb. unfold quotient, div.
  destruct (Z.eqb_spec b 0); [done | done].
Qed.

(** The inner loop, from position [k] on. *)
Lemma basis_loop_value xs x (i : nat) xi :
  NoDup xs -> xs !! i = Some xi ->
  forall (m k : nat) basis,
  (k + m = length xs)%nat ->
  basis_loop xs x (Z.of_nat i) (map Z.of_nat (seq k m)) basis =
    Ok (foldl (fun basis xj =>
                 if xj =? xi then basis
                 else mult basis (quotient (add x xj) (add xi xj)))
          basis (drop k xs)).
Proof.
  intros Hnd Hxi. induction m as [|m IH]; intros k basis Hk.
  - simpl. by rewrite drop_ge by lia.
  - destruct (lookup_lt_is_Some_2 xs k) as [xj Hxj]; [lia |].
    rewrite (drop_S xs xj k Hxj). simpl.
    destruct (Z.eqb_spec (Z.of_nat i) (Z.of_nat k)) as [Heq | Hne].
    + assert (i = k) as -> by lia. assert (xj = xi) as -> by congruence.
      rewrite Z.eqb_refl. apply IH. lia.
    + assert (Hxne : xj <> xi).
      { intros ->. apply Hne. f_equal. eapply NoDup_lookup; eauto. }
      destruct (Z.eqb_spec xj xi) as [? | _]; [done |].
      rewrite (index_nth xs (Z.of_nat k) 0) by lia.
      rewrite (index_nth xs (Z.of_nat i) 0)
        by (apply lookup_lt_Some in Hxi; lia).
      simpl. rewrite !Nat2Z.id, !nth_lookup, Hxj, Hxi. simpl.
      rewrite div_quotient.
      * simpl. apply IH. lia.
      * unfold add. rewrite lxor_eq_0. congruence.
Qed.

Lemma lagrange_loop_value xs ys x :
  NoDup xs -> length ys = length xs ->
  forall (m k : nat) result,
  (k + m = length xs)%nat ->
  lagrange_loop xs ys x (Z.of_nat (length xs)) (map Z.of_nat (seq k m)) result =
    Ok (lagrange_sum xs x (drop k (zip xs ys)) result).
Proof.
  intros Hnd Hlen. induction m as [|m IH]; intros k result Hk.
  - simpl. rewrite drop_ge; [done |]. rewrite length_zip_with. lia.
  - destruct (lookup_lt_is_Some_2 xs k) as [xi Hxi]; [lia |].
    destruct (lookup_lt_is_Some_2 ys k) as [yi Hyi]; [lia |].
    assert (Hz : zip xs ys !! k = Some (xi, yi)).
    { rewrite lookup_zip_with, Hxi. simpl. by rewrite Hyi. }
    rewrite (drop_S _ _ k Hz). simpl.
    pose proof (basis_loop_value xs x k xi Hnd Hxi (length xs) 0 1 eq_refl) as Hb.
    rewrite drop_0 in Hb. unfold upto. rewrite Nat2Z.id, Hb. simpl.
    rewrite (index_nth ys (Z.of_nat k) 0) by lia. simpl.
    rewrite Nat2Z.id, nth_lookup, Hyi. simpl.
    rewrite IH by lia. done.
Qed.

(** With different x samples, and as many y samples,
    [interpolatePolynomial] returns the Lagrange value and never panics. *)
Lemma interpolatePolynomial_value xs ys x :
  NoDup xs -> length ys = length xs ->
  interpolatePolynomial xs ys x = Ok (lagrange_value xs ys x).
Proof.
  intros Hnd Hlen. unfold interpolatePolynomial, lagrange_value.
  unfold upto at 1. rewrite Nat2Z.id.
  rewrite (lagrange_loop_value xs ys x Hnd Hlen (length xs) 0 0 eq_refl).
  by rewrite drop_0.
Qed.

Lemma lengths_loop_Ok len rest :
  Forall (fun part : list Z => length part = len) rest ->
  lengths_loop (Z.of_nat len) rest = Ok tt.
Proof.
  induction 1 as [|part rest Hpart _ IH]; [done |]. simpl.
  rewrite Hpart, Z.eqb_refl. done.
Qed.

Lemma lengths_loop_Err len rest :
  ~ Forall (fun part : list Z => length part = len) rest ->
  lengths_loop (Z.of_nat len) rest = Err "all parts must be the same length".
Proof.
  induction rest as [|part rest IH]; intros Hbad.
  - destruct Hbad. constructor.
  - simpl. destruct (Z.eqb_spec (Z.of_nat (length part)) (Z.of_nat len)) as [Heq | Hne].
    + simpl. apply IH. intros Hall. apply Hbad. constructor; [lia | done].
    + done.
Qed.

Lemma take_S_insert {A : Type} (l : list A) (i : nat) (x : A) :
  (i < length l)%nat -> take (S i) (<[i := x]> l) = take i l ++ [x].
Proof.
  intros Hi. rewrite (take_S_r _ _ x) by (by apply list_lookup_insert_eq).
  by rewrite take_insert_ge by lia.
Qed.

(** The loop over the parts that reads the x coordinates: with different
    coordinates, none of them seen before, it stores them from position [i]
    on. *)
Lemma samples_loop_Ok len rest :
  (3 <= len)%nat ->
  Forall (fun part : list Z => length part = len) rest ->
  NoDup (tags len rest) ->
  forall (i : nat) (checkMap : gmap Z bool) xSamples,
  (forall t, t ∈ tags len rest -> checkMap !! t = None) ->
  (i + length rest <= length xSamples)%nat ->
  samples_loop (Z.of_nat len) rest (Z.of_nat i) checkMap xSamples =
    Ok (take i xSamples ++ tags len rest ++ drop (i + length rest) xSamples).
Proof.
  intros Hlen Hall. induction Hall as [|part rest Hpart _ IH];
    intros Hnd i checkMap xSamples Hfresh Hi.
  - simpl. rewrite Nat.add_0_r. by rewrite take_drop.
  - simpl in *. apply NoDup_cons in Hnd as [Hnotin Hnd].
    rewrite (index_nth part _ 0) by lia. simpl.
    replace (Z.to_nat (Z.of_nat len - 3)) with (len - 3)%nat by lia.
    rewrite (Hfresh (nth (len - 3) part 0)) by left. simpl.
    rewrite assign_in_range by lia. simpl.
    replace (Z.of_nat i + 1) with (Z.of_nat (S i)) by lia.
    rewrite IH; [| done | | rewrite length_insert; lia].
    + f_equal. rewrite Nat2Z.id, take_S_insert by lia.
      rewrite <- app_assoc. simpl. do 3 f_equal.
      rewrite drop_insert_lt by lia. f_equal. lia.
    + intros t Ht. rewrite lookup_insert_ne; [apply Hfresh; by right |].
      intros Heq. apply Hnotin. by rewrite Heq.
Qed.

(** A coordinate that was seen before stops the loop with an error. *)
Lemma samples_loop_Err len rest :
  (3 <= len)%nat ->
  Forall (fun part : list Z => length part = len) rest ->
  forall (i : nat) (checkMap : gmap Z bool) xSamples,
  (forall t b, checkMap !! t = Some b -> b = true) ->
  (i + length rest <= length xSamples)%nat ->
  (exists t, t ∈ tags len rest /\ checkMap !! t = Some true) \/
    ~ NoDup (tags len rest) ->
  samples_loop (Z.of_nat len) rest (Z.of_nat i) checkMap xSamples =
    Err "duplicate part detected".
Proof.
  intros Hlen Hall. induction Hall as [|part rest Hpart _ IH];
    intros i checkMap xSamples Htrue Hi Hdup.
  - destruct Hdup as [(t & Ht & _) | Hnd].
    + by apply elem_of_nil in Ht.
    + destruct Hnd. constructor.
  - simpl in *. rewrite (index_nth part _ 0) by lia. simpl.
    replace (Z.to_nat (Z.of_nat len - 3)) with (len - 3)%nat by lia.
    set (samp := nth (len - 3) part 0) in *.
    destruct (checkMap !! samp) as [b|] eqn:Hsamp.
    { rewrite (Htrue samp b Hsamp). done. }
    simpl. rewrite assign_in_range by lia. simpl.
    replace (Z.of_nat i + 1) with (Z.of_nat (S i)) by lia.
    apply IH.
    + intros t b. destruct (decide (samp = t)) as [<- | Hne].
      * rewrite lookup_insert_eq. by intros [= <-].
      * rewrite lookup_insert_ne by done. apply Htrue.
    + rewrite length_insert. lia.
    + destruct Hdup as [(t & Ht & Hseen) | Hnd].
      * apply elem_of_cons in Ht as [-> | Ht]; [congruence |].
        left. exists t. split; [done |].
        destruct (decide (samp = t)) as [<- | Hne]; [apply lookup_insert_eq |].
        by rewrite lookup_insert_ne.
      * destruct (decide (samp ∈ tags len rest)) as [Hin | Hnotin].
        -- left. exists samp. split; [done | apply lookup_insert_eq].
        -- right. intros Hnd'. apply Hnd. by apply NoDup_cons.
Qed.

(** The loop that reads the y samples overwrites the buffer from position
    [i] on with the bytes of the parts at [idx]. *)
Lemma ysamples_loop_Ok (idx : nat) rest :
  Forall (fun part : list Z => (idx < length part)%nat) rest ->
  forall (i : nat) ySamples,
  (i + length rest <= length ySamples)%nat ->
  ysamples_loop (Z.of_nat idx) rest (Z.of_nat i) ySamples =
    Ok (take i ySamples ++ column idx rest ++ drop (i + length rest) ySamples).
Proof.
  induction 1 as [|part rest Hpart _ IH]; intros i ySamples Hi.
  - simpl. rewrite Nat.add_0_r. by rewrite take_drop.
  - simpl in *. rewrite (index_nth part _ 0) by lia. simpl.
    rewrite Nat2Z.id. rewrite assign_in_range by lia. simpl.
    replace (Z.of_nat i + 1) with (Z.of_nat (S i)) by lia.
    rewrite IH by (rewrite length_insert; lia).
    f_equal. rewrite Nat2Z.id, take_S_insert by lia.
    rewrite <- app_assoc. simpl. do 3 f_equal.
    rewrite drop_insert_lt by lia. f_equal. lia.
Qed.

Lemma reconstruct_loop_value len parts xSamples :
  xSamples = tags len parts -> NoDup xSamples ->
  Forall (fun part : list Z => length part = len) parts ->
  forall (m k : nat) ySamples secret,
  (k + m = len - 1)%nat -> (1 <= len)%nat ->
  length ySamples = length parts ->
  length secret = (len - 1)%nat ->
  reconstruct_loop parts xSamples (map Z.of_nat (seq k m)) ySamples secret =
    Ok (take k secret ++
        map (fun idx => lagrange_value xSamples (column idx parts) 0) (seq k m)).
Proof.
  intros Hxs Hnd Hall. induction m as [|m IH];
    intros k ySamples secret Hk Hlen HyS Hsec.
  - simpl. rewrite app_nil_r. rewrite take_ge by lia. done.
  - simpl.
    rewrite (ysamples_loop_Ok k parts) with (i := 0%nat) by
      (first [ eapply Forall_impl; [exact Hall | simpl; intros; lia] | lia ]).
    simpl. rewrite drop_ge by lia. rewrite app_nil_r.
    rewrite interpolatePolynomial_value;
      [ | done | rewrite Hxs; unfold column, tags; by rewrite !length_map ].
    simpl. rewrite assign_in_range by lia. simpl.
    rewrite IH; [ | lia | done | by unfold column; rewrite length_map
                  | by rewrite length_insert ].
    f_equal. rewrite Nat2Z.id, take_S_insert by lia.
    by rewrite <- app_assoc.
Qed.

Lemma obind_Ok_eq {A B : Type} (a : A) (k : A -> outcome B) :
  obind (Ok a) k = k a.
Proof. reflexivity. Qed.

(** Combine on at least two parts of the same length, three bytes or more,
    with different x coordinates. *)
Lemma Combine_value len parts :
  (2 <= length parts)%nat -> (3 <= len)%nat ->
  Forall (fun part : list Z => length part = len) parts ->
  NoDup (tags len parts) ->
  Combine parts = Ok (combined len parts).
Proof.
  intros Hparts Hlen Hall Hnd. unfold Combine.
  destruct (Z.ltb_spec (Z.of_nat (length parts)) 2); [lia |].
  destruct parts as [|part0 rest]; [simpl in Hparts; lia |].
  pose proof (Forall_inv Hall) as Hpart0. simpl in Hpart0.
  change (index (part0 :: rest) 0) with (Ok part0 : outcome (list Z)).
  rewrite ?obind_Ok_eq; cbv beta. rewrite Hpart0.
  destruct (Z.ltb_spec (Z.of_nat len) 2); [lia |].
  change (drop 1 (part0 :: rest)) with rest.
  rewrite lengths_loop_Ok by (by apply Forall_inv_tail in Hall).
  rewrite ?obind_Ok_eq; cbv beta. rewrite !make_Ok by lia. rewrite ?obind_Ok_eq; cbv beta.
  pose proof (samples_loop_Ok len (part0 :: rest) Hlen Hall Hnd 0 ∅
                (replicate (Z.to_nat (Z.of_nat (length (part0 :: rest)))) 0)
                (fun t _ => lookup_empty t)) as Hsamples.
  rewrite length_replicate in Hsamples. specialize (Hsamples ltac:(lia)).
  change (Z.of_nat 0) with 0 in Hsamples. rewrite Hsamples. clear Hsamples.
  rewrite ?obind_Ok_eq; cbv beta. rewrite take_0, drop_ge by (rewrite length_replicate; lia).
  rewrite app_nil_r. simpl app.
  rewrite length_replicate. unfold upto. rewrite !Nat2Z.id.
  replace (Z.to_nat (Z.of_nat len - 1)) with (len - 1)%nat by lia.
  rewrite (reconstruct_loop_value len (part0 :: rest) _ eq_refl Hnd Hall
             (len - 1) 0); try lia.
  - by rewrite take_0.
  - by rewrite length_replicate.
  - by rewrite length_replicate.
Qed.

End CombineClosedForm.

(** ** Shamir: the arithmetic of GF(2^8) *)

Section GaloisArithmetic.
Import shamir.

Lemma byteb_true z : byteb z = true <-> is_byte z.
Proof. unfold byteb, is_byte. rewrite andb_true_iff, Z.leb_le, Z.ltb_lt. tauto. Qed.

Lemma all_bytes_spec P :
  all_bytes P = true -> forall a, is_byte a -> P a = true.
Proof.
  unfold all_bytes. rewrite forallb_forall. intros Hall a Ha.
  apply Hall, list_elem_of_In, elem_of_upto. exact Ha.
Qed.

Lemma all_byte_pairs_spec P :
  all_byte_pairs P = true ->
  forall a b, is_byte a -> is_byte b -> P a b = true.
Proof.
  unfold all_byte_pairs. rewrite forallb_forall. intros Hall a b Ha Hb.
  specialize (Hall a ltac:(apply list_elem_of_In, elem_of_upto; exact Ha)).
  rewrite forallb_forall in Hall.
  apply Hall, list_elem_of_In, elem_of_upto. exact Hb.
Qed.

Lemma add_byte a b : is_byte a -> is_byte b -> is_byte (add a b).
Proof.
  intros Ha Hb. apply byteb_true.
  apply (all_byte_pairs_spec (fun a b => byteb (add a b))); [| done | done].
  vm_compute. reflexivity.
Qed.

Lemma mult_byte a b : is_byte a -> is_byte b -> is_byte (mult a b).
Proof.
  intros Ha Hb. apply byteb_true.
  apply (all_byte_pairs_spec (fun a b => byteb (mult a b))); [| done | done].
  vm_compute. reflexivity.
Qed.

Lemma mult_comm a b : mult a b = mult b a.
Proof.
  unfold mult. rewrite (Z.add_comm (tbl logTable a)).
  destruct (a =? 0), (b =? 0); reflexivity.
Qed.

Lemma mult_0_l b : mult 0 b = 0.
Proof. unfold mult. simpl. by destruct (b =? 0). Qed.

Lemma mult_0_r a : mult a 0 = 0.
Proof. by rewrite mult_comm, mult_0_l. Qed.

Lemma mult_1_l a : is_byte a -> mult 1 a = a.
Proof.
  intros Ha. apply Z.eqb_eq.
  apply (all_bytes_spec (fun a => mult 1 a =? a)); [| done].
  vm_compute. reflexivity.
Qed.

Lemma gexp_glog a : is_byte a -> a <> 0 -> gexp (glog a) = a.
Proof.
  intros Ha Hne.
  assert (Hall : (a =? 0) || (gexp (glog a) =? a) = true).
  { apply (all_bytes_spec (fun a => (a =? 0) || (gexp (glog a) =? a))); [| done].
    vm_compute. reflexivity. }
  apply orb_true_iff in Hall as [H0 | H1]; [apply Z.eqb_eq in H0; done |].
  by apply Z.eqb_eq.
Qed.

Lemma glog_gexp i :
  0 <= i < 255 -> is_byte (gexp i) /\ gexp i <> 0 /\ glog (gexp i) = i.
Proof.
  intros Hi.
  assert (Hall : (255 <=? i) ||
            (byteb (gexp i) && negb (gexp i =? 0) && (glog (gexp i) =? i)) = true).
  { apply (all_bytes_spec (fun i => (255 <=? i) ||
            (byteb (gexp i) && negb (gexp i =? 0) && (glog (gexp i) =? i))));
      [| unfold is_byte; lia].
    vm_compute. reflexivity. }
  apply orb_true_iff in Hall as [H0 | H1]; [apply Z.leb_le in H0; lia |].
  apply andb_true_iff in H1 as [H1 H3]. apply andb_true_iff in H1 as [H1 H2].
  apply byteb_true in H1. apply negb_true_iff, Z.eqb_neq in H2.
  apply Z.eqb_eq in H3. done.
Qed.

Lemma glog_range a : 0 <= glog a < 255.
Proof. unfold glog. apply Z.mod_pos_bound. lia. Qed.

(** The product of two non-zero bytes is the power of the generator whose
    exponent is the sum of their exponents. *)
Lemma mult_gexp a b :
  is_byte a -> is_byte b -> a <> 0 -> b <> 0 ->
  mult a b = gexp ((glog a + glog b) mod 255).
Proof.
  intros Ha Hb Ha0 Hb0.
  assert (Hall : (a =? 0) || (b =? 0) ||
                 (mult a b =? gexp ((glog a + glog b) mod 255)) = true).
  { apply (all_byte_pairs_spec (fun a b => (a =? 0) || (b =? 0) ||
                 (mult a b =? gexp ((glog a + glog b) mod 255)))); [| done | done].
    vm_compute. reflexivity. }
  apply orb_true_iff in Hall as [H0 | H1]; [| by apply Z.eqb_eq].
  apply orb_true_iff in H0 as [H0 | H0]; apply Z.eqb_eq in H0; done.
Qed.

Lemma mult_nonzero a b :
  is_byte a -> is_byte b -> a <> 0 -> b <> 0 ->
  mult a b <> 0 /\ glog (mult a b) = (glog a + glog b) mod 255.
Proof.
  intros Ha Hb Ha0 Hb0. rewrite mult_gexp by done.
  destruct (glog_gexp ((glog a + glog b) mod 255)) as (_ & H1 & H2); [| done].
  apply Z.mod_pos_bound. lia.
Qed.

Lemma mult_assoc a b c :
  is_byte a -> is_byte b -> is_byte c ->
  mult (mult a b) c = mult a (mult b c).
Proof.
  intros Ha Hb Hc.
  destruct (decide (a = 0)) as [-> | Ha0]; [by rewrite !mult_0_l |].
  destruct (decide (b = 0)) as [-> | Hb0];
    [by rewrite mult_0_r, !mult_0_l, mult_0_r |].
  destruct (decide (c = 0)) as [-> | Hc0]; [by rewrite !mult_0_r |].
  destruct (mult_nonzero a b) as [Hab Hlab]; try done.
  destruct (mult_nonzero b c) as [Hbc Hlbc]; try done.
  rewrite (mult_gexp (mult a b) c), (mult_gexp a (mult b c));
    try done; try by apply mult_byte.
  rewrite Hlab, Hlbc. f_equal.
  rewrite Z.add_mod_idemp_l, Z.add_mod_idemp_r by lia. f_equal. lia.
Qed.

(** Multiplication by the generator is linear. *)
Lemma mult_generator_linear b c :
  is_byte b -> is_byte c ->
  mult (gexp 1) (add b c) = add (mult (gexp 1) b) (mult (gexp 1) c).
Proof.
  intros Hb Hc. apply Z.eqb_eq.
  apply (all_byte_pairs_spec (fun b c =>
           mult (gexp 1) (add b c) =? add (mult (gexp 1) b) (mult (gexp 1) c)));
    [| done | done].
  vm_compute. reflexivity.
Qed.

Lemma mult_gexp_linear (i : nat) :
  (i < 255)%nat -> forall b c, is_byte b -> is_byte c ->
  mult (gexp (Z.of_nat i)) (add b c) =
    add (mult (gexp (Z.of_nat i)) b) (mult (gexp (Z.of_nat i)) c).
Proof.
  induction i as [|i IH]; intros Hi b c Hb Hc.
  - change (gexp (Z.of_nat 0)) with 1.
    rewrite !mult_1_l; [done | done | done | by apply add_byte].
  - destruct (glog_gexp 1) as (Hg & Hg0 & Hlg); [lia |].
    destruct (glog_gexp (Z.of_nat i)) as (He & He0 & Hle); [lia |].
    assert (Hstep : gexp (Z.of_nat (S i)) = mult (gexp 1) (gexp (Z.of_nat i))).
    { rewrite mult_gexp by done. rewrite Hlg, Hle. f_equal.
      rewrite Z.mod_small by lia. lia. }
    rewrite Hstep. rewrite !mult_assoc; try done; try by apply add_byte.
    rewrite IH by (done || lia).
    apply mult_generator_linear; by apply mult_byte.
Qed.

Lemma mult_add_distr_l a b c :
  is_byte a -> is_byte b -> is_byte c ->
  mult a (add b c) = add (mult a b) (mult a c).
Proof.
  intros Ha Hb Hc.
  destruct (decide (a = 0)) as [-> | Ha0]; [by rewrite !mult_0_l |].
  rewrite <- (gexp_glog a Ha Ha0).
  pose proof (glog_range a) as Hr.
  rewrite <- (Z2Nat.id (glog a)) by lia.
  apply mult_gexp_linear; [lia | done | done].
Qed.

(** Division undoes multiplication. *)
Lemma quotient_spec a b :
  is_byte a -> is_byte b -> b <> 0 ->
  is_byte (quotient a b) /\ mult (quotient a b) b = a /\
  quotient a b = mult a (quotient 1 b).
Proof.
  intros Ha Hb Hb0.
  assert (Hall : (b =? 0) ||
            (byteb (quotient a b) && (mult (quotient a b) b =? a) &&
             (quotient a b =? mult a (quotient 1 b))) = true).
  { apply (all_byte_pairs_spec (fun a b => (b =? 0) ||
            (byteb (quotient a b) && (mult (quotient a b) b =? a) &&
             (quotient a b =? mult a (quotient 1 b))))); [| done | done].
    vm_compute. reflexivity. }
  apply orb_true_iff in Hall as [H0 | H1]; [apply Z.eqb_eq in H0; done |].
  apply andb_true_iff in H1 as [H1 H3]. apply andb_true_iff in H1 as [H1 H2].
  apply byteb_true in H1. apply Z.eqb_eq in H2, H3. done.
Qed.

End GaloisArithmetic.

(** ** Shamir: GF(2^8) as a field *)

From Stdlib Require Import Ring Field.

Section GaloisField.
Import shamir.

Lemma to_Z_byte a : is_byte (to_Z a).
Proof.
  unfold to_Z, is_byte. pose proof (Byte.to_N_bounded a) as Hb.
  lia.
Qed.

Lemma to_of_Z z : is_byte z -> to_Z (of_Z z) = z.
Proof.
  intros Hz. unfold to_Z, of_Z. rewrite Z.mod_small by exact Hz.
  destruct (Byte.of_N (Z.to_N z)) as [b|] eqn:Hb.
  - apply Byte.to_of_N in Hb. rewrite Hb. unfold is_byte in Hz. lia.
  - apply Byte.of_N_None_iff in Hb. unfold is_byte in Hz. lia.
Qed.

Lemma of_to_Z a : of_Z (to_Z a) = a.
Proof.
  unfold of_Z. pose proof (to_Z_byte a) as Ha.
  rewrite Z.mod_small by exact Ha. unfold to_Z.
  by rewrite N2Z.id, Byte.of_to_N.
Qed.

Lemma to_Z_inj a b : to_Z a = to_Z b -> a = b.
Proof. intros Heq. by rewrite <- (of_to_Z a), <- (of_to_Z b), Heq. Qed.

Lemma to_Z_fadd a b : to_Z (fadd a b) = add (to_Z a) (to_Z b).
Proof. apply to_of_Z, add_byte; apply to_Z_byte. Qed.

Lemma to_Z_fmul a b : to_Z (fmul a b) = mult (to_Z a) (to_Z b).
Proof. apply to_of_Z, mult_byte; apply to_Z_byte. Qed.

Lemma to_Z_zero_iff a : to_Z a = 0 <-> a = x00.
Proof. split; [intros Ha; by apply to_Z_inj | by intros ->]. Qed.

Lemma to_Z_fdiv a b : b <> x00 -> to_Z (fdiv a b) = quotient (to_Z a) (to_Z b).
Proof.
  intros Hb. apply to_of_Z.
  apply quotient_spec; [apply to_Z_byte | apply to_Z_byte |].
  by rewrite to_Z_zero_iff.
Qed.

Lemma GF_ring : ring_theory x00 x01 fadd fmul fsub fopp eq.
Proof.
  constructor.
  - intros x. apply to_Z_inj. rewrite to_Z_fadd. apply Z.lxor_0_l.
  - intros x y. apply to_Z_inj. rewrite !to_Z_fadd. apply Z.lxor_comm.
  - intros x y z. apply to_Z_inj. rewrite !to_Z_fadd.
    unfold add. by rewrite Z.lxor_assoc.
  - intros x. apply to_Z_inj. rewrite to_Z_fmul. apply mult_1_l, to_Z_byte.
  - intros x y. apply to_Z_inj. rewrite !to_Z_fmul. apply mult_comm.
  - intros x y z. apply to_Z_inj. rewrite !to_Z_fmul.
    symmetry. apply mult_assoc; apply to_Z_byte.
  - intros x y z. apply to_Z_inj. rewrite to_Z_fmul, !to_Z_fadd, !to_Z_fmul.
    rewrite (mult_comm _ (to_Z z)), mult_add_distr_l by apply to_Z_byte.
    by rewrite !(mult_comm (to_Z z)).
  - reflexivity.
  - intros x. apply to_Z_inj. unfold fopp. rewrite to_Z_fadd. apply Z.lxor_nilpotent.
Qed.

Lemma GF_field : field_theory x00 x01 fadd fmul fsub fopp fdiv finv eq.
Proof.
  constructor.
  - apply GF_ring.
  - discriminate.
  - intros p q. destruct (decide (q = x00)) as [-> | Hq].
    + apply to_Z_inj. rewrite to_Z_fmul. unfold fdiv, finv.
      change (to_Z x00) with 0. change (quotient 1 0) with 0.
      change (quotient (to_Z p) 0) with 0. change (to_Z (of_Z 0)) with 0.
      by rewrite mult_0_r.
    + apply to_Z_inj. rewrite to_Z_fmul, to_Z_fdiv by done.
      unfold finv. rewrite to_of_Z.
      * apply quotient_spec; [apply to_Z_byte | apply to_Z_byte |].
        by rewrite to_Z_zero_iff.
      * apply quotient_spec; [done | apply to_Z_byte |].
        by rewrite to_Z_zero_iff.
  - intros p Hp. apply to_Z_inj. rewrite to_Z_fmul. unfold finv.
    rewrite to_of_Z.
    + apply quotient_spec; [done | apply to_Z_byte |]. by rewrite to_Z_zero_iff.
    + apply quotient_spec; [done | apply to_Z_byte |]. by rewrite to_Z_zero_iff.
Qed.

End GaloisField.

Add Field GF : GF_field.

Section GaloisFieldFacts.

Lemma fadd_self a : fadd a a = x00.
Proof. change (fadd a a) with (fadd a (fopp a)). ring. Qed.

Lemma fadd_eq_0 a b : fadd a b = x00 <-> a = b.
Proof.
  split; [| intros ->; apply fadd_self].
  intros Hab. apply to_Z_inj. apply Z.lxor_eq_0_iff.
  rewrite <- to_Z_fadd, Hab. done.
Qed.

Lemma fmul_eq_0 a b : fmul a b = x00 -> a = x00 \/ b = x00.
Proof.
  intros Hab. destruct (decide (a = x00)) as [Ha | Ha]; [by left |]. right.
  transitivity (fmul (finv a) (fmul a b)); [field; done | rewrite Hab; ring].
Qed.

Lemma fmul_nonzero a b : a <> x00 -> b <> x00 -> fmul a b <> x00.
Proof. intros Ha Hb Hab. apply fmul_eq_0 in Hab as [? | ?]; done. Qed.

End GaloisFieldFacts.

(** ** Shamir: Lagrange interpolation over GF(2^8) *)

Section Interpolation.
Import shamir.

Local Infix "⊕" := fadd (at level 50, left associativity).
Local Infix "⊗" := fmul (at level 40, left associativity).
Local Infix "⊘" := fdiv (at level 40, left associativity).

Implicit Types (T U : list byte) (f g : byte -> byte) (a b c x y : byte).

Lemma fadd_nonzero x y : y <> x -> x ⊕ y <> x00.
Proof. intros Hne Heq. apply (proj1 (fadd_eq_0 _ _)) in Heq. by subst. Qed.

Lemma denF_cons T y x :
  denF (y :: T) x = if decide (y = x) then denF T x else (x ⊕ y) ⊗ denF T x.
Proof. reflexivity. Qed.

Lemma numF_cons T y x :
  numF (y :: T) x = if decide (y = x) then numF T x else y ⊗ numF T x.
Proof. reflexivity. Qed.

Lemma denF_nonzero T x : denF T x <> x00.
Proof.
  induction T as [|y T IH]; [discriminate |].
  rewrite denF_cons. destruct (decide (y = x)); [done |].
  apply fmul_nonzero; [by apply fadd_nonzero | done].
Qed.

Lemma Dsum_cons T U x f :
  Dsum T (x :: U) f = (f x ⊘ denF T x) ⊕ Dsum T U f.
Proof. reflexivity. Qed.

Lemma Dsum_ext T U f g :
  (forall x, x ∈ U -> f x = g x) -> Dsum T U f = Dsum T U g.
Proof.
  induction U as [|x U IH]; intros Hfg; [done |].
  rewrite !Dsum_cons, (Hfg x) by left. rewrite IH; [done |].
  intros y Hy. apply Hfg. by right.
Qed.

Lemma Dsum_add T U f g :
  Dsum T U (fun x => f x ⊕ g x) = Dsum T U f ⊕ Dsum T U g.
Proof.
  induction U as [|x U IH]; [simpl; ring |].
  rewrite !Dsum_cons, IH. field. apply denF_nonzero.
Qed.

Lemma Dsum_scale T U c f :
  Dsum T U (fun x => c ⊗ f x) = c ⊗ Dsum T U f.
Proof.
  induction U as [|x U IH]; [simpl; ring |].
  rewrite !Dsum_cons, IH. field. apply denF_nonzero.
Qed.

(** A factor that vanishes at a point removes the point. *)
Lemma Dsum_cancel T U a f :
  a ∉ U -> Dsum (a :: T) U (fun x => (x ⊕ a) ⊗ f x) = Dsum T U f.
Proof.
  induction U as [|x U IH]; intros Ha; [done |].
  apply not_elem_of_cons in Ha as [Hne Ha].
  rewrite !Dsum_cons, IH by done. f_equal.
  rewrite denF_cons, decide_False by done.
  field. split; [apply denF_nonzero | by apply fadd_nonzero].
Qed.

Lemma Dsum_cancel_head T a f :
  a ∉ T -> Dsum (a :: T) (a :: T) (fun x => (x ⊕ a) ⊗ f x) = Dsum T T f.
Proof.
  intros Ha. rewrite Dsum_cons, Dsum_cancel by done.
  rewrite fadd_self. field. apply denF_nonzero.
Qed.

Lemma denF_swap T a b x : denF (a :: b :: T) x = denF (b :: a :: T) x.
Proof.
  rewrite !denF_cons.
  destruct (decide (a = x)), (decide (b = x)); try done. ring.
Qed.

Lemma Dsum_swap_points T U a b f :
  Dsum (a :: b :: T) U f = Dsum (b :: a :: T) U f.
Proof.
  induction U as [|x U IH]; [done |].
  by rewrite !Dsum_cons, IH, denF_swap.
Qed.

Lemma Dsum_swap T a b f :
  Dsum (a :: b :: T) (a :: b :: T) f = Dsum (b :: a :: T) (b :: a :: T) f.
Proof.
  rewrite !Dsum_cons, Dsum_swap_points, !(denF_swap T a b). ring.
Qed.

(** The divided difference of a constant on two points or more is zero. *)
Lemma Dsum_one (n : nat) :
  forall T, length T = S (S n) -> NoDup T ->
  Dsum T T (fun _ => x01) = x00.
Proof.
  induction n as [|n IH]; intros T Hlen Hnd.
  - destruct T as [|a [|b [|? ?]]]; try done.
    apply NoDup_cons in Hnd as [Hab _]. apply not_elem_of_cons in Hab as [Hab _].
    rewrite !Dsum_cons, !denF_cons.
    change (Dsum [a; b] [] (fun _ => x01)) with x00.
    change (denF [] a) with x01. change (denF [] b) with x01.
    repeat case_decide; try congruence.
    transitivity ((x01 ⊘ (a ⊕ b)) ⊕ fopp (x01 ⊘ (a ⊕ b)));
      [| ring].
    unfold fopp. field. repeat split; apply fadd_nonzero; congruence.
  - destruct T as [|a [|b T]]; try done.
    pose proof Hnd as Hnd0.
    apply NoDup_cons in Hnd as [Ha Hnd]. pose proof Hnd as Hndb.
    apply NoDup_cons in Hnd as [Hb Hnd].
    apply not_elem_of_cons in Ha as [Hab Ha].
    assert (Hsum : (a ⊕ b) ⊗ Dsum (a :: b :: T) (a :: b :: T) (fun _ => x01) = x00).
    { rewrite <- Dsum_scale.
      rewrite (Dsum_ext _ _ _ (fun x => ((x ⊕ a) ⊗ x01) ⊕ ((x ⊕ b) ⊗ x01))).
      2: { intros x _. transitivity ((a ⊕ b) ⊕ (x ⊕ fopp x)); [ring |].
           unfold fopp. ring. }
      rewrite Dsum_add.
      rewrite (Dsum_cancel_head (b :: T) a) by (apply not_elem_of_cons; done).
      rewrite Dsum_swap, (Dsum_cancel_head (a :: T) b).
      2: { apply not_elem_of_cons. split; [congruence | done]. }
      rewrite (IH (b :: T)), (IH (a :: T)); simpl in *; try lia.
      - ring.
      - apply NoDup_cons. done.
      - done. }
    apply fmul_eq_0 in Hsum as [Hz | Hz]; [| done].
    apply (proj1 (fadd_eq_0 _ _)) in Hz. by subst.
Qed.

Lemma evalF_cons c cs x : evalF (c :: cs) x = c ⊕ x ⊗ evalF cs x.
Proof. reflexivity. Qed.

(** The divided difference of a polynomial on more points than it has
    coefficients, plus one, is zero. *)
Lemma Dsum_poly cs :
  forall T, NoDup T -> (length cs < length T)%nat ->
  Dsum T T (evalF cs) = x00.
Proof.
  induction cs as [|c cs IH]; intros T Hnd Hlen.
  - rewrite (Dsum_ext _ _ _ (fun x => x00 ⊗ x01)) by (intros; simpl; ring).
    rewrite Dsum_scale. ring.
  - destruct T as [|a T]; [simpl in Hlen; lia |].
    simpl in Hlen.
    rewrite (Dsum_ext _ _ _
               (fun x => (c ⊗ x01 ⊕ (x ⊕ a) ⊗ evalF cs x) ⊕ a ⊗ evalF cs x)).
    2: { intros x _. rewrite evalF_cons.
         transitivity ((c ⊕ x ⊗ evalF cs x) ⊕ (a ⊗ evalF cs x ⊕ fopp (a ⊗ evalF cs x)));
           [ring | unfold fopp; ring]. }
    rewrite !Dsum_add, !Dsum_scale.
    pose proof Hnd as Hnd0. apply NoDup_cons in Hnd as [Ha Hnd].
    rewrite Dsum_cancel_head by done.
    rewrite (IH T) by (done || lia). rewrite (IH (a :: T)) by (done || simpl; lia).
    destruct T as [|b T]; [simpl in Hlen; lia |].
    rewrite (Dsum_one (length T) (a :: b :: T)) by done. ring.
Qed.

Lemma numF_absent T x : x00 ∉ T -> x ∉ T -> numF T x = numF T x00.
Proof.
  induction T as [|y T IH]; intros H0 Hx; [done |].
  apply not_elem_of_cons in H0 as [Hy0 H0].
  apply not_elem_of_cons in Hx as [Hyx Hx].
  rewrite !numF_cons. rewrite !decide_False by congruence. by rewrite IH.
Qed.

(** A point times the product of the other points is the product of all. *)
Lemma numF_total T x :
  NoDup T -> x00 ∉ T -> x ∈ T -> x ⊗ numF T x = numF T x00.
Proof.
  induction T as [|y T IH]; intros Hnd H0 Hx; [by apply elem_of_nil in Hx |].
  apply NoDup_cons in Hnd as [Hy Hnd].
  apply not_elem_of_cons in H0 as [Hy0 H0].
  rewrite !numF_cons. rewrite (decide_False (P := y = x00)) by congruence.
  destruct (decide (y = x)) as [-> | Hne].
  - by rewrite numF_absent.
  - apply elem_of_cons in Hx as [-> | Hx]; [done |].
    rewrite <- (IH Hnd H0 Hx). ring.
Qed.

Lemma numF_nonzero T : x00 ∉ T -> numF T x00 <> x00.
Proof.
  induction T as [|y T IH]; intros H0; [discriminate |].
  apply not_elem_of_cons in H0 as [Hy0 H0].
  rewrite numF_cons, decide_False by congruence.
  apply fmul_nonzero; [congruence | by apply IH].
Qed.

Lemma denF_at_zero T : denF T x00 = numF T x00.
Proof.
  induction T as [|y T IH]; [done |].
  rewrite denF_cons, numF_cons, IH. destruct (decide (y = x00)); [done | ring].
Qed.

Lemma Lsum_cons T U x f :
  Lsum T (x :: U) f = (f x ⊗ (numF T x ⊘ denF T x)) ⊕ Lsum T U f.
Proof. reflexivity. Qed.

(** The Lagrange sum at zero is the divided difference on the points and
    zero, times the product of the points. *)
Lemma Lsum_Dsum T U f :
  NoDup T -> x00 ∉ T -> (forall x, x ∈ U -> x ∈ T) ->
  Lsum T U f = numF T x00 ⊗ Dsum (x00 :: T) U f.
Proof.
  intros Hnd H0. induction U as [|x U IH]; intros Hsub; [simpl; ring |].
  rewrite Lsum_cons, Dsum_cons, IH by (intros y Hy; apply Hsub; by right).
  assert (Hx : x ∈ T) by (apply Hsub; left).
  assert (Hx0 : x <> x00) by (intros ->; done).
  rewrite denF_cons, decide_False by congruence.
  rewrite <- (numF_total T x Hnd H0 Hx).
  field. repeat split;
    first [ apply denF_nonzero | apply fadd_nonzero; congruence | done ].
Qed.

(** Lagrange interpolation at zero gives back the value at zero of a
    polynomial with no more coefficients than there are points. *)
Lemma Lsum_poly T cs :
  NoDup T -> x00 ∉ T -> (length cs <= length T)%nat ->
  Lsum T T (evalF cs) = evalF cs x00.
Proof.
  intros Hnd H0 Hlen.
  rewrite Lsum_Dsum by done.
  pose proof (Dsum_poly cs (x00 :: T)) as HD.
  rewrite Dsum_cons in HD.
  specialize (HD ltac:(by apply NoDup_cons) ltac:(simpl; lia)).
  rewrite denF_cons, decide_True, denF_at_zero in HD by done.
  pose proof (numF_nonzero T H0) as Hp.
  set (P := numF T x00) in *. set (S := Dsum (x00 :: T) T (evalF cs)) in *.
  transitivity (P ⊗ ((evalF cs x00 ⊘ P) ⊕ S) ⊕ fopp (evalF cs x00)).
  - field. done.
  - rewrite HD. unfold fopp. ring.
Qed.

(** The running product of the inner loop. *)
Lemma basisF_product T xi basis :
  basisF T xi basis = basis ⊗ (numF T xi ⊘ denF T xi).
Proof.
  revert basis. induction T as [|y T IH]; intros basis.
  - change (basisF [] xi basis) with basis.
    change (numF [] xi) with x01. change (denF [] xi) with x01. field. discriminate.
  - change (basisF (y :: T) xi basis) with
      (basisF T xi (if decide (y = xi) then basis
                    else basis ⊗ ((x00 ⊕ y) ⊘ (xi ⊕ y)))).
    rewrite IH, numF_cons, denF_cons. destruct (decide (y = xi)); [done |].
    field. split; [apply denF_nonzero | by apply fadd_nonzero].
Qed.

End Interpolation.

(** ** Shamir: from the field back to the integers of the model *)

Section Transport.
Import shamir.

Local Infix "⊕" := fadd (at level 50, left associativity).
Local Infix "⊗" := fmul (at level 40, left associativity).
Local Infix "⊘" := fdiv (at level 40, left associativity).

Lemma bytes_of_list (l : list Z) :
  Forall is_byte l -> l = map to_Z (map of_Z l).
Proof.
  induction 1 as [|z l Hz _ IH]; [done |].
  simpl. by rewrite to_of_Z, <- IH.
Qed.

Lemma to_Z_eqb a b : (to_Z a =? to_Z b) = bool_decide (a = b).
Proof.
  destruct (Z.eqb_spec (to_Z a) (to_Z b)) as [Heq | Hne].
  - apply to_Z_inj in Heq. by rewrite bool_decide_eq_true_2.
  - rewrite bool_decide_eq_false_2; [done |]. intros ->. done.
Qed.

Lemma basis_value_F T xi basis :
  foldl (fun basis xj =>
           if xj =? to_Z xi then basis
           else mult basis (quotient (add 0 xj) (add (to_Z xi) xj)))
    (to_Z basis) (map to_Z T) = to_Z (basisF T xi basis).
Proof.
  revert basis. induction T as [|y T IH]; intros basis; [done |].
  simpl. rewrite to_Z_eqb.
  change (basisF (y :: T) xi basis) with
    (basisF T xi (if decide (y = xi) then basis
                  else basis ⊗ ((x00 ⊕ y) ⊘ (xi ⊕ y)))).
  destruct (decide (y = xi)) as [-> | Hne].
  - rewrite bool_decide_eq_true_2 by done. apply IH.
  - rewrite bool_decide_eq_false_2 by done. rewrite <- IH. f_equal.
    rewrite to_Z_fmul, to_Z_fdiv, !to_Z_fadd; [done |].
    intros Hz. apply (proj1 (fadd_eq_0 _ _)) in Hz. congruence.
Qed.

Lemma lagrange_sum_F T U f r :
  lagrange_sum (map to_Z T) 0 (zip (map to_Z U) (map to_Z (map f U))) (to_Z r)
  = to_Z (r ⊕ Lsum T U f).
Proof.
  revert r. induction U as [|x U IH]; intros r.
  - simpl. f_equal. ring.
  - simpl. unfold basis_value.
    change 1 with (to_Z x01). rewrite basis_value_F, basisF_product.
    rewrite <- to_Z_fmul, <- to_Z_fadd, IH. f_equal.
    change (Lsum T (x :: U) f) with
      ((f x ⊗ (numF T x ⊘ denF T x)) ⊕ Lsum T U f).
    ring.
Qed.

Lemma horner_value_F cs x :
  horner_value (map to_Z cs) (to_Z x) = to_Z (evalF cs x).
Proof.
  induction cs as [|c cs IH]; [done |].
  change (evalF (c :: cs) x) with (c ⊕ x ⊗ evalF cs x).
  destruct cs as [|c' cs].
  - simpl. f_equal. change (evalF [] x) with x00. ring.
  - change (horner_value (map to_Z (c :: c' :: cs)) (to_Z x)) with
      (add (mult (horner_value (map to_Z (c' :: cs)) (to_Z x)) (to_Z x)) (to_Z c)).
    rewrite IH, <- to_Z_fmul, <- to_Z_fadd. f_equal. ring.
Qed.

Lemma poly_value_F cs x :
  poly_value (map to_Z cs) (to_Z x) = to_Z (evalF cs x).
Proof.
  unfold poly_value. destruct (Z.eqb_spec (to_Z x) 0) as [Hx | Hx].
  - apply to_Z_zero_iff in Hx as ->. destruct cs as [|c cs]; [done |].
    simpl. f_equal. change (evalF (c :: cs) x00) with (c ⊕ x00 ⊗ evalF cs x00).
    ring.
  - apply horner_value_F.
Qed.

(** Interpolation at zero of the values of a polynomial, at different
    non-zero points that are at least as many as its coefficients, is the
    first coefficient. *)
Lemma lagrange_value_poly xs cs :
  Forall is_byte xs -> NoDup xs -> 0 ∉ xs ->
  Forall is_byte cs -> (length cs <= length xs)%nat ->
  lagrange_value xs (map (poly_value cs) xs) 0 = nth 0 cs 0.
Proof.
  intros Hxs Hnd H0 Hcs Hlen.
  rewrite (bytes_of_list xs Hxs) in *. rewrite (bytes_of_list cs Hcs) in *.
  set (T := map of_Z xs) in *. set (C := map of_Z cs) in *.
  assert (HndT : NoDup T).
  { eapply NoDup_fmap_1. exact Hnd. }
  assert (H0T : x00 ∉ T).
  { intros Hin. apply H0. change 0 with (to_Z x00). by apply list_elem_of_fmap_2. }
  unfold lagrange_value.
  rewrite <- (list_fmap_compose to_Z (poly_value (map to_Z C))).
  rewrite (list_fmap_ext (poly_value (map to_Z C) ∘ to_Z) (to_Z ∘ evalF C) T)
    by (intros; simpl; apply poly_value_F).
  rewrite list_fmap_compose.
  change 0 with (to_Z x00) at 2.
  rewrite lagrange_sum_F, Lsum_poly; [| done | done | by rewrite !length_map in Hlen].
  replace (x00 ⊕ evalF C x00) with (evalF C x00) by ring.
  rewrite <- poly_value_F. reflexivity.
Qed.

End Transport.

(** ** Shamir: Split and Combine together *)

Section SplitCombine.
Import shamir.

Lemma length_expected_share xC tape secret threshold i :
  length (expected_share xC tape secret threshold i) = (length secret + 3)%nat.
Proof. unfold expected_share. rewrite length_app, length_imap. simpl. lia. Qed.

Lemma expected_share_value xC tape secret threshold i (idx : nat) :
  (idx < length secret)%nat ->
  nth idx (expected_share xC tape secret threshold i) 0 =
    poly_value (byte_polynomial tape threshold idx (nth idx secret 0))
      (x_coordinate xC i).
Proof.
  intros Hidx. unfold expected_share. rewrite nth_lookup.
  rewrite lookup_app_l by (by rewrite length_imap).
  rewrite list_lookup_imap.
  destruct (lookup_lt_is_Some_2 secret idx Hidx) as [val Hval].
  rewrite Hval. simpl. by rewrite nth_lookup, Hval.
Qed.

Lemma expected_share_tail xC tape secret threshold i :
  nth (length secret) (expected_share xC tape secret threshold i) 0 =
    x_coordinate xC i /\
  nth (length secret + 1) (expected_share xC tape secret threshold i) 0 =
    default 0 (last secret).
Proof.
  unfold expected_share. rewrite !nth_lookup.
  rewrite !lookup_app_r by (rewrite length_imap; lia). rewrite length_imap.
  rewrite Nat.sub_diag.
  replace (length secret + 1 - length secret)%nat with 1%nat by lia. done.
Qed.

(** The x coordinates of a permutation of 0..254: one more than its
    entries, so non-zero bytes, different for different indices. *)
Lemma x_coordinate_perm xC i :
  Forall (fun x => 0 <= x < 255) xC -> 0 <= i < Z.of_nat (length xC) ->
  x_coordinate xC i = nth (Z.to_nat i) xC 0 + 1 /\
  is_byte (x_coordinate xC i) /\ x_coordinate xC i <> 0.
Proof.
  intros Hall Hi.
  destruct (lookup_lt_is_Some_2 xC (Z.to_nat i)) as [x Hx]; [lia |].
  pose proof (proj1 (Forall_lookup _ _) Hall _ _ Hx) as Hr. simpl in Hr.
  unfold x_coordinate, uint8, is_byte. rewrite nth_lookup, Hx. simpl.
  rewrite (Z.mod_small x) by lia. rewrite Z.mod_small by lia. lia.
Qed.

Lemma x_coordinate_inj xC i j :
  NoDup xC -> Forall (fun x => 0 <= x < 255) xC ->
  0 <= i < Z.of_nat (length xC) -> 0 <= j < Z.of_nat (length xC) ->
  x_coordinate xC i = x_coordinate xC j -> i = j.
Proof.
  intros Hnd Hall Hi Hj Heq.
  destruct (x_coordinate_perm xC i Hall Hi) as (Hxi & _).
  destruct (x_coordinate_perm xC j Hall Hj) as (Hxj & _).
  rewrite Hxi, Hxj in Heq.
  destruct (lookup_lt_is_Some_2 xC (Z.to_nat i)) as [x Hx]; [lia |].
  destruct (lookup_lt_is_Some_2 xC (Z.to_nat j)) as [y Hy]; [lia |].
  rewrite !nth_lookup, Hx, Hy in Heq. simpl in Heq.
  assert (x = y) as -> by lia.
  pose proof (NoDup_lookup _ _ _ _ Hnd Hx Hy). lia.
Qed.

Lemma byte_polynomial_bytes tape threshold k val :
  Forall is_byte tape -> is_byte val -> 2 <= threshold ->
  Forall is_byte (byte_polynomial tape threshold k val) /\
  (Z.of_nat (length (byte_polynomial tape threshold k val)) <= threshold).
Proof.
  intros Htape Hval Ht. unfold byte_polynomial. split.
  - constructor; [done |]. by apply Forall_take, Forall_drop.
  - simpl. rewrite length_take. lia.
Qed.

Lemma horner_constant b x : poly_value [b] x = b.
Proof. unfold poly_value. by destruct (x =? 0). Qed.

Lemma horner_identity x : is_byte x -> poly_value [0; 1] x = x.
Proof.
  intros Hx. unfold poly_value. destruct (Z.eqb_spec x 0) as [-> | Hne]; [done |].
  simpl. rewrite mult_1_l by done. unfold add. apply Z.lxor_0_r.
Qed.

Lemma map_nth_seq (l : list Z) : map (fun k => nth k l 0) (seq 0 (length l)) = l.
Proof.
  apply list_eq. intros j. rewrite list_lookup_fmap.
  destruct (decide (j < length l)%nat) as [Hj | Hj].
  - rewrite lookup_seq_lt by done. simpl.
    destruct (lookup_lt_is_Some_2 l j Hj) as [x Hx]. by rewrite nth_lookup, Hx.
  - rewrite lookup_seq_ge by lia. simpl. symmetry. apply lookup_ge_None. lia.
Qed.

(** Combine on any selection of at least [threshold] different shares of a
    Split gives the secret followed by a zero byte and by the last byte of
    the secret. *)
Lemma Combine_expected_shares xC tape secret parts threshold sel :
  valid_split_input secret parts threshold ->
  length xC = 255%nat -> NoDup xC -> Forall (fun x => 0 <= x < 255) xC ->
  Forall is_byte secret -> Forall is_byte tape ->
  NoDup sel -> Forall (fun i => 0 <= i < parts) sel ->
  threshold <= Z.of_nat (length sel) ->
  Combine (map (expected_share xC tape secret threshold) sel) =
    Ok (secret ++ [0; default 0 (last secret)]).
Proof.
  intros (Ht & Hp & Hs) HxC Hnd Hperm Hsecret Htape Hsel Hrange Hlen.
  set (n := length secret).
  set (ps := map (expected_share xC tape secret threshold) sel).
  set (xs := map (x_coordinate xC) sel).
  assert (Htags : tags (n + 3) ps = xs).
  { unfold tags, ps, xs. rewrite <- list_fmap_compose.
    apply list_fmap_ext. intros k i _. simpl.
    replace (n + 3 - 3)%nat with n by lia.
    apply expected_share_tail. }
  assert (Hin : forall i, i ∈ sel -> 0 <= i < Z.of_nat (length xC)).
  { intros i Hi. pose proof (proj1 (Forall_forall _ _) Hrange i Hi). simpl in *. lia. }
  assert (Hxs_byte : Forall is_byte xs).
  { apply Forall_fmap, Forall_forall. intros i Hi. simpl.
    apply x_coordinate_perm; auto. }
  assert (Hxs_nd : NoDup xs).
  { apply NoDup_fmap_2_strong; [| done].
    intros i j Hi Hj. apply x_coordinate_inj; auto. }
  assert (Hxs_0 : 0 ∉ xs).
  { intros H0. apply list_elem_of_fmap in H0 as (i & Hi0 & Hi).
    destruct (x_coordinate_perm xC i Hperm (Hin i Hi)) as (_ & _ & Hne). done. }
  assert (Hxs_len : length xs = length sel) by (unfold xs; by rewrite length_map).
  rewrite (Combine_value (n + 3) ps).
  - f_equal. unfold combined. rewrite Htags.
    replace (n + 3 - 1)%nat with (n + 2)%nat by lia.
    rewrite seq_app, map_app. f_equal.
    + transitivity (map (fun k => nth k secret 0) (seq 0 n));
        [| apply map_nth_seq].
      apply map_ext_in. intros idx Hidx. apply in_seq in Hidx.
      assert (Hcol : column idx ps =
                map (poly_value (byte_polynomial tape threshold idx (nth idx secret 0))) xs).
      { unfold column, ps, xs. rewrite <- !list_fmap_compose.
        apply list_fmap_ext. intros k i _. simpl.
        apply expected_share_value. unfold n in *. lia. }
      rewrite Hcol.
      destruct (byte_polynomial_bytes tape threshold idx (nth idx secret 0))
        as [Hb Hl]; [done | | lia |].
      { destruct (lookup_lt_is_Some_2 secret idx) as [v Hv]; [unfold n in *; lia |].
        rewrite nth_lookup, Hv. simpl.
        exact (proj1 (Forall_lookup _ _) Hsecret _ _ Hv). }
      rewrite lagrange_value_poly; [done | done | done | done | done | lia].
    + simpl. f_equal; [| f_equal].
      * assert (Hcol : column n ps = map (poly_value [0; 1]) xs).
        { unfold column, ps, xs. rewrite <- !list_fmap_compose.
          apply list_fmap_ext. intros k i Hk. simpl. unfold n.
          rewrite (proj1 (expected_share_tail xC tape secret threshold i)).
          symmetry. apply horner_identity.
          apply x_coordinate_perm; [done |]. apply Hin.
          apply list_elem_of_lookup. eauto. }
        rewrite Hcol, lagrange_value_poly; try done.
        -- repeat constructor; unfold is_byte; lia.
        -- simpl. lia.
      * assert (Hcol : column (S n) ps =
                  map (poly_value [default 0 (last secret)]) xs).
        { unfold column, ps, xs. rewrite <- !list_fmap_compose.
          apply list_fmap_ext. intros k i _. simpl.
          rewrite horner_constant.
          replace (S n) with (length secret + 1)%nat by (unfold n; lia).
          apply expected_share_tail. }
        rewrite Hcol, lagrange_value_poly; try done.
        -- constructor; [| done].
           destruct (last secret) as [b|] eqn:Hb; [| by apply last_None in Hb].
           simpl. apply last_Some_elem_of in Hb.
           exact (proj1 (Forall_forall _ _) Hsecret b Hb).
        -- simpl. lia.
  - unfold ps. rewrite length_map. lia.
  - lia.
  - apply Forall_fmap, Forall_forall. intros i _. simpl.
    apply length_expected_share.
  - by rewrite Htags.
Qed.

End SplitCombine.

(** ** Shamir: further properties of the arithmetic, of Split and of Combine *)

Section ShamirExtras.
Import shamir.

(** X8. On bytes, [mult] is the multiplication of a field with the
    addition [add]: its results are bytes, it is commutative and
    associative, distributes over [add], has the unit 1, and a product is
    zero only when a factor is. *)
Theorem GF_multiplication_laws (a b c : Z) :
  is_byte a -> is_byte b -> is_byte c ->
  is_byte (mult a b) /\
  mult a b = mult b a /\
  mult (mult a b) c = mult a (mult b c) /\
  mult a (add b c) = add (mult a b) (mult a c) /\
  mult 1 a = a /\
  (mult a b = 0 <-> a = 0 \/ b = 0).
Proof.
  intros Ha Hb Hc. split_and!.
  - by apply mult_byte.
  - apply mult_comm.
  - by apply mult_assoc.
  - by apply mult_add_distr_l.
  - by apply mult_1_l.
  - split.
    + intros Hz. destruct (decide (a = 0)) as [? | Ha0]; [by left |].
      destruct (decide (b = 0)) as [? | Hb0]; [by right |].
      by destruct (mult_nonzero a b Ha Hb Ha0 Hb0).
    + intros [-> | ->]; [apply mult_0_l | apply mult_0_r].
Qed.

Lemma GF_multiplication_laws_witness :
  is_byte (mult 3 7) /\
  mult 3 7 = mult 7 3 /\
  mult (mult 3 7) 200 = mult 3 (mult 7 200) /\
  mult 3 (add 7 200) = add (mult 3 7) (mult 3 200) /\
  mult 1 3 = 3 /\
  (mult 3 7 = 0 <-> 3 = 0 \/ 7 = 0).
Proof.
  apply (GF_multiplication_laws 3 7 200); unfold is_byte; lia.
Defined.

Lemma quotient_mult a b :
  is_byte a -> is_byte b -> b <> 0 -> quotient (mult a b) b = a.
Proof.
  intros Ha Hb Hb0.
  rewrite <- (to_of_Z a Ha), <- (to_of_Z b Hb).
  assert (HB : of_Z b <> x00).
  { intros Hz. apply Hb0. rewrite <- (to_of_Z b Hb), Hz. done. }
  rewrite <- to_Z_fmul, <- to_Z_fdiv by done. f_equal. field. done.
Qed.

(** X9. [div] panics exactly on a zero divisor; for bytes and a non-zero
    divisor it returns the byte whose product with the divisor is the
    dividend, so that it undoes [mult]. *)
Theorem div_inverts_mult (a b : Z) :
  is_byte a -> is_byte b ->
  (b = 0 -> div a b = Panic "divide by zero") /\
  (b <> 0 ->
   exists q, div a b = Ok q /\ is_byte q /\ mult q b = a /\
             div (mult a b) b = Ok a).
Proof.
  intros Ha Hb. split.
  - intros ->. reflexivity.
  - intros Hb0. exists (quotient a b).
    destruct (quotient_spec a b Ha Hb Hb0) as (Hq & Hm & _).
    split_and!; [by apply div_quotient | done | done |].
    rewrite div_quotient by done. f_equal. by apply quotient_mult.
Qed.

Lemma div_inverts_mult_witness :
  exists q, div 9 3 = Ok q /\ is_byte q /\ mult q 3 = 9 /\
            div (mult 9 3) 3 = Ok 9.
Proof.
  apply (div_inverts_mult 9 3); unfold is_byte; lia.
Defined.

(** X10. [makePolynomial] with a degree below 255 returns the intercept
    followed by the next [degree] random bytes and consumes exactly these,
    or the error when the random source has fewer; with degree 255 the
    length [degree + 1] wraps to zero and the store of the intercept
    panics. *)
Theorem makePolynomial_behaviour (tape : list Z) (intercept degree : Z) :
  is_byte degree ->
  (degree = 255 ->
   makePolynomial tape intercept degree = Panic "index out of range") /\
  (degree < 255 -> Z.of_nat (length tape) < degree ->
   makePolynomial tape intercept degree = Err "failed to generate polynomial") /\
  (degree < 255 -> degree <= Z.of_nat (length tape) ->
   exists p tape',
     makePolynomial tape intercept degree = Ok (p, tape') /\
     coefficients p = intercept :: take (Z.to_nat degree) tape /\
     Z.of_nat (length (coefficients p)) = degree + 1 /\
     tape' = drop (Z.to_nat degree) tape).
Proof.
  intros Hd. unfold is_byte in Hd. split_and!.
  - intros ->. reflexivity.
  - intros Hlt Hshort. apply makePolynomial_short; lia.
  - intros Hlt Hlong. eexists _, _. split; [apply makePolynomial_Ok; lia |].
    simpl. split_and!; [done | | done]. rewrite length_take. lia.
Qed.

Lemma makePolynomial_behaviour_witness :
  exists p tape',
    makePolynomial [7; 9; 11] 42 2 = Ok (p, tape') /\
    coefficients p = 42 :: take (Z.to_nat 2) [7; 9; 11] /\
    Z.of_nat (length (coefficients p)) = 2 + 1 /\
    tape' = drop (Z.to_nat 2) [7; 9; 11].
Proof.
  apply (makePolynomial_behaviour [7; 9; 11] 42 2);
    [unfold is_byte; lia | lia | simpl; lia].
Defined.

(** X11. The values that [evaluate] gives for a polynomial at different
    non-zero points, as many as its coefficients or more, let
    [interpolatePolynomial] find its intercept. *)
Theorem interpolation_recovers_intercept
    (p : polynomial) (c0 : Z) (cs xs ys : list Z) :
  coefficients p = c0 :: cs ->
  Forall is_byte (c0 :: cs) -> Forall is_byte xs ->
  NoDup xs -> 0 ∉ xs ->
  (length (c0 :: cs) <= length xs)%nat ->
  Forall2 (fun x y => evaluate p x = Ok y) xs ys ->
  interpolatePolynomial xs ys 0 = Ok c0.
Proof.
  intros Hp Hcs Hxs Hnd H0 Hlen Hys.
  assert (Heq : ys = map (poly_value (c0 :: cs)) xs).
  { clear -Hp Hys. induction Hys as [|x y xs ys Hxy _ IH]; [done |].
    simpl. rewrite <- IH. f_equal. destruct p as [coeffs]. simpl in Hp. subst coeffs.
    rewrite evaluate_value in Hxy by done. by injection Hxy. }
  rewrite interpolatePolynomial_value; [| done | by rewrite Heq, length_map].
  rewrite Heq, lagrange_value_poly by done. done.
Qed.

Lemma interpolation_recovers_intercept_witness :
  interpolatePolynomial [1; 2; 3] [44; 32; 38] 0 = Ok 42.
Proof.
  apply (interpolation_recovers_intercept {| coefficients := [42; 7; 1] |} 42
           [7; 1] [1; 2; 3] [44; 32; 38]).
  - reflexivity.
  - repeat constructor; unfold is_byte; lia.
  - repeat constructor; unfold is_byte; lia.
  - apply (bool_decide_eq_true_1 (NoDup [1; 2; 3])). vm_compute. reflexivity.
  - apply (bool_decide_eq_true_1 (0 ∉ [1; 2; 3])). vm_compute. reflexivity.
  - simpl. lia.
  - repeat constructor.
Defined.

End ShamirExtras.

Section SplitCombineExtras.
Import shamir.

Lemma upto_lookup n (r : nat) :
  (r < Z.to_nat n)%nat -> upto n !! r = Some (Z.of_nat r).
Proof.
  intros Hr. unfold upto. by rewrite list_lookup_fmap, lookup_seq_lt.
Qed.

Lemma Split_Ok_rows xC tape secret parts threshold shares :
  length xC = 255%nat ->
  Split xC tape secret parts threshold = Ok shares ->
  valid_split_input secret parts threshold /\
  (length secret * Z.to_nat (threshold - 1) <= length tape)%nat /\
  shares = map (expected_share xC tape secret threshold) (upto parts).
Proof.
  intros HxC Hok.
  destruct (Split_Ok_inv _ _ _ _ _ _ HxC Hok) as (Hvalid & Htape & _).
  split_and!; [done | done |].
  rewrite Split_rows in Hok by done. by injection Hok.
Qed.

(** X12. In every share of a successful Split, the byte at a position of
    the secret is the value, at the x coordinate of the share, of the
    polynomial made for the secret byte of this position from the next
    [threshold - 1] random bytes; the byte after them is the x coordinate. *)
Theorem Split_shares_are_polynomial_values
    (xCoordinates tape secret : list Z) (parts threshold : Z)
    (shares : list (list Z)) :
  length xCoordinates = 255%nat ->
  Split xCoordinates tape secret parts threshold = Ok shares ->
  forall (i : Z) (idx : nat), 0 <= i < parts -> (idx < length secret)%nat ->
  exists share val p tape' y,
    shares !! Z.to_nat i = Some share /\
    secret !! idx = Some val /\
    makePolynomial (drop (idx * Z.to_nat (threshold - 1)) tape) val
      (uint8 (threshold - 1)) = Ok (p, tape') /\
    evaluate p (x_coordinate xCoordinates i) = Ok y /\
    share !! idx = Some y /\
    share !! length secret = Some (x_coordinate xCoordinates i).
Proof.
  intros HxC Hok i idx Hi Hidx.
  destruct (Split_Ok_rows _ _ _ _ _ _ HxC Hok) as ((Ht & Hp & Hs) & Htape & ->).
  destruct (lookup_lt_is_Some_2 secret idx Hidx) as [val Hval].
  set (d := Z.to_nat (threshold - 1)) in *.
  assert (Hu : uint8 (threshold - 1) = threshold - 1).
  { unfold uint8. apply Z.mod_small. lia. }
  assert (Hd : (d <= length (drop (idx * d) tape))%nat).
  { rewrite length_drop. unfold d in *. nia. }
  exists (expected_share xCoordinates tape secret threshold i), val,
    {| coefficients := val :: take d (drop (idx * d) tape) |},
    (drop d (drop (idx * d) tape)),
    (poly_value (val :: take d (drop (idx * d) tape)) (x_coordinate xCoordinates i)).
  split_and!.
  - rewrite list_lookup_fmap, upto_lookup by lia. simpl. by rewrite Z2Nat.id by lia.
  - done.
  - rewrite Hu. apply makePolynomial_Ok; [lia | done].
  - by apply evaluate_value.
  - pose proof (expected_share_value xCoordinates tape secret threshold i idx Hidx)
      as Hv.
    rewrite !nth_lookup, Hval in Hv. simpl in Hv.
    destruct (expected_share xCoordinates tape secret threshold i !! idx) as [y|] eqn:Hy.
    + simpl in Hv. by rewrite Hv.
    + apply lookup_ge_None in Hy. rewrite length_expected_share in Hy. lia.
  - pose proof (proj1 (expected_share_tail xCoordinates tape secret threshold i)) as Hx.
    rewrite nth_lookup in Hx.
    destruct (expected_share xCoordinates tape secret threshold i !! length secret)
      as [y|] eqn:Hy.
    + simpl in Hx. by rewrite Hx.
    + apply lookup_ge_None in Hy. rewrite length_expected_share in Hy. lia.
Qed.

Lemma Split_shares_are_polynomial_values_witness :
  exists share val p tape' y,
    [[45; 24; 1; 17; 9]; [36; 3; 2; 17; 9]; [35; 10; 3; 17; 9]] !! Z.to_nat 1
      = Some share /\
    [42; 17] !! 1%nat = Some val /\
    makePolynomial (drop (1 * Z.to_nat (2 - 1)) [7; 9; 11; 200]) val
      (uint8 (2 - 1)) = Ok (p, tape') /\
    evaluate p (x_coordinate (upto 255) 1) = Ok y /\
    share !! 1%nat = Some y /\
    share !! length [42; 17] = Some (x_coordinate (upto 255) 1).
Proof.
  apply (Split_shares_are_polynomial_values (upto 255) [7; 9; 11; 200] [42; 17]
           3 2 _ eq_refl).
  - vm_compute. reflexivity.
  - lia.
  - simpl. lia.
Defined.

(** X13. When the x coordinates come from a permutation of 0..254, the
    shares of a successful Split carry x coordinates between 1 and 255 that
    are all different. *)
Theorem Split_x_coordinates_distinct
    (xCoordinates tape secret : list Z) (parts threshold : Z)
    (shares : list (list Z)) :
  length xCoordinates = 255%nat -> NoDup xCoordinates ->
  Forall (fun x => 0 <= x < 255) xCoordinates ->
  Split xCoordinates tape secret parts threshold = Ok shares ->
  NoDup (map (fun share => nth (length secret) share 0) shares) /\
  Forall (fun x => 1 <= x <= 255)
    (map (fun share => nth (length secret) share 0) shares).
Proof.
  intros HxC Hnd Hperm Hok.
  destruct (Split_Ok_rows _ _ _ _ _ _ HxC Hok) as ((Ht & Hp & Hs) & Htape & ->).
  rewrite <- list_fmap_compose.
  rewrite (list_fmap_ext _ (x_coordinate xCoordinates) (upto parts)).
  2: { intros k i _. simpl. apply expected_share_tail. }
  split.
  - apply NoDup_fmap_2_strong; [| apply NoDup_upto].
    intros i j Hi Hj. apply elem_of_upto in Hi, Hj.
    apply x_coordinate_inj; auto; lia.
  - apply Forall_fmap, Forall_forall. intros i Hi. apply elem_of_upto in Hi. simpl.
    destruct (x_coordinate_perm xCoordinates i Hperm) as (_ & Hb & Hne); [lia |].
    unfold is_byte in Hb. lia.
Qed.

Lemma Split_x_coordinates_distinct_witness :
  NoDup (map (fun share => nth (length [42; 17]) share 0)
           [[45; 24; 1; 17; 9]; [36; 3; 2; 17; 9]; [35; 10; 3; 17; 9]]) /\
  Forall (fun x => 1 <= x <= 255)
    (map (fun share => nth (length [42; 17]) share 0)
       [[45; 24; 1; 17; 9]; [36; 3; 2; 17; 9]; [35; 10; 3; 17; 9]]).
Proof.
  apply (Split_x_coordinates_distinct (upto 255) [7; 9; 11; 200] [42; 17] 3 2).
  - reflexivity.
  - apply NoDup_upto.
  - apply Forall_forall. intros x Hx. apply elem_of_upto in Hx. lia.
  - vm_compute. reflexivity.
Defined.

(** X14. On an accepted input, Split returns the error of the polynomial
    construction when the random source has fewer bytes than the
    [threshold - 1] coefficients of every secret byte. *)
Theorem Split_fails_without_random_bytes
    (xCoordinates tape secret : list Z) (parts threshold : Z) :
  valid_split_input secret parts threshold ->
  length xCoordinates = 255%nat ->
  (length tape < length secret * Z.to_nat (threshold - 1))%nat ->
  Split xCoordinates tape secret parts threshold =
    Err "failed to generate polynomial".
Proof.
  intros Hvalid HxC Hshort.
  destruct (Split_valid xCoordinates tape secret parts threshold Hvalid)
    as (out0 & Hshape & ->).
  { destruct Hvalid as (? & ? & ?). lia. }
  destruct Hvalid as (Ht & Hp & Hs).
  apply secret_loop_short; auto; lia.
Qed.

Lemma Split_fails_without_random_bytes_witness :
  Split (upto 255) [7] [42; 17] 3 2 = Err "failed to generate polynomial".
Proof.
  apply (Split_fails_without_random_bytes (upto 255) [7] [42; 17] 3 2).
  - unfold valid_split_input. split; [lia | split; [lia | discriminate]].
  - reflexivity.
  - simpl. lia.
Defined.

(** X15. Combine rejects, with an error each: fewer than two parts; a
    first part of fewer than two bytes; a part whose length differs from
    the first; and, for parts of three bytes or more, two parts with the
    same x coordinate. *)
Theorem Combine_rejects_malformed_parts (part0 : list Z) (rest : list (list Z)) :
  Combine [] = Err "less than two parts cannot be used to reconstruct the secret" /\
  Combine [part0] =
    Err "less than two parts cannot be used to reconstruct the secret" /\
  (rest <> [] -> (length part0 < 2)%nat ->
   Combine (part0 :: rest) = Err "parts must be at least two bytes") /\
  (rest <> [] -> (2 <= length part0)%nat ->
   ~ Forall (fun part : list Z => length part = length part0) rest ->
   Combine (part0 :: rest) = Err "all parts must be the same length") /\
  (rest <> [] -> (3 <= length part0)%nat ->
   Forall (fun part : list Z => length part = length part0) rest ->
   ~ NoDup (tags (length part0) (part0 :: rest)) ->
   Combine (part0 :: rest) = Err "duplicate part detected").
Proof.
  split_and!; [done | done | | |].
  - intros Hrest Hlen. unfold Combine.
    destruct (Z.ltb_spec (Z.of_nat (length (part0 :: rest))) 2) as [Hlt | _].
    { destruct rest; [done | simpl in Hlt; lia]. }
    change (index (part0 :: rest) 0) with (Ok part0 : outcome (list Z)).
    rewrite obind_Ok_eq.
    destruct (Z.ltb_spec (Z.of_nat (length part0)) 2); [done | lia].
  - intros Hrest Hlen Hbad. unfold Combine.
    destruct (Z.ltb_spec (Z.of_nat (length (part0 :: rest))) 2) as [Hlt | _].
    { destruct rest; [done | simpl in Hlt; lia]. }
    change (index (part0 :: rest) 0) with (Ok part0 : outcome (list Z)).
    rewrite obind_Ok_eq.
    destruct (Z.ltb_spec (Z.of_nat (length part0)) 2); [lia |].
    change (drop 1 (part0 :: rest)) with rest.
    by rewrite lengths_loop_Err.
  - intros Hrest Hlen Hall Hdup. unfold Combine.
    destruct (Z.ltb_spec (Z.of_nat (length (part0 :: rest))) 2) as [Hlt | _].
    { destruct rest; [done | simpl in Hlt; lia]. }
    change (index (part0 :: rest) 0) with (Ok part0 : outcome (list Z)).
    rewrite obind_Ok_eq.
    destruct (Z.ltb_spec (Z.of_nat (length part0)) 2); [lia |].
    change (drop 1 (part0 :: rest)) with rest.
    rewrite lengths_loop_Ok by done. rewrite obind_Ok_eq.
    rewrite !make_Ok by lia. rewrite !obind_Ok_eq.
    pose proof (samples_loop_Err (length part0) (part0 :: rest) Hlen
                  ltac:(by constructor) 0 ∅
                  (replicate (Z.to_nat (Z.of_nat (length (part0 :: rest)))) 0))
      as Hsamples.
    rewrite length_replicate in Hsamples.
    change (Z.of_nat 0) with 0 in Hsamples. rewrite Hsamples; [done | | lia | by right].
    intros t b Ht. by rewrite lookup_empty in Ht.
Qed.

Lemma Combine_rejects_malformed_parts_witness :
  Combine [[1]; [2; 3]] = Err "parts must be at least two bytes" /\
  Combine [[1; 2; 3]; [4; 5]] = Err "all parts must be the same length" /\
  Combine [[45; 1; 42; 7]; [45; 1; 42; 7]] = Err "duplicate part detected".
Proof.
  split_and!.
  - apply (Combine_rejects_malformed_parts [1] [[2; 3]]); [discriminate | simpl; lia].
  - apply (Combine_rejects_malformed_parts [1; 2; 3] [[4; 5]]);
      [discriminate | simpl; lia |].
    intros Hall. apply Forall_inv in Hall. simpl in Hall. lia.
  - apply (Combine_rejects_malformed_parts [45; 1; 42; 7] [[45; 1; 42; 7]]);
      [discriminate | simpl; lia | repeat constructor |].
    intros Hnd. apply NoDup_cons in Hnd as [Hnotin _]. apply Hnotin. left.
Defined.

(** X16. Parts of exactly two bytes pass the length check of Combine and
    then make it panic: the x coordinate is read at offset
    [firstPartLen - 3], which is -1. *)
Theorem Combine_panics_on_two_byte_parts (parts : list (list Z)) :
  (2 <= length parts)%nat ->
  Forall (fun part : list Z => length part = 2%nat) parts ->
  Combine parts = Panic "index out of range".
Proof.
  intros Hlen Hall. unfold Combine.
  destruct (Z.ltb_spec (Z.of_nat (length parts)) 2); [lia |].
  destruct parts as [|part0 rest]; [simpl in Hlen; lia |].
  pose proof (Forall_inv Hall) as Hpart0. simpl in Hpart0.
  change (index (part0 :: rest) 0) with (Ok part0 : outcome (list Z)).
  rewrite obind_Ok_eq, Hpart0.
  change (Z.of_nat 2 <? 2) with false. cbv iota.
  change (drop 1 (part0 :: rest)) with rest.
  rewrite (lengths_loop_Ok 2 rest) by (by apply Forall_inv_tail in Hall).
  rewrite obind_Ok_eq. rewrite !make_Ok by lia. rewrite !obind_Ok_eq.
  reflexivity.
Qed.

Lemma Combine_panics_on_two_byte_parts_witness :
  Combine [[1; 2]; [3; 4]] = Panic "index out of range".
Proof.
  apply (Combine_panics_on_two_byte_parts [[1; 2]; [3; 4]]).
  - simpl. lia.
  - repeat constructor.
Defined.

(** X17. On two parts or more, of one length of three bytes or more and
    with different x coordinates, Combine never fails: it returns one byte
    less than a part has, each the interpolation at zero of the bytes of
    the parts at its position. *)
Theorem Combine_interpolates_every_position (len : nat) (parts : list (list Z)) :
  (2 <= length parts)%nat -> (3 <= len)%nat ->
  Forall (fun part : list Z => length part = len) parts ->
  NoDup (tags len parts) ->
  exists secret,
    Combine parts = Ok secret /\
    length secret = (len - 1)%nat /\
    forall idx, (idx < len - 1)%nat ->
      interpolatePolynomial (tags len parts) (column idx parts) 0 =
        Ok (nth idx secret 0).
Proof.
  intros Hparts Hlen Hall Hnd. exists (combined len parts).
  split_and!.
  - by apply Combine_value.
  - unfold combined. by rewrite length_map, length_seq.
  - intros idx Hidx.
    rewrite interpolatePolynomial_value;
      [| done | unfold column, tags; by rewrite !length_map].
    f_equal. unfold combined. rewrite nth_lookup, list_lookup_fmap.
    by rewrite lookup_seq_lt.
Qed.

Lemma Combine_interpolates_every_position_witness :
  exists secret,
    Combine [[45; 24; 1; 17; 9]; [36; 3; 2; 17; 9]] = Ok secret /\
    length secret = (5 - 1)%nat /\
    forall idx, (idx < 5 - 1)%nat ->
      interpolatePolynomial (tags 5 [[45; 24; 1; 17; 9]; [36; 3; 2; 17; 9]])
        (column idx [[45; 24; 1; 17; 9]; [36; 3; 2; 17; 9]]) 0 =
        Ok (nth idx secret 0).
Proof.
  apply (Combine_interpolates_every_position 5
           [[45; 24; 1; 17; 9]; [36; 3; 2; 17; 9]]).
  - simpl. lia.
  - lia.
  - repeat constructor.
  - apply (bool_decide_eq_true_1 (NoDup [1; 2])). vm_compute. reflexivity.
Defined.

(** X18. For a Split with x coordinates from a permutation of 0..254, and
    bytes as secret and as random coefficients, Combine on any selection of
    at least [threshold] different shares returns the secret followed by a
    zero byte and by the last byte of the secret. *)
Theorem Combine_recovers_secret_and_two_bytes
    (xCoordinates tape secret : list Z) (parts threshold : Z)
    (shares : list (list Z)) (selection : list Z) :
  length xCoordinates = 255%nat -> NoDup xCoordinates ->
  Forall (fun x => 0 <= x < 255) xCoordinates ->
  Forall is_byte secret -> Forall is_byte tape ->
  Split xCoordinates tape secret parts threshold = Ok shares ->
  NoDup selection -> Forall (fun i => 0 <= i < parts) selection ->
  threshold <= Z.of_nat (length selection) ->
  Combine (map (fun i => nth (Z.to_nat i) shares []) selection) =
    Ok (secret ++ [0; default 0 (last secret)]).
Proof.
  intros HxC Hnd Hperm Hsecret Htape Hok Hsel Hrange Hlen.
  destruct (Split_Ok_rows _ _ _ _ _ _ HxC Hok) as (Hvalid & _ & ->).
  rewrite (list_fmap_ext _ (expected_share xCoordinates tape secret threshold)
             selection).
  - by apply (Combine_expected_shares _ _ _ parts).
  - intros k i Hi. simpl.
    pose proof (proj1 (Forall_lookup _ _) Hrange _ _ Hi) as Hr. simpl in Hr.
    rewrite nth_lookup, list_lookup_fmap, upto_lookup by lia. simpl.
    by rewrite Z2Nat.id by lia.
Qed.

Lemma Combine_recovers_secret_and_two_bytes_witness :
  Combine (map (fun i => nth (Z.to_nat i)
                  [[45; 24; 1; 17; 9]; [36; 3; 2; 17; 9]; [35; 10; 3; 17; 9]] [])
             [2; 0]) =
    Ok ([42; 17] ++ [0; default 0 (last [42; 17])]).
Proof.
  apply (Combine_recovers_secret_and_two_bytes (upto 255) [7; 9; 11; 200]
           [42; 17] 3 2).
  - reflexivity.
  - apply NoDup_upto.
  - apply Forall_forall. intros x Hx. apply elem_of_upto in Hx. lia.
  - repeat constructor; unfold is_byte; lia.
  - repeat constructor; unfold is_byte; lia.
  - vm_compute. reflexivity.
  - apply (bool_decide_eq_true_1 (NoDup [2; 0])). vm_compute. reflexivity.
  - repeat constructor; lia.
  - simpl. lia.
Defined.

End SplitCombineExtras.

Section EvaluateExtras.
Import shamir.

Local Infix "⊕" := fadd (at level 50, left associativity).
Local Infix "⊗" := fmul (at level 40, left associativity).

Lemma gpow_byte x n : is_byte x -> is_byte (gpow x n).
Proof.
  intros Hx. induction n as [|n IH]; [unfold is_byte; simpl; lia |].
  simpl. by apply mult_byte.
Qed.

Lemma monomials_F (cs : list byte) (x : byte) (k : nat) :
  foldr add 0
    (imap (fun i c => mult c (gpow (to_Z x) (k + i))) (map to_Z cs)) =
  to_Z (of_Z (gpow (to_Z x) k) ⊗ evalF cs x).
Proof.
  revert k. induction cs as [|c cs IH]; intros k.
  - simpl. change (evalF [] x) with x00. change 0 with (to_Z x00). f_equal;
      try ring.
  - change (evalF (c :: cs) x) with (c ⊕ x ⊗ evalF cs x).
    simpl. rewrite Nat.add_0_r.
    rewrite (imap_ext _ (fun i c => mult c (gpow (to_Z x) (S k + i)))).
    2: { intros i y _. simpl. by replace (k + S i)%nat with (S (k + i)) by lia. }
    rewrite IH.
    assert (Hk : gpow (to_Z x) k = to_Z (of_Z (gpow (to_Z x) k))).
    { symmetry. apply to_of_Z, gpow_byte, to_Z_byte. }
    assert (HS : of_Z (gpow (to_Z x) (S k)) = x ⊗ of_Z (gpow (to_Z x) k)).
    { apply to_Z_inj. rewrite to_Z_fmul, <- Hk.
      apply to_of_Z. apply (gpow_byte _ (S k)), to_Z_byte. }
    rewrite HS. rewrite Hk at 1.
    rewrite <- to_Z_fmul, <- to_Z_fadd. f_equal. ring.
Qed.

(** X19. [evaluate] on byte coefficients, at a byte [x], returns the sum of
    the monomials [c_i * x^i] in the arithmetic of [add] and [mult]: the
    special case of the origin and the Horner loop agree with it. Without
    coefficients it panics. *)
Theorem evaluate_is_the_monomial_sum (p : polynomial) (x : Z) :
  Forall is_byte (coefficients p) -> is_byte x ->
  (coefficients p = [] -> evaluate p x = Panic "index out of range") /\
  (coefficients p <> [] ->
   evaluate p x = Ok (monomial_sum (coefficients p) x) /\
   is_byte (monomial_sum (coefficients p) x)).
Proof.
  intros Hcs Hx. destruct p as [cs]. simpl in *. split.
  - intros ->. unfold evaluate. simpl. by destruct (x =? 0).
  - intros Hne.
    assert (Hsum : poly_value cs x = monomial_sum cs x).
    { rewrite (bytes_of_list cs Hcs), <- (to_of_Z x Hx).
      rewrite poly_value_F. unfold monomial_sum.
      transitivity (to_Z (of_Z (gpow (to_Z (of_Z x)) 0) ⊗ evalF (map of_Z cs) (of_Z x))).
      - f_equal. change (of_Z (gpow (to_Z (of_Z x)) 0)) with x01. ring.
      - symmetry. exact (monomials_F (map of_Z cs) (of_Z x) 0). }
    rewrite evaluate_value by done. rewrite <- Hsum. split; [done |].
    rewrite (bytes_of_list cs Hcs), <- (to_of_Z x Hx), poly_value_F.
    apply to_Z_byte.
Qed.

Lemma evaluate_is_the_monomial_sum_witness :
  evaluate {| coefficients := [42; 7; 1] |} 3 =
    Ok (monomial_sum [42; 7; 1] 3) /\
  is_byte (monomial_sum [42; 7; 1] 3).
Proof.
  apply (evaluate_is_the_monomial_sum {| coefficients := [42; 7; 1] |} 3).
  - repeat constructor; unfold is_byte; lia.
  - unfold is_byte. lia.
  - discriminate.
Defined.

End EvaluateExtras.

(** ** Ledger: the further properties on the small platform *)

Section LedgerExtrasWitnesses.
Import types badger database demo.

Lemma StoreValue_GetValue_roundtrip_witness :
  let s' := fst (StoreValue store0 "latest" [x64; x64]) in
  GetValue s' "latest" = (s', ([x64; x64], None)) /\
  (forall other, other <> "latest"%string ->
     snd (GetValue s' other) = snd (GetValue store0 other)).
Proof.
  apply (@StoreValue_GetValue_roundtrip backend store0
           (fst (StoreValue store0 "latest" [x64; x64])) "latest" [x64; x64]).
  - vm_compute. reflexivity.
  - reflexivity.
Defined.

Lemma GetValue_reads_only_witness :
  fst (GetValue store0 "latest") = store0 /\
  snd (GetValue store0 "latest") = ([], not_found).
Proof.
  destruct (@GetValue_reads_only backend store0 "latest") as [Hsame Habsent].
  split; [exact Hsame | apply Habsent; reflexivity].
Defined.

Lemma StoreBlock_drops_marshal_error_witness :
  snd (StoreBlock store0 block_bad) = None /\
  storHandler (fst (StoreBlock store0 block_bad)) !! hash_key (Hash block_bad)
    = Some [] /\
  GetBlock (fst (StoreBlock store0 block_bad)) (Hash block_bad) =
    json_Unmarshal [] zero_block.
Proof.
  apply (@StoreBlock_drops_marshal_error platform backend json_block store0
           block_bad "json: unsupported value").
  - reflexivity.
  - intros k v Hin. unfold block_writes in Hin.
    repeat (apply elem_of_cons in Hin as [[= -> ->] | Hin]; [vm_compute; reflexivity |]).
    by apply elem_of_nil in Hin.
  - reflexivity.
Defined.

Lemma StoreBlock_keeps_stale_index_witness :
  let second := set_Hash (Hash block1) block2 in
  let s2 := fst (StoreBlock (fst (StoreBlock store0 block1)) second) in
  let record := json_Unmarshal (marshal_bytes (json_Marshal second)) zero_block in
  GetBlock s2 (Hash block1) = record /\
  FindBlockByTimestamp s2 (Timestamp block1) = record /\
  FindBlockByHeight s2 (Height block1) = record.
Proof.
  apply (@StoreBlock_keeps_stale_index platform backend json_block store0
           (fst (StoreBlock store0 block1))
           (fst (StoreBlock (fst (StoreBlock store0 block1))
                   (set_Hash (Hash block1) block2)))
           block1 (set_Hash (Hash block1) block2)).
  - unfold is_uint64. simpl. lia.
  - unfold is_uint64. simpl. lia.
  - unfold is_uint64. simpl. lia.
  - unfold is_uint64. simpl. lia.
  - reflexivity.
  - simpl. lia.
  - simpl. lia.
  - vm_compute. reflexivity.
  - vm_compute. reflexivity.
Defined.

Lemma StoreBlock_twice_witness :
  StoreBlock (fst (StoreBlock store0 block1)) block1 =
    (fst (StoreBlock store0 block1), None).
Proof.
  apply (@StoreBlock_twice platform backend json_block store0
           (fst (StoreBlock store0 block1)) block1).
  vm_compute. reflexivity.
Defined.

End LedgerExtrasWitnesses.
